(** * videojs-contrib-dash: the adapter between video.js and dash.js

    A shallow embedding of [dist/videojs-dash.es.js] and the properties of
    its specification that were checked against it.

    Conventions of the embedding.
    - A JavaScript string is a [string]; one character stands for one code
      unit.
    - A JavaScript number is carried by its canonical [ToString] rendering
      (["0.5"], ["255"], ["NaN"], ["Infinity"]).  The adapter prints
      numbers, tests them for truthiness and compares them with literals,
      and the rendering decides all three; the one product it computes, of a
      font size and a percentage, is computed on binary64 floats.
    - Objects live in a store ([heap]) and are passed by reference, so that
      mutation through one reference is seen through every other one.
    - A call that may throw returns a [completion]. *)

From Stdlib Require Import ZArith Ascii String List Bool Lia.
From Stdlib Require Floats.SpecFloat.
From stdpp Require Import base option list strings gmap fin_maps pretty.

Local Open Scope string_scope.
Local Open Scope list_scope.
Local Open Scope Z_scope.

(** ** Strings *)

Definition jsnum := string.

Inductive exn :=
| TypeError (msg : string)
| RangeError (msg : string)
| SyntaxError (msg : string)
| Error (msg : string).

Inductive completion (A : Type) :=
| Normal (a : A)
| Throw (e : exn).
Arguments Normal {A} a.
Arguments Throw {A} e.

(** [s[i]]: the one-character string at index [i], or [undefined], which
    string concatenation renders as ["undefined"]. *)
Definition char_at (s : string) (i : nat) : string :=
  match String.get i s with
  | Some c => String c EmptyString
  | None => "undefined"
  end.

(** [s.slice(from)] and [s.slice(from, to)] for [0 <= from <= to]. *)
Fixpoint slice_from (from : nat) (s : string) : string :=
  match from, s with
  | O, _ => s
  | S n, EmptyString => EmptyString
  | S n, String _ s' => slice_from n s'
  end.

Definition slice (from to : nat) (s : string) : string :=
  String.substring from (to - from) s.

Definition is_white_space (c : ascii) : bool :=
  let n := nat_of_ascii c in
  ((9 <=? n) && (n <=? 13) || (n =? 32) || (n =? 160))%nat.

Definition hex_digit_value (c : ascii) : option Z :=
  let n := Z.of_nat (nat_of_ascii c) in
  if (48 <=? n) && (n <=? 57) then Some (n - 48)
  else if (97 <=? n) && (n <=? 102) then Some (n - 87)
  else if (65 <=? n) && (n <=? 70) then Some (n - 55)
  else None.

Fixpoint skip_white_space (s : string) : string :=
  match s with
  | String c s' => if is_white_space c then skip_white_space s' else s
  | EmptyString => s
  end.

(** The longest prefix of hexadecimal digits, read most significant digit
    first; [None] when there is no digit at all. *)
Fixpoint hex_prefix (acc : option Z) (s : string) : option Z :=
  match s with
  | String c s' =>
      match hex_digit_value c with
      | Some d => hex_prefix (Some (16 * default 0 acc + d)) s'
      | None => acc
      end
  | EmptyString => acc
  end.

Definition strip_0x (s : string) : string :=
  match s with
  | String "0" (String "x" s') => s'
  | String "0" (String "X" s') => s'
  | _ => s
  end.

(** [parseInt(s, 16)], rendered: leading white space, an optional sign, an
    optional [0x] and then the longest run of digits; [NaN] without one.
    A negative zero prints as ["0"]. *)
Definition parseInt16 (s : string) : jsnum :=
  let s := skip_white_space s in
  let '(sign, s) :=
    match s with
    | String "-" s' => (-1, s')
    | String "+" s' => (1, s')
    | _ => (1, s)
    end in
  match hex_prefix None (strip_0x s) with
  | Some n => pretty (sign * n)
  | None => "NaN"
  end.

(** ** Values and the object store *)

Definition loc := positive.

Inductive value :=
| VUndefined
| VNull
| VBool (b : bool)
| VNum (n : jsnum)
| VStr (s : string)
| VRef (l : loc).

(** A plain object holds its own enumerable properties, an array its
    elements.  The prototype of a plain object is [Object.prototype] and that
    of an array [Array.prototype]; an object whose prototype has been set
    through [__proto__], to another object or to [null], is kept apart. *)
Inductive object :=
| OPlain (fields : gmap string value)
| OArray (elems : list value)
| ODerived (proto : option loc) (fields : gmap string value).

Abbreviation heap := (gmap loc object).

(** [ToBoolean] *)
Definition truthy (v : value) : bool :=
  match v with
  | VUndefined | VNull => false
  | VBool b => b
  | VNum n => negb (String.eqb n "0" || String.eqb n "NaN")
  | VStr s => negb (String.eqb s EmptyString)
  | VRef _ => true
  end.

(** Code that reads and writes a state [S] and may throw: the state is kept
    up to the point of the throw. *)
Definition M (S A : Type) : Type := S -> completion A * S.

Definition ret {S A} (a : A) : M S A := fun s => (Normal a, s).
Definition throw {S A} (e : exn) : M S A := fun s => (Throw e, s).
Definition bind {S A B} (c : M S A) (k : A -> M S B) : M S B :=
  fun s =>
    match c s with
    | (Normal a, s') => k a s'
    | (Throw e, s') => (Throw e, s')
    end.

Notation "'do' x <- c ; k" := (bind c (fun x => k))
  (at level 10, x name, c at level 100, k at level 200).
Notation "c ;; k" := (bind c (fun _ => k))
  (at level 100, k at level 200, right associativity).

Definition get_state {S} : M S S := fun s => (Normal s, s).
Definition modify {S} (f : S -> S) : M S unit := fun s => (Normal tt, f s).
Definition lift_completion {S A} (c : completion A) : M S A := fun s => (c, s).

(** [array.forEach(f)] *)
Fixpoint forEach {S A} (l : list A) (f : A -> M S unit) : M S unit :=
  match l with
  | [] => ret tt
  | x :: rest => f x ;; forEach rest f
  end.

(** [new Object] / an array literal: the object is stored at an address not
    in use. *)
Definition alloc (o : object) : M heap loc :=
  fun h => let l := fresh (dom h) in (Normal l, <[l := o]> h).

(** The element of an array under the property name [k], if [k] is the
    rendering of one of its indices. *)
Fixpoint element_named (k : string) (i : N) (elems : list value) : option value :=
  match elems with
  | [] => None
  | e :: rest => if String.eqb (pretty i) k then Some e else element_named k (N.succ i) rest
  end.

(** The data property an object has of its own under [k]. *)
Definition own_property (o : object) (k : string) : option value :=
  match o with
  | OPlain fields | ODerived _ fields => fields !! k
  | OArray elems =>
      if String.eqb k "length" then Some (VNum (pretty (N.of_nat (length elems))))
      else element_named k 0%N elems
  end.

(** Where the search for the property [k] ends, from the object at [l]
    along the prototypes: at a data property, or without one at
    [Object.prototype], at [Array.prototype] or at [null].  [depth] bounds
    the number of prototypes; the engine keeps them from forming a cycle. *)
Inductive chain_end :=
| Found (v : value)
| EndsAtObject
| EndsAtArray
| EndsAtNull.

Fixpoint walk (depth : nat) (h : heap) (l : loc) (k : string) : chain_end :=
  match h !! l with
  | Some (OPlain fields) =>
      match fields !! k with Some v => Found v | None => EndsAtObject end
  | Some (OArray elems) =>
      match own_property (OArray elems) k with Some v => Found v | None => EndsAtArray end
  | Some (ODerived proto fields) =>
      match fields !! k with
      | Some v => Found v
      | None =>
          match proto, depth with
          | Some l', S d => walk d h l' k
          | _, _ => EndsAtNull
          end
      end
  | None => EndsAtNull
  end.

(** [base[k]] / [base.k]: reading from [undefined] or [null] throws, a
    missing property reads as [undefined].  The names the adapter reads are
    data: none of them is the name of a member of a built-in prototype. *)
Definition get_prop (h : heap) (base : value) (k : string) : completion value :=
  match base with
  | VUndefined => Throw (TypeError ("Cannot read properties of undefined (reading '" +:+ k +:+ "')"))
  | VNull => Throw (TypeError ("Cannot read properties of null (reading '" +:+ k +:+ "')"))
  | VRef l =>
      match h !! l with
      | Some (OPlain fields) => Normal (default VUndefined (fields !! k))
      | Some (OArray elems) =>
          if String.eqb k "length" then Normal (VNum (pretty (N.of_nat (length elems))))
          else Normal (default VUndefined (element_named k 0%N elems))
      | Some (ODerived _ _) =>
          Normal (match walk (S (size h)) h l k with Found v => v | _ => VUndefined end)
      | None => Normal VUndefined
      end
  | VStr s =>
      if String.eqb k "length" then Normal (VNum (pretty (N.of_nat (String.length s))))
      else Normal (default VUndefined
                     (element_named k 0%N
                        (map (fun c => VStr (String c EmptyString)) (list_ascii_of_string s))))
  | VBool _ | VNum _ => Normal VUndefined
  end.

(** [Array.isArray(v)] *)
Definition isArray (h : heap) (v : value) : bool :=
  match v with
  | VRef l => match h !! l with Some (OArray _) => true | _ => false end
  | _ => false
  end.

(** Whether the prototypes of the object at [l], from that object on, lead
    to the object at [target]. *)
Fixpoint in_chain (depth : nat) (h : heap) (target l : loc) : bool :=
  if decide (l = target) then true
  else
    match h !! l, depth with
    | Some (ODerived (Some l') _), S d => in_chain d h target l'
    | _, _ => false
    end.

(** What the setter of [Object.prototype.__proto__] does on the object at
    [l]: it makes an object or [null] the prototype, throws when the object
    would become a prototype of itself, and ignores any other value. *)
Definition set_prototype (l : loc) (x : value) : M heap unit :=
  fun h =>
    match h !! l, x with
    | Some (OPlain fields), VRef l' =>
        if in_chain (S (size h)) h l l'
        then (Throw (TypeError "Cyclic __proto__ value"), h)
        else (Normal tt, <[l := ODerived (Some l') fields]> h)
    | Some (ODerived proto fields), VRef l' =>
        if bool_decide (proto = Some l') then (Normal tt, h)
        else if in_chain (S (size h)) h l l'
        then (Throw (TypeError "Cyclic __proto__ value"), h)
        else (Normal tt, <[l := ODerived (Some l') fields]> h)
    | Some (OPlain fields), VNull | Some (ODerived _ fields), VNull =>
        (Normal tt, <[l := ODerived None fields]> h)
    | _, _ => (Normal tt, h)
    end.

(** [obj[k] = x] and [delete obj[k]] on an object that is no array.  The
    assignment makes [k] a property of the object itself, with one
    exception: under [__proto__], when neither the object nor its prototypes
    have a data property of that name and the prototypes lead to
    [Object.prototype], it calls the setter found there. *)
Definition set_field (l : loc) (k : string) (x : value) : M heap unit :=
  fun h =>
    match h !! l with
    | Some (OPlain fields) =>
        if String.eqb k "__proto__" && bool_decide (fields !! k = None)
        then set_prototype l x h
        else (Normal tt, <[l := OPlain (<[k := x]> fields)]> h)
    | Some (ODerived proto fields) =>
        if String.eqb k "__proto__" &&
           match walk (S (size h)) h l k with
           | EndsAtObject | EndsAtArray => true
           | _ => false
           end
        then set_prototype l x h
        else (Normal tt, <[l := ODerived proto (<[k := x]> fields)]> h)
    | _ => (Normal tt, h)
    end.

Definition delete_field (l : loc) (k : string) : M heap unit :=
  fun h =>
    match h !! l with
    | Some (OPlain fields) => (Normal tt, <[l := OPlain (delete k fields)]> h)
    | Some (ODerived proto fields) =>
        (Normal tt, <[l := ODerived proto (delete k fields)]> h)
    | _ => (Normal tt, h)
    end.

(** [String(v)] for data: a plain object renders as [[object Object]], an
    array as its elements joined by commas, [null] and [undefined] elements
    as nothing.  [depth] bounds the nesting; an array met again inside
    itself renders as nothing, which is what running out of depth gives. *)
Fixpoint join_with (sep : string) (parts : list string) : string :=
  match parts with
  | [] => EmptyString
  | [p] => p
  | p :: rest => p +:+ sep +:+ join_with sep rest
  end.

Fixpoint to_string_depth (depth : nat) (h : heap) (v : value) : string :=
  match v with
  | VUndefined => "undefined"
  | VNull => "null"
  | VBool true => "true"
  | VBool false => "false"
  | VNum n => n
  | VStr s => s
  | VRef l =>
      match h !! l with
      | Some (OArray elems) =>
          match depth with
          | O => EmptyString
          | S d =>
              join_with ","
                (map (fun e => match e with
                               | VUndefined | VNull => EmptyString
                               | _ => to_string_depth d h e
                               end) elems)
          end
      | _ => "[object Object]"
      end
  end.

Definition to_string (h : heap) (v : value) : string :=
  to_string_depth (S (size h)) h v.

(** ** Caption colours (constructColor) *)

Definition constructColor (color : string) (opacity : jsnum) : completion string :=
  let hex_or_throw :=
    if (String.length color =? 4)%nat then
      Normal (char_at color 1 +:+ char_at color 1 +:+ char_at color 2 +:+
              char_at color 2 +:+ char_at color 3 +:+ char_at color 3)
    else if (String.length color =? 7)%nat then
      Normal (slice_from 1 color)
    else
      Throw (Error ("Invalid color code provided, " +:+ color +:+
                    "; must be formatted as e.g. #f0e or #f604e2."))
  in
  match hex_or_throw with
  | Throw e => Throw e
  | Normal hex =>
      Normal ("rgba(" +:+ parseInt16 (slice 0 2 hex) +:+ "," +:+
              parseInt16 (slice 2 4 hex) +:+ "," +:+
              parseInt16 (slice 4 6 hex) +:+ "," +:+ opacity +:+ ")")
  end.

(** Every character, for proofs by exhaustive evaluation. *)
Definition all_ascii : list ascii := map ascii_of_nat (seq 0 256).

Definition two_digits_ok (c1 c2 : ascii) : bool :=
  match hex_digit_value c1, hex_digit_value c2 with
  | Some v1, Some v2 =>
      String.eqb (parseInt16 (String c1 (String c2 EmptyString)))
                 (pretty (16 * v1 + v2))
  | _, _ => true
  end.

(** The string [rgba(r,g,b,opacity)] for integer channels. *)
Definition rgba (r g b : Z) (opacity : jsnum) : string :=
  "rgba(" +:+ pretty r +:+ "," +:+ pretty g +:+ "," +:+ pretty b +:+ "," +:+
  opacity +:+ ")".

(** ** Error translation (retriggerError_) *)

(** [haystack.match(needle)] is truthy, for a [needle] without regular
    expression operators: [needle] occurs in [haystack]. *)
Fixpoint starts_with (p s : string) : bool :=
  match p, s with
  | EmptyString, _ => true
  | String a p', String b s' => if Ascii.eqb a b then starts_with p' s' else false
  | String _ _, EmptyString => false
  end.

Fixpoint contains (needle haystack : string) : bool :=
  starts_with needle haystack ||
  match haystack with
  | String _ rest => contains needle rest
  | EmptyString => false
  end.

(** What dash.js puts under [event.event]: nothing, a message string, or an
    object with an [id] and a [message]. *)
Inductive detail :=
| DUndefined
| DText (s : string)
| DObject (id message : option string).

Record dash_error := { error : string; event : detail }.

(** What the listener does to its surroundings: [player.error(...)] and
    [setTimeout(reset, ms)]. *)
Inductive effect :=
| PlayerError (code : Z) (message : detail)
| ResetAfter (ms : Z).

(** [event.event === text] *)
Definition detail_is (d : detail) (text : string) : bool :=
  match d with
  | DText s => String.eqb s text
  | _ => false
  end.

(** [event.event.id]: reading a property of [undefined] throws, a string has
    no [id]. *)
Definition detail_id (d : detail) : completion (option string) :=
  match d with
  | DUndefined => Throw (TypeError "Cannot read properties of undefined (reading 'id')")
  | DText _ => Normal None
  | DObject id _ => Normal id
  end.

Definition detail_message (d : detail) : detail :=
  match d with
  | DObject _ (Some m) => DText m
  | _ => DUndefined
  end.

(** [event.event.match(needle)]: only a string has a [match] method. *)
Definition detail_match (d : detail) (needle : string) : completion bool :=
  match d with
  | DText s => Normal (contains needle s)
  | DUndefined => Throw (TypeError "Cannot read properties of undefined (reading 'match')")
  | DObject _ _ => Throw (TypeError "event.event.match is not a function")
  end.

Definition forwarded_manifest_ids : list string :=
  ["createParser"; "codec"; "nostreams"; "nostreamscomposed"; "parse";
   "multiplexedrep"].

Definition id_in (id : option string) (ids : list string) : bool :=
  match id with
  | Some s => existsb (String.eqb s) ids
  | None => false
  end.

Definition surfaced (code : Z) (message : detail) : completion (list effect) :=
  Normal [PlayerError code message; ResetAfter 10].

(** [if (c) t else e] for a condition that may throw. *)
Definition cond {A} (c : completion bool) (t e : completion A) : completion A :=
  match c with
  | Throw x => Throw x
  | Normal true => t
  | Normal false => e
  end.

(** [a && b], [b] evaluated only when [a] holds. *)
Definition and_then (a : bool) (b : completion bool) : completion bool :=
  if a then b else Normal false.

Definition id_is_forwarded (d : detail) : completion bool :=
  match detail_id d with
  | Throw e => Throw e
  | Normal id => Normal (id_in id forwarded_manifest_ids)
  end.

Definition retriggerError_ (ev : dash_error) : completion (list effect) :=
  let is_kind kind := String.eqb (error ev) kind in
  let e := event ev in
  cond (Normal (is_kind "capability" && detail_is e "mediasource"))
    (surfaced 4 (DText ("The media cannot be played because it requires a feature " +:+
                        "that your browser does not support.")))
  (cond (and_then (is_kind "manifestError") (id_is_forwarded e))
    (surfaced 4 (detail_message e))
  (cond (Normal (is_kind "mediasource"))
    (cond (detail_match e "MEDIA_ERR_ABORTED") (surfaced 1 e)
    (cond (detail_match e "MEDIA_ERR_NETWORK") (surfaced 2 e)
    (cond (detail_match e "MEDIA_ERR_DECODE") (surfaced 3 e)
    (cond (detail_match e "MEDIA_ERR_SRC_NOT_SUPPORTED") (surfaced 4 e)
    (cond (detail_match e "MEDIA_ERR_ENCRYPTED") (surfaced 5 e)
    (cond (detail_match e "UNKNOWN") (surfaced 4 e)
      (surfaced 4 e)))))))
  (cond (Normal (is_kind "capability" && detail_is e "encryptedmedia"))
    (surfaced 5 (DText ("The media cannot be played because it requires encryption " +:+
                        "features that your browser does not support.")))
  (cond (Normal (is_kind "key_session")) (surfaced 5 e)
  (cond (Normal (is_kind "download"))
    (surfaced 2 (DText ("The media playback was aborted because too many consecutive " +:+
                        "download errors occurred.")))
  (cond (Normal (is_kind "mssError")) (surfaced 3 e)
    (Normal []))))))).

(** The table of section 7 of the specification, row by row: the host code
    for an engine error, [None] for an error that is not surfaced. *)
Definition taxonomy (ev : dash_error) : option Z :=
  let text := match event ev with DText s => s | _ => EmptyString end in
  let id := match event ev with DObject id _ => id | _ => None end in
  if String.eqb (error ev) "capability" && String.eqb text "mediasource" then Some 4
  else if String.eqb (error ev) "manifestError" then
    if id_in id forwarded_manifest_ids then Some 4 else None
  else if String.eqb (error ev) "mediasource" then
    if contains "MEDIA_ERR_ABORTED" text then Some 1
    else if contains "MEDIA_ERR_NETWORK" text then Some 2
    else if contains "MEDIA_ERR_DECODE" text then Some 3
    else if contains "MEDIA_ERR_SRC_NOT_SUPPORTED" text then Some 4
    else if contains "MEDIA_ERR_ENCRYPTED" text then Some 5
    else if contains "UNKNOWN" text then Some 4
    else Some 4
  else if String.eqb (error ev) "capability" && String.eqb text "encryptedmedia" then Some 5
  else if String.eqb (error ev) "key_session" then Some 5
  else if String.eqb (error ev) "download" then Some 2
  else if String.eqb (error ev) "mssError" then Some 3
  else None.

(** The payload dash.js sends with an error of this kind: an object for a
    manifest error, a message string for a media source error. *)
Definition payload_fits (ev : dash_error) : Prop :=
  (error ev = "manifestError" -> event ev <> DUndefined) /\
  (error ev = "mediasource" -> exists s, event ev = DText s).

(** The code handed to [player.error], if any. *)
Definition reported_code (fx : list effect) : option Z :=
  match fx with
  | PlayerError code _ :: _ => Some code
  | _ => None
  end.

(** ** The dash.js player and the audio track bridge
       (handlePlaybackMetadataLoaded) *)

(** An audio track as dash.js reports it. *)
Record dash_track := {
  index : jsnum;
  lang : string;
  roles : list string
}.

(** A [videojs.AudioTrack] of the player's list. *)
Record audio_track := {
  id : string;
  enabled : bool
}.

(** The calls the adapter makes on a dash.js player; [None] is
    [undefined]. *)
Inductive engine_call :=
| Initialize
| On (event_name : string)
| Off (event_name : string)
| Hooked (lifecycle : string) (hook_id : nat)
| ApplyOption (setter : string) (arguments : list value)
| AttachView
| AttachTTMLRenderingDiv
| SetAutoPlay (autoplay : bool)
| SetProtectionData (protData : value)
| AttachSource (manifest : value)
| Reset
| SetCurrentTrack (track : option dash_track).

(** A dash.js player as the adapter sees it: what it answers and the calls
    it has received so far. *)
Record media_player := {
  isDynamic : bool;
  engine_duration : jsnum;
  currentTrack : option dash_track;
  own_properties : list string;
  received : list engine_call
}.

Definition call (c : engine_call) (mp : media_player) : media_player :=
  {| isDynamic := isDynamic mp;
     engine_duration := engine_duration mp;
     currentTrack := currentTrack mp;
     own_properties := own_properties mp;
     received := received mp ++ [c] |}.

Definition setCurrentTrack (track : option dash_track) (mp : media_player)
  : media_player :=
  call (SetCurrentTrack track) mp.

Definition generateIdFromTrackIndex (index : jsnum) : string :=
  "dash-audio-" +:+ index.

(** [Array.prototype.find]: the first element that satisfies [f]. *)
Fixpoint array_find {A} (f : A -> bool) (l : list A) : option A :=
  match l with
  | [] => None
  | x :: rest => if f x then Some x else array_find f rest
  end.

Definition findDashAudioTrack (subDashAudioTracks : list dash_track)
    (videojsAudioTrack : audio_track) : option dash_track :=
  array_find
    (fun t => String.eqb (generateIdFromTrackIndex (index t)) (id videojsAudioTrack))
    subDashAudioTracks.

(** The loop of the change handler; its [continue] goes on to the next
    track. *)
Fixpoint audioTracksChangeHandler (dashAudioTracks : list dash_track)
    (videojsAudioTracks : list audio_track) (mp : media_player) : media_player :=
  match videojsAudioTracks with
  | [] => mp
  | track :: rest =>
      let mp :=
        if enabled track
        then setCurrentTrack (findDashAudioTrack dashAudioTracks track) mp
        else mp in
      audioTracksChangeHandler dashAudioTracks rest mp
  end.

(** ** The hook registry (Html5DashJS.hooks, hook, removeHook) *)

(** A registered callback.  Functions are compared by identity, which
    [hook_id] stands for.  An [updatesource] hook is called with the source
    and returns the source to go on with; it may change any object of the
    store on the way. *)
Record callback := {
  hook_id : nat;
  hook_fn : value -> M heap value
}.

(** The second argument of [hooks]: one function or an array of them. *)
Inductive hook_arg :=
| OneHook (f : callback)
| ManyHooks (fs : list callback).

Definition concat_arg (l : list callback) (arg : hook_arg) : list callback :=
  match arg with
  | OneHook f => l ++ [f]
  | ManyHooks fs => l ++ fs
  end.

(** [Html5DashJS.hooks_]: the arrays of hooks it holds, by lifecycle. *)
Abbreviation registry := (gmap string (list callback)).

(** The names under which [Object.prototype] has a member.  [hooks_] is an
    object literal, so that a lifecycle of such a name, for which it holds no
    array, reads as that member: a function, or under [__proto__] the
    prototype itself. *)
Definition Object_prototype : list string :=
  ["constructor"; "__defineGetter__"; "__defineSetter__"; "hasOwnProperty";
   "__lookupGetter__"; "__lookupSetter__"; "isPrototypeOf";
   "propertyIsEnumerable"; "toString"; "valueOf"; "__proto__"; "toLocaleString"].

Definition inherited (type : string) : bool :=
  existsb (String.eqb type) Object_prototype.

(** What [hooks_[type]] holds after [hooks]: the array of the lifecycle, or
    the member of [Object.prototype] of that name. *)
Inductive lifecycle :=
| Hooks (fs : list callback)
| Member (name : string).

(** [hooks(type, hook)].  Where [hooks_[type]] reads as a member of
    [Object.prototype] it is truthy and stays: the assignment
    [hooks_[type] = hooks_[type] || []] hands it back to the object, which
    holds no array for the lifecycle after it either, and [concat] is no
    function of it. *)
Definition hooks (type : string) (arg : option hook_arg) : M registry lifecycle :=
  do r <- get_state;
  if inherited type && bool_decide (r !! type = None) then
    match arg with
    | Some _ => throw (TypeError "Html5DashJS.hooks_[type].concat is not a function")
    | None => ret (Member type)
    end
  else
    modify (fun r => <[type := default [] (r !! type)]> r) ;;
    match arg with
    | Some a => modify (fun r => <[type := concat_arg (default [] (r !! type)) a]> r)
    | None => ret tt
    end ;;
    do r <- get_state;
    ret (Hooks (default [] (r !! type))).

Definition hook (type : string) (arg : option hook_arg) : M registry unit :=
  hooks type arg ;; ret tt.

(** The array that a method of arrays is called on: the call throws on a
    member of [Object.prototype], which has no such method. *)
Definition array_of {S} (method : string) (x : lifecycle) : M S (list callback) :=
  match x with
  | Hooks fs => ret fs
  | Member _ => throw (TypeError ("Html5DashJS.hooks(...)." +:+ method +:+ " is not a function"))
  end.

(** [array.indexOf(f)] *)
Fixpoint index_of (f : callback) (l : list callback) : option nat :=
  match l with
  | [] => None
  | g :: rest =>
      if Nat.eqb (hook_id g) (hook_id f) then Some O
      else option_map S (index_of f rest)
  end.

(** [array.splice(i, 1)] *)
Fixpoint remove_at {A} (i : nat) (l : list A) : list A :=
  match i, l with
  | _, [] => []
  | O, _ :: rest => rest
  | S j, x :: rest => x :: remove_at j rest
  end.

Definition removeHook (type : string) (f : callback) : M registry bool :=
  do l <- hooks type None;
  do l <- array_of "indexOf" l;
  match index_of f l with
  | None => ret false
  | Some i =>
      modify (fun r => <[type := remove_at i (default [] (r !! type))]> r) ;;
      ret true
  end.

(** The loop [hooks('updatesource').forEach(hook => source = hook(source))]
    with the variable [source] it assigns. *)
Fixpoint run_hooks (hs : list callback) (source : value) : M heap value :=
  match hs with
  | [] => ret source
  | f :: rest => do source <- hook_fn f source; run_hooks rest source
  end.

(** ** Protection data (buildDashJSProtData) *)

(** video.js's [isPlain]: an object that is no array and whose
    [constructor] is [Object], which it inherits from [Object.prototype]
    unless it or one of its prototypes has a property of that name. *)
Definition isPlain (h : heap) (v : value) : bool :=
  match v with
  | VRef l =>
      match h !! l with
      | Some (OPlain _) | Some (ODerived _ _) =>
          match walk (S (size h)) h l "constructor" with
          | EndsAtObject => true
          | _ => false
          end
      | _ => false
      end
  | _ => false
  end.

Fixpoint numbered (i : N) (elems : list value) : list (string * value) :=
  match elems with
  | [] => []
  | e :: rest => (pretty i, e) :: numbered (N.succ i) rest
  end.

(** video.js's [keys(v)], with the values under them: [Object.keys] of an
    object, nothing for any other value. *)
Definition own_entries (h : heap) (v : value) : list (string * value) :=
  match v with
  | VRef l =>
      match h !! l with
      | Some (OPlain fields) | Some (ODerived _ fields) => map_to_list fields
      | Some (OArray elems) => numbered 0%N elems
      | None => []
      end
  | _ => []
  end.

(** What [result[key]] finds in [mergeOptions]: a value, or
    [Object.prototype] itself, which a plain object has under [__proto__].
    The functions of the built-in prototypes are no plain objects and have
    no properties to copy; they read like a missing property. *)
Inductive found :=
| Data (v : value)
| TheObjectPrototype.

Definition look (h : heap) (l : loc) (k : string) : found :=
  match walk (S (size h)) h l k with
  | Found v => Data v
  | EndsAtObject | EndsAtArray =>
      if String.eqb k "__proto__" then
        match h !! l with
        | Some (OPlain _) => TheObjectPrototype
        | Some (ODerived (Some l') _) => Data (VRef l')
        | _ => Data VUndefined
        end
      else Data VUndefined
  | EndsAtNull => Data VUndefined
  end.

Definition truthy_found (f : found) : bool :=
  match f with Data v => truthy v | TheObjectPrototype => true end.

Definition isPlain_found (h : heap) (f : found) : bool :=
  match f with Data v => isPlain h v | TheObjectPrototype => true end.

Definition entries_found (h : heap) (f : found) : list (string * value) :=
  match f with Data v => own_entries h v | TheObjectPrototype => [] end.

(** The callback that [mergeOptions] hands to [each]: what it does with
    the property [kv] of a source.  A value that is no plain object is
    assigned to the result; a plain object is merged, by [merge], which is
    [mergeOptions] itself, into the plain object that the result has under
    the name, or else into a new one put there first. *)
Definition merge_property (merge : list found -> M heap loc) (result : loc)
    (kv : string * value) : M heap unit :=
  do h <- get_state;
  if negb (isPlain h (snd kv)) then set_field result (fst kv) (snd kv)
  else
    (if negb (isPlain_found h (look h result (fst kv))) then
       do empty <- alloc (OPlain ∅);
       set_field result (fst kv) (VRef empty)
     else ret tt) ;;
    do h <- get_state;
    do merged <- merge [look h result (fst kv); Data (snd kv)];
    set_field result (fst kv) (VRef merged).

(** One source: nothing for a falsy one, and else its own properties, one
    after the other. *)
Definition merge_source (merge : list found -> M heap loc) (result : loc)
    (source : found) : M heap unit :=
  if negb (truthy_found source) then ret tt
  else
    do h <- get_state;
    forEach (entries_found h source) (merge_property merge result).

(** [videojs.mergeOptions(...sources)] of video.js 7: a new plain object
    that takes the own properties of the sources, one source after the
    other.  [depth] is the room on the call stack; the recursion runs out of
    it on plain objects nested in themselves. *)
Fixpoint mergeOptions (depth : nat) (sources : list found) : M heap loc :=
  match depth with
  | O => throw (RangeError "Maximum call stack size exceeded")
  | S d =>
      do result <- alloc (OPlain ∅);
      forEach sources (merge_source (mergeOptions d) result) ;;
      ret result
  end.

Definition array_elems (h : heap) (v : value) : list value :=
  match v with
  | VRef l => match h !! l with Some (OArray elems) => elems | _ => [] end
  | _ => []
  end.

Definition read (base : value) (k : string) : M heap value :=
  do h <- get_state; lift_completion (get_prop h base k).

(** The body of the loop over the key systems. *)
Definition add_key_system (output : loc) (keySystem : value) : M heap unit :=
  do empty <- alloc (OPlain ∅);
  do opts <- read keySystem "options";
  do h <- get_state;
  do options <- mergeOptions (S (size h)) [Data (VRef empty); Data opts];
  do licenseUrl <- read (VRef options) "licenseUrl";
  (if truthy licenseUrl then
     set_field options "serverURL" licenseUrl ;;
     delete_field options "licenseUrl"
   else ret tt) ;;
  do name <- read keySystem "name";
  do h <- get_state;
  set_field output (to_string h name) (VRef options).

Definition buildDashJSProtData (keySystemOptions : value) : M heap value :=
  do output <- alloc (OPlain ∅);
  do h <- get_state;
  if negb (truthy keySystemOptions) || negb (isArray h keySystemOptions) then
    ret VNull
  else
    forEach (array_elems h keySystemOptions) (add_key_system output) ;;
    ret (VRef output).

(** Options that are data as JSON has it, apart from the arrays, which are
    taken as they are: [v] is no reference, or refers to an array or to an
    object literal.  An object literal that passes for plain has no property
    of its own called [__proto__], is none of its ancestors [anc], and holds
    data of the same kind, with it as a further ancestor: no plain object is
    nested in itself. *)
Inductive tame (h : heap) : gset loc -> value -> Prop :=
| tame_primitive anc v : (forall l, v <> VRef l) -> tame h anc v
| tame_array anc l elems : h !! l = Some (OArray elems) -> tame h anc (VRef l)
| tame_shared anc l fields :
    h !! l = Some (OPlain fields) -> is_Some (fields !! "constructor") ->
    tame h anc (VRef l)
| tame_plain anc l fields :
    l ∉ anc ->
    h !! l = Some (OPlain fields) -> fields !! "constructor" = None ->
    fields !! "__proto__" = None ->
    (forall k x, fields !! k = Some x -> tame h ({[l]} ∪ anc) x) ->
    tame h anc (VRef l).

(** [y] is the copy [mergeOptions] makes of the value [x] of the store [h],
    in the store [h']: [x] itself when [x] is no plain object, and otherwise
    a plain object at an address outside [avoid] that has the properties of
    [x], each one copied in the same way. *)
Inductive copy_avoiding (h : heap) (avoid : gset loc) (h' : heap)
  : value -> value -> Prop :=
| copy_shared x : isPlain h x = false -> copy_avoiding h avoid h' x x
| copy_plain l fields c copied :
    isPlain h (VRef l) = true ->
    h !! l = Some (OPlain fields) ->
    c ∉ avoid ->
    h' !! c = Some (OPlain copied) ->
    (forall k, fields !! k = None <-> copied !! k = None) ->
    (forall k x y, fields !! k = Some x -> copied !! k = Some y ->
                   copy_avoiding h avoid h' x y) ->
    copy_avoiding h avoid h' (VRef l) (VRef c).

(** [mergeOptions({}, x)] with room for [fuel] calls, whatever the store
    [s] beyond [base] and the new object [e]: it returns a new object, the
    copy of [x], and adds to the store only. *)
Definition copies_with (base : heap) (fuel : nat) (x : value) : Prop :=
  forall (s : heap) e, base ⊆ s -> s !! e = Some (OPlain ∅) ->
    exists c s', mergeOptions fuel [Data (VRef e); Data x] s = (Normal c, s') /\
                 s ⊆ s' /\ s !! c = None /\
                 copy_avoiding base (dom s) s' x (VRef c).

(** The properties [copied] are those of [original], each one copied. *)
Definition copied_fields (h : heap) (avoid : gset loc) (h' : heap)
    (original copied : gmap string value) : Prop :=
  (forall k, original !! k = None <-> copied !! k = None) /\
  (forall k x y, original !! k = Some x -> copied !! k = Some y ->
                 copy_avoiding h avoid h' x y).

(** [licenseUrl] renamed to [serverURL], which is done when [licenseUrl] is
    truthy. *)
Definition renamed (copied : gmap string value) : gmap string value :=
  let licenseUrl := default VUndefined (copied !! "licenseUrl") in
  if truthy licenseUrl
  then delete "licenseUrl" (<["serverURL" := licenseUrl]> copied)
  else copied.

(** The properties [mergeOptions({}, opts)] goes through: those of an
    object or an array, none for any other value. *)
Definition option_fields (h : heap) (opts : value) : gmap string value :=
  if truthy opts then list_to_map (own_entries h opts) else ∅.

(** [keySystem.options] and [keySystem.name] of an entry of the list, the
    name as the property name it is used as. *)
Definition options_of (h : heap) (keySystem : value) : value :=
  match get_prop h keySystem "options" with
  | Normal opts => opts
  | Throw _ => VUndefined
  end.

Definition name_of (h : heap) (keySystem : value) : string :=
  match get_prop h keySystem "name" with
  | Normal name => to_string h name
  | Throw _ => EmptyString
  end.

(** An entry of the list: its name and the properties of its options. *)
Definition key_system (h : heap) (keySystem : value) : string * gmap string value :=
  (name_of h keySystem, option_fields h (options_of h keySystem)).

(** An object of the store whose prototype is the one it was created
    with. *)
Definition literal (h : heap) (v : value) : Prop :=
  forall l, v = VRef l ->
    (exists fields, h !! l = Some (OPlain fields)) \/
    (exists elems, h !! l = Some (OArray elems)).

(** An entry that [buildDashJSProtData] can go through: any value but
    [null] and [undefined], an object being one of the store.  The name is
    no object, and the options are an object of the store or no object, with
    no property called [__proto__] and with tame data under the others. *)
Definition tame_entry (h : heap) (keySystem : value) : Prop :=
  keySystem <> VUndefined /\ keySystem <> VNull /\
  literal h keySystem /\
  (forall name l, get_prop h keySystem "name" = Normal name -> name <> VRef l) /\
  (forall l, options_of h keySystem = VRef l -> is_Some (h !! l)) /\
  option_fields h (options_of h keySystem) !! "__proto__" = None /\
  (forall k x, option_fields h (options_of h keySystem) !! k = Some x -> tame h ∅ x).

(** The options of the last entry called [name]. *)
Fixpoint last_named (name : string) (entries : list (string * gmap string value))
  : option (gmap string value) :=
  match entries with
  | [] => None
  | e :: rest =>
      match last_named name rest with
      | Some o => Some o
      | None => if String.eqb (fst e) name then Some (snd e) else None
      end
  end.

(** The object at [c] is the renamed copy of the options [original], and
    neither it nor the copies it holds are at an address of [avoid]: with
    the addresses of the store [h] for [avoid], they are new objects. *)
Definition renamed_copy (h : heap) (avoid : gset loc) (h' : heap)
    (original : gmap string value) (c : loc) : Prop :=
  (c ∉ avoid) /\
  exists copied, copied_fields h avoid h' original copied /\
                 h' !! c = Some (OPlain (renamed copied)).

(** What the returned object has under [name]: nothing when no entry is
    called so, and else the renamed copy of the options of the last one. *)
Definition bound_to (h : heap) (avoid : gset loc) (h' : heap) (m : gmap string value)
    (entries : list (string * gmap string value)) (name : string) : Prop :=
  match last_named name entries with
  | None => m !! name = None
  | Some original =>
      exists c, m !! name = Some (VRef c) /\ renamed_copy h avoid h' original c
  end.

(** The object that [buildDashJSProtData] builds: an object literal with the
    properties [m] or, once an entry called [__proto__] has been met, the
    same with the copy of the options of that entry for its prototype. *)
Definition output_object (proto : option loc) (m : gmap string value) : object :=
  match proto with
  | None => OPlain m
  | Some c => ODerived (Some c) m
  end.

(** The object that [buildDashJSProtData] returns for the entries
    [entries]: its own properties are the names of the entries, bound as
    [bound_to] says, with one exception.  An entry called [__proto__] gives
    no property: the assignment makes the copy of its options the prototype
    of the object. *)
Definition protection_data (h : heap) (avoid : gset loc) (h' : heap)
    (entries : list (string * gmap string value)) (out : loc) : Prop :=
  exists m,
    (forall name, name <> "__proto__" -> bound_to h avoid h' m entries name) /\
    m !! "__proto__" = None /\
    match last_named "__proto__" entries with
    | None => h' !! out = Some (OPlain m)
    | Some original =>
        exists c, h' !! out = Some (ODerived (Some c) m) /\
                  renamed_copy h avoid h' original c
    end.

(** [o] holds [x] under one of its properties or as one of its elements. *)
Definition holds (o : object) (x : value) : Prop :=
  match o with
  | OPlain fields | ODerived _ fields => exists k, fields !! k = Some x
  | OArray elems => In x elems
  end.


(** ** The playback session (Html5DashJS) *)

(** [window.VTTCue]: absent, the browser's own, or the vtt.js shim. *)
Inductive vttcue := NoVTTCue | NativeVTTCue | ShimVTTCue.

(** Everything the adapter touches besides its own fields: the object
    store, the statics of [Html5DashJS], the dash.js players created so far
    (a player is referred to by its position in [engines]; [blank] is what
    [dashjs.MediaPlayer().create()] hands out), the video.js player, the
    tech and the video.js log.  Of the video.js player the world has the
    names of its child components, oldest first, and the names under which
    [getChild] finds a child: the child added last under the name. *)
Record world := {
  store : heap;
  hooks_ : registry;
  updateSourceData : option callback;
  useVideoJSDebug : bool;
  beforeInitialize : bool;
  blank : media_player;
  engines : list media_player;
  player_dash : option (option nat);
  player_children : list string;
  player_named : gset string;
  player_triggered : list string;
  tech_isReady_ : bool;
  tech_triggerReady : nat;
  tech_featuresNativeTextTracks : bool;
  window_VTTCue : vttcue;
  log : list string
}.

Definition with_store (f : heap -> heap) (w : world) : world :=
  {| store := f (store w); hooks_ := hooks_ w; updateSourceData := updateSourceData w;
     useVideoJSDebug := useVideoJSDebug w; beforeInitialize := beforeInitialize w;
     blank := blank w; engines := engines w; player_dash := player_dash w;
     player_children := player_children w; player_named := player_named w;
     player_triggered := player_triggered w;
     tech_isReady_ := tech_isReady_ w; tech_triggerReady := tech_triggerReady w;
     tech_featuresNativeTextTracks := tech_featuresNativeTextTracks w;
     window_VTTCue := window_VTTCue w; log := log w |}.

Definition with_hooks_ (f : registry -> registry) (w : world) : world :=
  {| store := store w; hooks_ := f (hooks_ w); updateSourceData := updateSourceData w;
     useVideoJSDebug := useVideoJSDebug w; beforeInitialize := beforeInitialize w;
     blank := blank w; engines := engines w; player_dash := player_dash w;
     player_children := player_children w; player_named := player_named w;
     player_triggered := player_triggered w;
     tech_isReady_ := tech_isReady_ w; tech_triggerReady := tech_triggerReady w;
     tech_featuresNativeTextTracks := tech_featuresNativeTextTracks w;
     window_VTTCue := window_VTTCue w; log := log w |}.

Definition with_engines (f : list media_player -> list media_player) (w : world) : world :=
  {| store := store w; hooks_ := hooks_ w; updateSourceData := updateSourceData w;
     useVideoJSDebug := useVideoJSDebug w; beforeInitialize := beforeInitialize w;
     blank := blank w; engines := f (engines w); player_dash := player_dash w;
     player_children := player_children w; player_named := player_named w;
     player_triggered := player_triggered w;
     tech_isReady_ := tech_isReady_ w; tech_triggerReady := tech_triggerReady w;
     tech_featuresNativeTextTracks := tech_featuresNativeTextTracks w;
     window_VTTCue := window_VTTCue w; log := log w |}.

Definition with_player_dash (d : option (option nat)) (w : world) : world :=
  {| store := store w; hooks_ := hooks_ w; updateSourceData := updateSourceData w;
     useVideoJSDebug := useVideoJSDebug w; beforeInitialize := beforeInitialize w;
     blank := blank w; engines := engines w; player_dash := d;
     player_children := player_children w; player_named := player_named w;
     player_triggered := player_triggered w;
     tech_isReady_ := tech_isReady_ w; tech_triggerReady := tech_triggerReady w;
     tech_featuresNativeTextTracks := tech_featuresNativeTextTracks w;
     window_VTTCue := window_VTTCue w; log := log w |}.

Definition with_player_children (f : list string -> list string) (w : world) : world :=
  {| store := store w; hooks_ := hooks_ w; updateSourceData := updateSourceData w;
     useVideoJSDebug := useVideoJSDebug w; beforeInitialize := beforeInitialize w;
     blank := blank w; engines := engines w; player_dash := player_dash w;
     player_children := f (player_children w); player_named := player_named w;
     player_triggered := player_triggered w;
     tech_isReady_ := tech_isReady_ w; tech_triggerReady := tech_triggerReady w;
     tech_featuresNativeTextTracks := tech_featuresNativeTextTracks w;
     window_VTTCue := window_VTTCue w; log := log w |}.

Definition with_player_named (f : gset string -> gset string) (w : world) : world :=
  {| store := store w; hooks_ := hooks_ w; updateSourceData := updateSourceData w;
     useVideoJSDebug := useVideoJSDebug w; beforeInitialize := beforeInitialize w;
     blank := blank w; engines := engines w; player_dash := player_dash w;
     player_children := player_children w; player_named := f (player_named w);
     player_triggered := player_triggered w;
     tech_isReady_ := tech_isReady_ w; tech_triggerReady := tech_triggerReady w;
     tech_featuresNativeTextTracks := tech_featuresNativeTextTracks w;
     window_VTTCue := window_VTTCue w; log := log w |}.

Definition with_player_triggered (f : list string -> list string) (w : world) : world :=
  {| store := store w; hooks_ := hooks_ w; updateSourceData := updateSourceData w;
     useVideoJSDebug := useVideoJSDebug w; beforeInitialize := beforeInitialize w;
     blank := blank w; engines := engines w; player_dash := player_dash w;
     player_children := player_children w; player_named := player_named w;
     player_triggered := f (player_triggered w);
     tech_isReady_ := tech_isReady_ w; tech_triggerReady := tech_triggerReady w;
     tech_featuresNativeTextTracks := tech_featuresNativeTextTracks w;
     window_VTTCue := window_VTTCue w; log := log w |}.

Definition with_tech (ready : bool) (signals : nat) (w : world) : world :=
  {| store := store w; hooks_ := hooks_ w; updateSourceData := updateSourceData w;
     useVideoJSDebug := useVideoJSDebug w; beforeInitialize := beforeInitialize w;
     blank := blank w; engines := engines w; player_dash := player_dash w;
     player_children := player_children w; player_named := player_named w;
     player_triggered := player_triggered w;
     tech_isReady_ := ready; tech_triggerReady := signals;
     tech_featuresNativeTextTracks := tech_featuresNativeTextTracks w;
     window_VTTCue := window_VTTCue w; log := log w |}.

Definition with_window_VTTCue (c : vttcue) (w : world) : world :=
  {| store := store w; hooks_ := hooks_ w; updateSourceData := updateSourceData w;
     useVideoJSDebug := useVideoJSDebug w; beforeInitialize := beforeInitialize w;
     blank := blank w; engines := engines w; player_dash := player_dash w;
     player_children := player_children w; player_named := player_named w;
     player_triggered := player_triggered w;
     tech_isReady_ := tech_isReady_ w; tech_triggerReady := tech_triggerReady w;
     tech_featuresNativeTextTracks := tech_featuresNativeTextTracks w;
     window_VTTCue := c; log := log w |}.

Definition with_log (f : list string -> list string) (w : world) : world :=
  {| store := store w; hooks_ := hooks_ w; updateSourceData := updateSourceData w;
     useVideoJSDebug := useVideoJSDebug w; beforeInitialize := beforeInitialize w;
     blank := blank w; engines := engines w; player_dash := player_dash w;
     player_children := player_children w; player_named := player_named w;
     player_triggered := player_triggered w;
     tech_isReady_ := tech_isReady_ w; tech_triggerReady := tech_triggerReady w;
     tech_featuresNativeTextTracks := tech_featuresNativeTextTracks w;
     window_VTTCue := window_VTTCue w; log := f (log w) |}.

(** Code on the store or on the registry, run inside the world. *)
Definition on_store {A} (c : M heap A) : M world A :=
  fun w => let '(r, h) := c (store w) in (r, with_store (fun _ => h) w).

Definition on_hooks_ {A} (c : M registry A) : M world A :=
  fun w => let '(r, g) := c (hooks_ w) in (r, with_hooks_ (fun _ => g) w).

(** The array that [Html5DashJS.hooks(type).forEach(...)] goes through. *)
Definition hooks_forEach (type : string) : M world (list callback) :=
  do hs <- on_hooks_ (hooks type None);
  array_of "forEach" hs.

(** [videojs.log.warn(msg)] and [videojs.log.error(msg)] *)
Definition warn (msg : string) : M world unit :=
  modify (with_log (fun l => l ++ [msg])).

(** [dashjs.MediaPlayer().create()] *)
Definition create : M world nat :=
  do w <- get_state;
  modify (with_engines (fun l => l ++ [blank w])) ;;
  ret (length (engines w)).

Definition tell (mp : nat) (c : engine_call) : M world unit :=
  modify (with_engines (fun l => alter (call c) mp l)).

Definition hasOwnProperty (mp : nat) (name : string) : M world bool :=
  do w <- get_state;
  ret (match engines w !! mp with
       | Some e => existsb (String.eqb name) (own_properties e)
       | None => false
       end).

(** [player.addChild(name)]: the new component is the last child, and the
    one the player has under the name from now on. *)
Definition addChild (name : string) : M world unit :=
  modify (with_player_children (fun l => l ++ [name])) ;;
  modify (with_player_named (fun s => {[name]} ∪ s)).

(** The list without the first, and without the last, of its elements that
    are [x]. *)
Fixpoint remove_first (x : string) (l : list string) : list string :=
  match l with
  | [] => []
  | y :: rest => if String.eqb y x then rest else y :: remove_first x rest
  end.

Definition remove_last (x : string) (l : list string) : list string :=
  rev (remove_first x (rev l)).

(** [player.removeChild(name)]: the child the player has under the name is
    taken from the children, and the player has no child under the name
    after that, whatever children of that name are left.  Nothing happens
    when the player has no child under the name, or has it no longer among
    its children. *)
Definition removeChild (name : string) : M world unit :=
  do w <- get_state;
  if bool_decide (name ∈ player_named w) && existsb (String.eqb name) (player_children w)
  then
    modify (with_player_children (remove_last name)) ;;
    modify (with_player_named (fun s => s ∖ {[name]}))
  else ret tt.

(** The fields of the adapter object. *)
Record Html5DashJS := {
  hasFiniteDuration_ : bool;
  mediaPlayer_ : option nat;
  keySystemOptions_ : value;
  ttmlContainer_ : bool
}.

(** The [options] of the tech: the [dash] entry lists the dash.js options
    in the order [Object.keys] gives them. *)
Record tech_options := {
  dash : option (list (string * value))
}.

Definition to_upper (c : ascii) : ascii :=
  let n := nat_of_ascii c in
  if ((97 <=? n) && (n <=? 122))%nat then ascii_of_nat (n - 32) else c.

Definition to_lower (c : ascii) : ascii :=
  let n := nat_of_ascii c in
  if ((65 <=? n) && (n <=? 90))%nat then ascii_of_nat (n + 32) else c.

(** ['set' + key.charAt(0).toUpperCase() + key.slice(1)] *)
Definition setter_name (key : string) : string :=
  match key with
  | EmptyString => "set"
  | String c rest => "set" +:+ String (to_upper c) rest
  end.

Definition apply_dash_option (mp : nat) (kv : string * value) : M world unit :=
  let key := fst kv in
  if String.eqb key "useTTML" then ret tt
  else
    let dashOptionsKey := setter_name key in
    do prefixed <- hasOwnProperty mp dashOptionsKey;
    do key <-
      (if prefixed then
         warn ("Using dash options in videojs-contrib-dash without the set prefix " +:+
               "has been deprecated. Change '" +:+ key +:+ "' to '" +:+
               dashOptionsKey +:+ "'") ;;
         ret dashOptionsKey
       else ret key);
    do known <- hasOwnProperty mp key;
    if negb known then
      warn ("Warning: dash configuration option unrecognized: " +:+ key)
    else
      do w <- get_state;
      let arguments :=
        if isArray (store w) (snd kv) then array_elems (store w) (snd kv)
        else [snd kv] in
      tell mp (ApplyOption key arguments).

Definition useTTML (options : tech_options) : bool :=
  match dash options with
  | Some entries =>
      match array_find (fun kv => String.eqb (fst kv) "useTTML") entries with
      | Some kv => truthy (snd kv)
      | None => false
      end
  | None => false
  end.

Definition setupAudioTracks (mp : nat) : M world unit :=
  tell mp (On "PLAYBACK_METADATA_LOADED").

Definition setupTextTracks (mp : nat) : M world unit :=
  do w <- get_state;
  (match window_VTTCue w with
   | ShimVTTCue => modify (with_window_VTTCue NoVTTCue)
   | _ => ret tt
   end) ;;
  if tech_featuresNativeTextTracks w then
    warn ("You must pass {html: {nativeCaptions: false}} in the videojs constructor " +:+
          "to use text tracks in videojs-contrib-dash")
  else
    tell mp (On "TEXT_TRACKS_ADDED") ;;
    tell mp (On "CAN_PLAY").

Definition dquote : string := String (ascii_of_nat 34) EmptyString.

Definition deprecated (name instead : string) : string :=
  name +:+ " has been deprecated. Please switch to using hook(" +:+ dquote +:+
  instead +:+ dquote +:+ ", callback).".

(** The part of the constructor that settles the source: the deprecated
    [updateSourceData], then the [updatesource] hooks. *)
Definition updated_source (source : value) : M world value :=
  do w <- get_state;
  do source <-
    (match updateSourceData w with
     | Some f =>
         warn (deprecated "updateSourceData" "updatesource") ;;
         on_store (hook_fn f source)
     | None => ret source
     end);
  do hs <- hooks_forEach "updatesource";
  on_store (run_hooks hs source).

(** The rest of the constructor, from [var manifestSource = source.src]
    on. *)
Definition start_session (options : tech_options) (source : value)
  : M world Html5DashJS :=
  do w <- get_state;
  do manifestSource <- on_store (read source "src");
  do keySystemOptions <- on_store (read source "keySystemOptions");
  do protData <- on_store (buildDashJSProtData keySystemOptions);
  do mp <- create;
  modify (with_player_dash (Some (Some mp))) ;;
  (if useVideoJSDebug w then
     warn (deprecated "useVideoJSDebug" "beforeinitialize") ;;
     tell mp (Hooked "useVideoJSDebug" 0)
   else ret tt) ;;
  (if beforeInitialize w then
     warn (deprecated "beforeInitialize" "beforeinitialize") ;;
     tell mp (Hooked "beforeInitialize" 0)
   else ret tt) ;;
  do bs <- hooks_forEach "beforeinitialize";
  forEach bs (fun f => tell mp (Hooked "beforeinitialize" (hook_id f))) ;;
  tell mp Initialize ;;
  tell mp (On "ERROR") ;;
  tell mp (On "MANIFEST_LOADED") ;;
  (match dash options with
   | Some entries => forEach entries (apply_dash_option mp)
   | None => ret tt
   end) ;;
  tell mp AttachView ;;
  (if useTTML options then
     addChild "TTMLTextTrackDisplay" ;;
     tell mp (On "CAPTION_RENDERED") ;;
     tell mp AttachTTMLRenderingDiv
   else ret tt) ;;
  tell mp (SetAutoPlay false) ;;
  setupAudioTracks mp ;;
  setupTextTracks mp ;;
  tell mp (SetProtectionData protData) ;;
  tell mp (AttachSource manifestSource) ;;
  modify (fun w => with_tech true (S (tech_triggerReady w)) w) ;;
  ret {| hasFiniteDuration_ := false; mediaPlayer_ := Some mp;
         keySystemOptions_ := protData; ttmlContainer_ := useTTML options |}.

(** The constructor.  [options] is the third argument, [tech_options_] what
    [tech.options_] holds for when it is missing. *)
Definition new_Html5DashJS (source : value) (tech_options_ : tech_options)
    (options : option tech_options) : M world Html5DashJS :=
  let options := default tech_options_ options in
  do w <- get_state;
  modify (with_player_dash (Some (default None (player_dash w)))) ;;
  do src <- on_store (read source "src");
  if negb (truthy src) then
    ret {| hasFiniteDuration_ := false; mediaPlayer_ := None;
           keySystemOptions_ := VUndefined; ttmlContainer_ := false |}
  else
    modify (fun w => with_tech false (tech_triggerReady w) w) ;;
    do source <- updated_source source;
    start_session options source.

(** [dispose()].  The component of the overlay is disposed of first, which
    leaves the children of the player as they are. *)
Definition dispose (this : Html5DashJS) : M world unit :=
  (match mediaPlayer_ this with
   | Some mp =>
       tell mp (Off "ERROR") ;;
       tell mp (Off "MANIFEST_LOADED") ;;
       tell mp Reset
   | None => ret tt
   end) ;;
  do w <- get_state;
  (match player_dash w with
   | Some _ => modify (with_player_dash None)
   | None => ret tt
   end) ;;
  if ttmlContainer_ this then removeChild "TTMLTextTrackDisplay"
  else ret tt.

(** [this.mediaPlayer_.m()]: without a player the call throws. *)
Definition the_player (this : Html5DashJS) (method : string) : M world media_player :=
  do w <- get_state;
  match mediaPlayer_ this with
  | Some mp =>
      match engines w !! mp with
      | Some e => ret e
      | None => throw (TypeError ("Cannot read properties of undefined (reading '" +:+
                                  method +:+ "')"))
      end
  | None => throw (TypeError ("Cannot read properties of undefined (reading '" +:+
                              method +:+ "')"))
  end.

Definition duration (this : Html5DashJS) : M world jsnum :=
  do e <- the_player this "isDynamic";
  if isDynamic e && negb (hasFiniteDuration_ this) then ret "Infinity"
  else ret (engine_duration e).

(** The manifest a [MANIFEST_LOADED] event carries under [event.data]. *)
Module Period.
Record t := { duration : value }.
End Period.

Record manifest := {
  mediaPresentationDuration : value;
  Period_asArray : option (list Period.t)
}.

(** [periods[periods.length - 1].duration] *)
Definition last_period_duration (periods : option (list Period.t)) : completion value :=
  match periods with
  | None => Throw (TypeError "Cannot read properties of undefined (reading 'length')")
  | Some l =>
      match last l with
      | Some p => Normal (Period.duration p)
      | None => Throw (TypeError "Cannot read properties of undefined (reading 'duration')")
      end
  end.

Definition with_hasFiniteDuration_ (b : bool) (this : Html5DashJS) : Html5DashJS :=
  {| hasFiniteDuration_ := b; mediaPlayer_ := mediaPlayer_ this;
     keySystemOptions_ := keySystemOptions_ this; ttmlContainer_ := ttmlContainer_ this |}.

(** The listener of [MANIFEST_LOADED]; it returns the adapter with its flag
    as the event leaves it. *)
Definition getDuration_ (data : manifest) (this : Html5DashJS) : M world Html5DashJS :=
  let periods := Period_asArray data in
  let oldHasFiniteDuration := hasFiniteDuration_ this in
  do finite <-
    (if truthy (mediaPresentationDuration data) then ret true
     else do d <- lift_completion (last_period_duration periods); ret (truthy d));
  let this := with_hasFiniteDuration_ finite this in
  (if negb (Bool.eqb (hasFiniteDuration_ this) oldHasFiniteDuration) then
     modify (with_player_triggered (fun l => l ++ ["durationchange"]))
   else ret tt) ;;
  ret this.

(** The events of a session, one after the other.  A listener that throws
    leaves the adapter as it was and does not keep later events from being
    delivered. *)
Fixpoint deliver (events : list manifest) (this : Html5DashJS) (w : world)
  : Html5DashJS * world :=
  match events with
  | [] => (this, w)
  | data :: rest =>
      match getDuration_ data this w with
      | (Normal this', w') => deliver rest this' w'
      | (Throw _, w') => deliver rest this w'
      end
  end.

(** Whether a manifest states a duration, as the listener tests it: one of
    [mediaPresentationDuration] and the duration of the last period is
    truthy. *)
Definition states_duration (data : manifest) : bool :=
  truthy (mediaPresentationDuration data) ||
  match Period_asArray data with
  | Some l => match last l with Some p => truthy (Period.duration p) | None => false end
  | None => false
  end.

(** A manifest on which the listener does not throw: it names a total
    duration or has a last period to look at. *)
Definition readable (data : manifest) : Prop :=
  truthy (mediaPresentationDuration data) = true \/
  exists periods p, Period_asArray data = Some (periods ++ [p]).

(** How often a sequence of flags changes value, starting from [b]. *)
Fixpoint flips (b : bool) (l : list bool) : nat :=
  match l with
  | [] => O
  | x :: rest => ((if Bool.eqb x b then 0 else 1) + flips x rest)%nat
  end.

(** The hooks applied one after the other, each to what the one before it
    returned. *)
Definition in_order (fs : list callback) (source : value) : M heap value :=
  fold_left (fun acc f => do s <- acc; hook_fn f s) fs (ret source).

(** The registry after [Html5DashJS.hook('updatesource', f)] for every [f]
    of [fs], first to last. *)
Definition registered (fs : list callback) (r : registry) : registry :=
  fold_left (fun r f => snd (hook "updatesource" (Some (OneHook f)) r)) fs r.

(** The world when the constructor reaches the source hooks: [player.dash]
    exists and the tech is marked as not ready. *)
Definition at_hooks (w : world) : world :=
  with_tech false (tech_triggerReady w)
    (with_player_dash (Some (default None (player_dash w))) w).

(** ** The source handler (canHandleKeySystems, canHandleSource, canPlayType) *)

(** JSON text, parsed. *)
#[local] Unset Elimination Schemes.
Inductive json :=
| JNull
| JBool (b : bool)
| JNum (n : jsnum)
| JStr (s : string)
| JArr (items : list json)
| JObj (members : list (string * json)).
#[local] Set Elimination Schemes.

Definition is_finite (n : jsnum) : bool :=
  negb (String.eqb n "NaN" || String.eqb n "Infinity" || String.eqb n "-Infinity").

(** The first throw of a list of results, or all their values. *)
Fixpoint all_normal {A} (l : list (completion A)) : completion (list A) :=
  match l with
  | [] => Normal []
  | Throw e :: _ => Throw e
  | Normal a :: rest =>
      match all_normal rest with
      | Normal l' => Normal (a :: l')
      | Throw e => Throw e
      end
  end.

(** [JSON.stringify(v)]; [None] is the [undefined] it returns for a value
    without JSON text.  A property holding [undefined] is left out, an array
    element holding it becomes [null], and so does a number that is not
    finite.  A structure that contains itself throws: [depth] counts the
    objects that may be nested, and with more nesting than the store has
    objects one of them contains itself. *)
Fixpoint stringify (depth : nat) (h : heap) (v : value) : completion (option json) :=
  match v with
  | VUndefined => Normal None
  | VNull => Normal (Some JNull)
  | VBool b => Normal (Some (JBool b))
  | VNum n => Normal (Some (if is_finite n then JNum n else JNull))
  | VStr s => Normal (Some (JStr s))
  | VRef l =>
      match depth with
      | O => Throw (TypeError "Converting circular structure to JSON")
      | S d =>
          match h !! l with
          | Some (OPlain fields) | Some (ODerived _ fields) =>
              match all_normal
                      (map (fun kv =>
                              match stringify d h (snd kv) with
                              | Normal j => Normal (fst kv, j)
                              | Throw e => Throw e
                              end) (map_to_list fields)) with
              | Normal members =>
                  Normal (Some (JObj (omap (fun kj => match snd kj with
                                                      | Some j => Some (fst kj, j)
                                                      | None => None
                                                      end) members)))
              | Throw e => Throw e
              end
          | Some (OArray elems) =>
              match all_normal (map (stringify d h) elems) with
              | Normal items => Normal (Some (JArr (map (default JNull) items)))
              | Throw e => Throw e
              end
          | None => Normal None
          end
      end
  end.

(** [f] on every element, first to last. *)
Definition for_all {S A B} (f : A -> M S B) : list A -> M S (list B) :=
  fix go (l : list A) : M S (list B) :=
    match l with
    | [] => ret []
    | x :: rest => do y <- f x; do ys <- go rest; ret (y :: ys)
    end.

(** [JSON.parse(text)]: every object and array of the text is a new object
    of the store; of two members with one name the later one stays. *)
Fixpoint revive (j : json) : M heap value :=
  match j with
  | JNull => ret VNull
  | JBool b => ret (VBool b)
  | JNum n => ret (VNum n)
  | JStr s => ret (VStr s)
  | JArr items =>
      do elems <- for_all revive items;
      do l <- alloc (OArray elems);
      ret (VRef l)
  | JObj members =>
      do fields <- for_all (fun m => do v <- revive (snd m); ret (fst m, v)) members;
      do l <- alloc (OPlain (list_to_map (rev fields)));
      ret (VRef l)
  end.

(** [JSON.parse(JSON.stringify(source))] *)
Definition json_copy (source : value) : M heap value :=
  do h <- get_state;
  match stringify (S (size h)) h source with
  | Throw e => throw e
  | Normal None => throw (SyntaxError "undefined is not valid JSON")
  | Normal (Some j) => revive j
  end.

(** What the browser offers for encrypted media:
    [window.navigator.requestMediaKeySystemAccess] and, on a video element,
    [msSetMediaKeys]. *)
Record runtime := {
  requestMediaKeySystemAccess : bool;
  msSetMediaKeys : bool
}.

Definition canHandleKeySystems (env : runtime) (source : value) : M world bool :=
  do source <- on_store (json_copy source);
  do source <- updated_source source;
  do keySystemOptions <- on_store (read source "keySystemOptions");
  if truthy keySystemOptions
     && negb (requestMediaKeySystemAccess env || msSetMediaKeys env)
  then ret false
  else ret true.

Definition lower (s : string) : string :=
  string_of_list_ascii (map to_lower (list_ascii_of_string s)).

(** [/^application\/dash\+xml/i.test(type)] *)
Definition dashTypeRE_test (h : heap) (type : value) : bool :=
  starts_with "application/dash+xml" (lower (to_string h type)).

(** [/\.mpd/i.test(src)] *)
Definition dashExtRE_test (h : heap) (src : value) : bool :=
  contains ".mpd" (lower (to_string h src)).

Definition canPlayType (h : heap) (type : value) : string :=
  if dashTypeRE_test h type then "probably" else EmptyString.

Definition canHandleSource (env : runtime) (source : value) : M world string :=
  do handles <- canHandleKeySystems env source;
  if negb handles then ret EmptyString
  else
    do type <- on_store (read source "type");
    do h <- on_store get_state;
    if negb (String.eqb (canPlayType h type) EmptyString) then ret "probably"
    else
      do src <- on_store (read source "src");
      do h <- on_store get_state;
      if dashExtRE_test h src then ret "maybe"
      else ret EmptyString.

(** The objects a value leads to: the one it refers to and those that
    object leads to through what it holds and through its prototype. *)
Inductive reachable (h : heap) : value -> loc -> Prop :=
| reach_here l : reachable h (VRef l) l
| reach_inside l o x l' :
    h !! l = Some o -> holds o x -> reachable h x l' -> reachable h (VRef l) l'
| reach_proto l proto fields l' :
    h !! l = Some (ODerived (Some proto) fields) ->
    reachable h (VRef proto) l' -> reachable h (VRef l) l'.

(** A hook that works on its argument only: it leaves alone every object
    that its argument does not lead to, and what it returns leads to nothing
    but what its argument led to and objects it has created. *)
Definition confined (f : value -> M heap value) : Prop :=
  forall v (h : heap) r h',
    f v h = (r, h') ->
    (forall l o, h !! l = Some o -> ~ reachable h v l -> h' !! l = Some o) /\
    (forall v' l, r = Normal v' -> reachable h' v' l ->
                  reachable h v l \/ h !! l = None).

(** [v] is apart from the objects of [base]: it leads to none of them. *)
Definition apart (base h : heap) (v : value) : Prop :=
  base ⊆ h /\ forall l, reachable h v l -> base !! l = None.

(** What a revived value leads to is new and in the store. *)
Definition fresh_in (h h' : heap) (v : value) : Prop :=
  forall l, reachable h' v l -> h !! l = None /\ is_Some (h' !! l).

(** Induction over JSON text, with the hypothesis for every item of an
    array and every member of an object. *)
Section json_induction.
Variable P : json -> Prop.
Hypothesis Pnull : P JNull.
Hypothesis Pbool : forall b, P (JBool b).
Hypothesis Pnum : forall n, P (JNum n).
Hypothesis Pstr : forall s, P (JStr s).
Hypothesis Parr : forall items, Forall P items -> P (JArr items).
Hypothesis Pobj : forall members, Forall (fun m => P (snd m)) members -> P (JObj members).

Fixpoint json_nested_ind (j : json) : P j :=
  match j with
  | JNull => Pnull
  | JBool b => Pbool b
  | JNum n => Pnum n
  | JStr s => Pstr s
  | JArr items =>
      Parr items
        ((fix all (l : list json) : Forall P l :=
            match l with
            | [] => List.Forall_nil P
            | x :: rest => @List.Forall_cons _ P x rest (json_nested_ind x) (all rest)
            end) items)
  | JObj members =>
      Pobj members
        ((fix all (l : list (string * json)) : Forall (fun m => P (snd m)) l :=
            match l with
            | [] => List.Forall_nil _
            | x :: rest => @List.Forall_cons _ _ x rest (json_nested_ind (snd x)) (all rest)
            end) members)
  end.
End json_induction.

(** ** Arithmetic on numbers (parseFloat, multiplication, Number::toString) *)

(** A number as the engine has it: a binary64 float. *)
Abbreviation binary64 := SpecFloat.spec_float.

(** The float nearest to [digits * 10^exp10], ties to the even one, for
    [0 <= digits]; [neg] is its sign.  A value of more than 400 decimal
    digits is infinite, and one with 400 zeros behind the point is zero. *)
Definition of_decimal (neg : bool) (digits exp10 : Z) : binary64 :=
  if digits =? 0 then SpecFloat.S754_zero neg
  else if 400 <? exp10 then SpecFloat.S754_infinity neg
  else if exp10 + Z.log2 digits + 1 <? -400 then SpecFloat.S754_zero neg
  else if 0 <=? exp10 then
    SpecFloat.binary_round_aux 53 1024 neg (digits * 10 ^ exp10) 0 SpecFloat.loc_Exact
  else
    let d := 10 ^ (- exp10) in
    let s := Z.max 0 (Z.log2 d - Z.log2 digits + 64) in
    let q := (digits * 2 ^ s) / d in
    let r := (digits * 2 ^ s) mod d in
    SpecFloat.binary_round_aux 53 1024 neg q (- s)
      (if r =? 0 then SpecFloat.loc_Exact else SpecFloat.loc_Inexact (2 * r ?= d)).

Definition decimal_digit (c : ascii) : option Z :=
  let n := Z.of_nat (nat_of_ascii c) in
  if (48 <=? n) && (n <=? 57) then Some (n - 48) else None.

(** The longest prefix of decimal digits, read behind the digits that made
    [acc]: its value, the number of its digits, and what follows it. *)
Fixpoint decimal_prefix (acc count : Z) (s : string) : Z * Z * string :=
  match s with
  | String c s' =>
      match decimal_digit c with
      | Some d => decimal_prefix (10 * acc + d) (count + 1) s'
      | None => (acc, count, s)
      end
  | EmptyString => (acc, count, s)
  end.

(** The value of an [ExponentPart] at the head of [s]: [e] or [E], an
    optional sign and at least one digit; [0] without one. *)
Definition exponent_part (s : string) : Z :=
  match s with
  | String c s' =>
      if Ascii.eqb c "e" || Ascii.eqb c "E" then
        let '(sign, s'') :=
          match s' with
          | String "-" r => (-1, r)
          | String "+" r => (1, r)
          | _ => (1, s')
          end in
        let '(e, count, _) := decimal_prefix 0 0 s'' in
        if 0 <? count then sign * e else 0
      else 0
  | EmptyString => 0
  end.

(** The number of the longest prefix of [s] that is a
    [StrUnsignedDecimalLiteral]: [Infinity], or digits with an optional
    fraction and an optional exponent, or a fraction that begins with the
    point; [NaN] when no prefix is one. *)
Definition unsigned_literal (neg : bool) (s : string) : binary64 :=
  if starts_with "Infinity" s then SpecFloat.S754_infinity neg
  else
    let '(i, ni, rest) := decimal_prefix 0 0 s in
    match rest with
    | String "." rest' =>
        let '(m, nf, rest'') := decimal_prefix i 0 rest' in
        if ni + nf =? 0 then SpecFloat.S754_nan
        else of_decimal neg m (exponent_part rest'' - nf)
    | _ =>
        if ni =? 0 then SpecFloat.S754_nan
        else of_decimal neg i (exponent_part rest)
    end.

(** [parseFloat(s)] *)
Definition parseFloat (s : string) : binary64 :=
  match skip_white_space s with
  | String "-" s' => unsigned_literal true s'
  | String "+" s' => unsigned_literal false s'
  | s' => unsigned_literal false s'
  end.

(** The number that a rendering stands for. *)
Definition number_of (n : jsnum) : binary64 := parseFloat n.

(** [x * y] *)
Definition multiply (x y : binary64) : binary64 := SpecFloat.SFmul 53 1024 x y.

(** [num / den < 10^n], for positive [num] and [den]. *)
Definition below_power (num den n : Z) : bool :=
  if 0 <=? n then num <? den * 10 ^ n else num * 10 ^ (- n) <? den.

(** The least [n] with [num / den < 10^n], for a float [num / den]. *)
Definition decimal_point (num den : Z) : Z :=
  default 0 (List.find (below_power num den)
                       (map (fun i => Z.of_nat i - 330) (seq 0 660))).

(** The integer [s] nearest to [num / den * 10^(k - n)] among those for
    which [s * 10^(n - k)] is the float [x], the even one of two that are as
    near; [None] when there is none. *)
Definition nearest_digits (x : binary64) (num den n k : Z) : option Z :=
  let '(p, q) := if 0 <=? k - n then (num * 10 ^ (k - n), den)
                 else (num, den * 10 ^ (n - k)) in
  let lo := p / q in
  let r := p mod q in
  let hi := lo + 1 in
  let is_x s := SpecFloat.SFeqb x (of_decimal false s (n - k)) in
  match is_x lo, is_x hi with
  | true, true =>
      match 2 * r ?= q with
      | Lt => Some lo
      | Gt => Some hi
      | Eq => Some (if Z.even lo then lo else hi)
      end
  | true, false => Some lo
  | false, true => Some hi
  | false, false => None
  end.

(** The first [k] of [ks] that has such an integer, and the integer. *)
Fixpoint shortest_digits (x : binary64) (num den n : Z) (ks : list Z) : option (Z * Z) :=
  match ks with
  | [] => None
  | k :: rest =>
      match nearest_digits x num den n k with
      | Some s => Some (k, s)
      | None => shortest_digits x num den n rest
      end
  end.

Fixpoint strip_zeros (rev_digits : list ascii) : list ascii :=
  match rev_digits with
  | "0"%char :: rest => strip_zeros rest
  | _ => rev_digits
  end.

(** [digits] without the zeros at its end. *)
Definition without_trailing_zeros (digits : string) : string :=
  string_of_list_ascii (rev (strip_zeros (rev (list_ascii_of_string digits)))).

Definition zeros (n : Z) : string :=
  string_of_list_ascii (repeat "0"%char (Z.to_nat n)).

(** The rendering of the positive number [0.d1d2...dk * 10^n], for the
    digits [d1 ... dk]. *)
Definition render (digits : string) (n : Z) : string :=
  let k := Z.of_nat (String.length digits) in
  if (k <=? n) && (n <=? 21) then digits +:+ zeros (n - k)
  else if (0 <? n) && (n <=? 21) then
    String.substring 0 (Z.to_nat n) digits +:+ "." +:+
    String.substring (Z.to_nat n) (Z.to_nat (k - n)) digits
  else if (-6 <? n) && (n <=? 0) then "0." +:+ zeros (- n) +:+ digits
  else
    let exponent := (if 0 <=? n - 1 then "+" else "-") +:+ pretty (Z.abs (n - 1)) in
    match digits with
    | String c EmptyString => digits +:+ "e" +:+ exponent
    | String c rest => String c ("." +:+ rest) +:+ "e" +:+ exponent
    | EmptyString => digits
    end.

(** [Number::toString(x)]: the fewest digits that give [x] back. *)
Definition Number_toString (x : binary64) : jsnum :=
  match x with
  | SpecFloat.S754_nan => "NaN"
  | SpecFloat.S754_zero _ => "0"
  | SpecFloat.S754_infinity neg => if neg then "-Infinity" else "Infinity"
  | SpecFloat.S754_finite neg m e =>
      let '(num, den) := if 0 <=? e then (Z.pos m * 2 ^ e, 1) else (Z.pos m, 2 ^ (- e)) in
      let n := decimal_point num den in
      match shortest_digits (SpecFloat.S754_finite false m e) num den n
              (map Z.of_nat (seq 1 17)) with
      | Some (k, s) =>
          (if neg then "-" else EmptyString) +:+
          render (without_trailing_zeros (pretty s))
                 (n - k + Z.of_nat (String.length (pretty s)))
      | None => "NaN"
      end
  end.

(** [parseFloat(size) * factor], rendered. *)
Definition times (size : string) (factor : jsnum) : jsnum :=
  Number_toString (multiply (parseFloat size) (number_of factor)).

(** ** The caption style overlay (TTMLTextTrackDisplay) *)

(** An element of the caption tree that dash.js renders. *)
#[local] Unset Elimination Schemes.
Inductive element :=
| Element (eid : nat) (tagName : string) (children : list element).
#[local] Set Elimination Schemes.

Definition eid_of (el : element) : nat := match el with Element n _ _ => n end.
Definition tag_of (el : element) : string := match el with Element _ t _ => t end.

(** The inline styles of the elements and the assignments that took effect,
    oldest first.  [null] is kept as the empty string. *)
Record page := {
  styles : gmap (nat * string) string;
  applied : list (nat * string * string)
}.

(** The browser: which assignments [el.style[style] = rule] it throws
    on. *)
Record css_runtime := {
  rejects : nat -> string -> string -> bool
}.

(** [el.style[style] = rule] *)
Definition assign (rt : css_runtime) (el : nat) (style rule : string) : M page unit :=
  fun d =>
    if rejects rt el style rule then (Throw (Error "Invalid argument."), d)
    else (Normal tt, {| styles := <[(el, style) := rule]> (styles d);
                        applied := applied d ++ [(el, style, rule)] |}).

(** [try { el.style[style] = rule; } catch (e) { return; }] *)
Definition tryUpdateStyle (rt : css_runtime) (el : nat) (style rule : string)
  : M page unit :=
  fun d =>
    match assign rt el style rule d with
    | (Throw _, d') => (Normal tt, d')
    | done => done
    end.

(** [el.style[style]] *)
Definition style_of (el : nat) (style : string) : M page string :=
  fun d => (Normal (default EmptyString (styles d !! (el, style))), d).

Fixpoint removeStyle (rt : css_runtime) (el : element) : M page unit :=
  match el with
  | Element n _ children =>
      assign rt n "left" EmptyString ;;
      assign rt n "width" "100%" ;;
      (fix each (l : list element) : M page unit :=
         match l with
         | [] => ret tt
         | c :: rest => removeStyle rt c ;; each rest
         end) children
  end.

(** [el.getElementsByTagName('span')]: the spans below [el] in document
    order, each with its [parentNode]. *)
Fixpoint spans_below (el : element) : list (nat * nat) :=
  match el with
  | Element n _ children =>
      flat_map (fun c =>
                  (if String.eqb (lower (tag_of c)) "span" then [(eid_of c, n)] else [])
                  ++ spans_below c) children
  end.

(** What [textTrackSettings.getValues()] returns; an entry the user has not
    set is missing. *)
Record overrides := {
  color : option string;
  textOpacity : option jsnum;
  backgroundColor : option string;
  backgroundOpacity : option jsnum;
  windowColor : option string;
  windowOpacity : option jsnum;
  edgeStyle : option string;
  fontPercent : option jsnum;
  fontFamily : option string
}.

Definition set_string (o : option string) : bool :=
  match o with Some s => negb (String.eqb s EmptyString) | None => false end.

Definition set_number (o : option jsnum) : bool :=
  match o with Some n => truthy (VNum n) | None => false end.

Definition darkGray : string := "#222".
Definition lightGray : string := "#ccc".

Definition fontMap : list (string * string) :=
  [("monospace", "monospace");
   ("sansSerif", "sans-serif");
   ("serif", "serif");
   ("monospaceSansSerif", dquote +:+ "Andale Mono" +:+ dquote +:+ ", " +:+ dquote +:+
                          "Lucida Console" +:+ dquote +:+ ", monospace");
   ("monospaceSerif", dquote +:+ "Courier New" +:+ dquote +:+ ", monospace");
   ("proportionalSansSerif", "sans-serif");
   ("proportionalSerif", "serif");
   ("casual", dquote +:+ "Comic Sans MS" +:+ dquote +:+ ", Impact, fantasy");
   ("script", dquote +:+ "Monotype Corsiva" +:+ dquote +:+ ", cursive");
   ("smallcaps", dquote +:+ "Andale Mono" +:+ dquote +:+ ", " +:+ dquote +:+
                 "Lucida Console" +:+ dquote +:+ ", monospace, sans-serif")].

Definition fontMap_lookup (k : string) : string :=
  match array_find (fun kv => String.eqb (fst kv) k) fontMap with
  | Some kv => snd kv
  | None => "undefined"
  end.

Definition textShadow_for (edge : string) : option string :=
  if String.eqb edge "dropshadow" then
    Some ("2px 2px 3px " +:+ darkGray +:+ ", 2px 2px 4px " +:+ darkGray +:+
          ", 2px 2px 5px " +:+ darkGray)
  else if String.eqb edge "raised" then
    Some ("1px 1px " +:+ darkGray +:+ ", 2px 2px " +:+ darkGray +:+ ", 3px 3px " +:+ darkGray)
  else if String.eqb edge "depressed" then
    Some ("1px 1px " +:+ lightGray +:+ ", 0 1px " +:+ lightGray +:+ ", -1px -1px " +:+
          darkGray +:+ ", 0 -1px " +:+ darkGray)
  else if String.eqb edge "uniform" then
    Some ("0 0 4px " +:+ darkGray +:+ ", 0 0 4px " +:+ darkGray +:+ ", 0 0 4px " +:+
          darkGray +:+ ", 0 0 4px " +:+ darkGray)
  else None.

Definition when {S} (b : bool) (c : M S unit) : M S unit := if b then c else ret tt.

(** The body of the loop over the spans; [span] is the span and [parentNode]
    its parent. *)
Definition style_span (rt : css_runtime) (o : overrides) (span parentNode : nat)
  : M page unit :=
  assign rt parentNode "textAlign" "center" ;;
  when (set_string (color o))
    (assign rt span "color" (default EmptyString (color o))) ;;
  when (set_number (textOpacity o))
    (do rule <- lift_completion
                  (constructColor (if set_string (color o)
                                   then default EmptyString (color o) else "#fff")
                                  (default EmptyString (textOpacity o)));
     tryUpdateStyle rt span "color" rule) ;;
  when (set_string (backgroundColor o))
    (assign rt span "backgroundColor" (default EmptyString (backgroundColor o))) ;;
  when (set_number (backgroundOpacity o))
    (do rule <- lift_completion
                  (constructColor (if set_string (backgroundColor o)
                                   then default EmptyString (backgroundColor o) else "#000")
                                  (default EmptyString (backgroundOpacity o)));
     tryUpdateStyle rt span "backgroundColor" rule) ;;
  when (set_string (windowColor o))
    (if set_number (windowOpacity o) then
       do rule <- lift_completion
                    (constructColor (default EmptyString (windowColor o))
                                    (default EmptyString (windowOpacity o)));
       tryUpdateStyle rt parentNode "backgroundColor" rule
     else
       (* [span.parent] is not a property of an element *)
       throw (TypeError "Cannot read properties of undefined (reading 'style')")) ;;
  when (set_string (edgeStyle o))
    (match textShadow_for (default EmptyString (edgeStyle o)) with
     | Some shadow => assign rt span "textShadow" shadow
     | None => ret tt
     end) ;;
  when (set_number (fontPercent o)
        && negb (String.eqb (default EmptyString (fontPercent o)) "1"))
    (do fontSize <- style_of span "fontSize";
     assign rt span "fontSize"
            (times fontSize (default EmptyString (fontPercent o)) +:+ "px") ;;
     assign rt span "height" "auto" ;;
     assign rt span "top" "auto" ;;
     assign rt span "bottom" "2px") ;;
  when (set_string (fontFamily o)
        && negb (String.eqb (default EmptyString (fontFamily o)) "default"))
    (if String.eqb (default EmptyString (fontFamily o)) "small-caps" then
       assign rt span "fontVariant" "small-caps"
     else
       assign rt span "fontFamily" (fontMap_lookup (default EmptyString (fontFamily o)))).

(** The player as the overlay sees it: the caption settings, if the player
    has them, and the first child of the overlay's own element ([None] when
    the player has no such child component, [Some None] when the element is
    empty). *)
Record caption_player := {
  textTrackSettings : option overrides;
  display_firstChild : option (option element)
}.

(** [updateStyle({captionDiv})] *)
Definition updateStyle (rt : css_runtime) (player_ : caption_player)
    (captionDiv : option element) : M page unit :=
  match textTrackSettings player_ with
  | None => ret tt
  | Some o =>
      do captionDiv <-
        (match captionDiv with
         | Some el => ret (Some el)
         | None =>
             match display_firstChild player_ with
             | Some first => ret first
             | None => throw (TypeError "Cannot read properties of undefined (reading 'el')")
             end
         end);
      match captionDiv with
      | None => ret tt
      | Some el =>
          removeStyle rt el ;;
          forEach (spans_below el) (fun sp => style_span rt o (fst sp) (snd sp))
      end
  end.

(** A browser that throws on no assignment. *)
Definition permissive (rt : css_runtime) : css_runtime :=
  {| rejects := fun _ _ _ => false |}.

(** An assignment of an [rgba(...)] colour, the only kind that goes through
    [tryUpdateStyle]. *)
Definition rgba_write (style rule : string) : bool :=
  (String.eqb style "color" || String.eqb style "backgroundColor")
  && starts_with "rgba(" rule.

Definition plain_colour (c : option string) : bool :=
  negb (starts_with "rgba(" (default EmptyString c)).

(** The assignments of [l] that [rt] lets through. *)
Definition let_through (rt : css_runtime) (l : list (nat * string * string))
  : list (nat * string * string) :=
  List.filter (fun w => negb (rejects rt (fst (fst w)) (snd (fst w)) (snd w))) l.

Definition colour_style (style : string) : bool :=
  String.eqb style "color" || String.eqb style "backgroundColor".

(** A page under the browser [rt] against the same page under the
    permissive browser, both started from a page with the assignments
    [base]: the first has taken the assignments of the second that [rt]
    lets through, and the two agree on every style but the colours. *)
Definition related (rt : css_runtime) (base : list (nat * string * string))
    (dR dP : page) : Prop :=
  (exists l, applied dP = base ++ l /\ applied dR = base ++ let_through rt l) /\
  forall e p, colour_style p = false -> styles dR !! (e, p) = styles dP !! (e, p).

(** Two programs that end alike and keep the pages related. *)
Definition alike {A} (rt : css_runtime) (base : list (nat * string * string))
    (cR cP : M page A) : Prop :=
  forall dR dP, related rt base dR dP ->
    fst (cR dR) = fst (cP dP) /\ related rt base (snd (cR dR)) (snd (cP dP)).

(** Induction over the caption tree, with the hypothesis for every child. *)
Section element_induction.
Variable P : element -> Prop.
Hypothesis Pel : forall n t children, Forall P children -> P (Element n t children).

Fixpoint element_nested_ind (el : element) : P el :=
  match el with
  | Element n t children =>
      Pel n t children
        ((fix all (l : list element) : Forall P l :=
            match l with
            | [] => List.Forall_nil P
            | x :: rest => @List.Forall_cons _ P x rest (element_nested_ind x) (all rest)
            end) children)
  end.
End element_induction.


(** ** Notions used to state the properties of the adapter *)

(** An error event without the payload its kind is read with: a manifest
    error with nothing under [event.event], a media source error with
    anything but a string there. *)
Definition malformed (ev : dash_error) : bool :=
  String.eqb (error ev) "manifestError"
  && match event ev with DUndefined => true | _ => false end
  || String.eqb (error ev) "mediasource"
     && match event ev with DText _ => false | _ => true end.

(** [s.toUpperCase()] for the letters the type pattern is written with. *)
Definition upper (s : string) : string :=
  string_of_list_ascii (map to_upper (list_ascii_of_string s)).

(** The elements of a caption tree, the root first and then the children
    in document order. *)
Fixpoint subtree (el : element) : list nat :=
  match el with
  | Element n _ children => n :: flat_map subtree children
  end.

(** What [removeStyle] leaves under [el.style[p]] for the elements [ids]. *)
Definition after_reset (ids : list nat) (d : page) (n : nat) (p : string)
  : option string :=
  if existsb (Nat.eqb n) ids && String.eqb p "left" then Some EmptyString
  else if existsb (Nat.eqb n) ids && String.eqb p "width" then Some "100%"
  else styles d !! (n, p).

(** A program that throws from every state. *)
Definition fails {S A} (c : M S A) : Prop :=
  forall s, exists e s', c s = (Throw e, s').

(** A program that returns from every state. *)
Definition succeeds {S A} (c : M S A) : Prop :=
  forall s, exists a s', c s = (Normal a, s').

(** A program on the page that assigns to styles of the elements [ids]
    only, whatever its outcome. *)
Definition writes_within {A} (ids : list nat) (c : M page A) : Prop :=
  forall d r d', c d = (r, d') ->
    (exists l, applied d' = applied d ++ l /\
               Forall (fun a => In (fst (fst a)) ids) l) /\
    forall n p, ~ In n ids -> styles d' !! (n, p) = styles d !! (n, p).

(** A colour that [constructColor] takes: [#rgb] or [#rrggbb] by length. *)
Definition colour_ok (c : string) : bool :=
  (String.length c =? 4)%nat || (String.length c =? 7)%nat.

(** Settings that [updateStyle] can apply to a span: every colour that is
    combined with an opacity has a length [constructColor] takes, and a
    window colour comes with a window opacity. *)
Definition styleable (o : overrides) : bool :=
  (negb (set_number (textOpacity o)) || negb (set_string (color o))
   || colour_ok (default EmptyString (color o)))
  && (negb (set_number (backgroundOpacity o)) || negb (set_string (backgroundColor o))
      || colour_ok (default EmptyString (backgroundColor o)))
  && (negb (set_string (windowColor o))
      || set_number (windowOpacity o) && colour_ok (default EmptyString (windowColor o))).

(** The outcome of a program that returns: from a state in [P], a result
    and a state in [Q]. *)
Definition triple {S A} (P : S -> Prop) (c : M S A) (Q : A -> S -> Prop) : Prop :=
  forall s a s', P s -> c s = (Normal a, s') -> Q a s'.

(** Two worlds that differ in nothing but the video.js log. *)
Definition unlogged (w : world) : world := with_log (fun _ => []) w.

Definition agree (w G : world) : Prop := unlogged w = unlogged G.

(** The calls [cs] made on a dash.js player, one after the other. *)
Definition push (cs : list engine_call) (e : media_player) : media_player :=
  fold_left (fun e c => call c e) cs e.

(** The world [G] after the calls [cs] on its player [mp], up to the log. *)
Definition told (G : world) (mp : nat) (cs : list engine_call) (w : world) : Prop :=
  agree w (with_engines (fun l => alter (push cs) mp l) G).

(** The calls the constructor makes on the player it creates, in the world
    [w]: [opts] stands for the calls that apply the dash.js options,
    [protData] and [manifestSource] are what it hands to [setProtectionData]
    and [attachSource]. *)
Definition session_calls (w : world) (options : tech_options)
    (opts : list engine_call) (protData manifestSource : value) : list engine_call :=
  (if useVideoJSDebug w then [Hooked "useVideoJSDebug" 0] else [])
  ++ (if beforeInitialize w then [Hooked "beforeInitialize" 0] else [])
  ++ map (fun f => Hooked "beforeinitialize" (hook_id f))
         (default [] (hooks_ w !! "beforeinitialize"))
  ++ [Initialize; On "ERROR"; On "MANIFEST_LOADED"]
  ++ opts
  ++ [AttachView]
  ++ (if useTTML options then [On "CAPTION_RENDERED"; AttachTTMLRenderingDiv] else [])
  ++ [SetAutoPlay false; On "PLAYBACK_METADATA_LOADED"]
  ++ (if tech_featuresNativeTextTracks w then []
      else [On "TEXT_TRACKS_ADDED"; On "CAN_PLAY"])
  ++ [SetProtectionData protData; AttachSource manifestSource].


(** The call, if any, that the constructor makes on a player with the
    members of [e] for the entry [kv] of the dash.js options, in the store
    [h]: none for [useTTML]; the setter with the [set] prefix if the player
    has it of its own, else the member of the very name of the entry, if the
    player has that; the arguments are the elements of an array and any other
    value by itself. *)
Definition option_call (e : media_player) (h : heap) (kv : string * value)
  : option engine_call :=
  if String.eqb (fst kv) "useTTML" then None
  else
    let key := if existsb (String.eqb (setter_name (fst kv))) (own_properties e)
               then setter_name (fst kv) else fst kv in
    if existsb (String.eqb key) (own_properties e)
    then Some (ApplyOption key (if isArray h (snd kv) then array_elems h (snd kv)
                                else [snd kv]))
    else None.

(** The calls for the dash.js options, in the order of the entries. *)
Definition option_calls (e : media_player) (h : heap) (options : tech_options)
  : list engine_call :=
  omap (option_call e h) (default [] (dash options)).

(** What the constructor leaves of the world [G] when it returns the
    adapter [this], having started a session on [manifestSource] with the
    option calls [opts] and the store [h']. *)
Definition session_started (G : world) (options : tech_options) (this : Html5DashJS)
    (opts : list engine_call) (manifestSource : value) (h' : heap) (w : world) : Prop :=
  this = {| hasFiniteDuration_ := false; mediaPlayer_ := Some (length (engines G));
            keySystemOptions_ := keySystemOptions_ this;
            ttmlContainer_ := useTTML options |} /\
  opts = option_calls (blank G) h' options /\
  engines w
  = engines G ++
    [push (session_calls G options opts (keySystemOptions_ this) manifestSource) (blank G)] /\
  store w = h' /\
  player_dash w = Some (Some (length (engines G))) /\
  player_children w
  = player_children G ++ (if useTTML options then ["TTMLTextTrackDisplay"] else []) /\
  player_named w
  = (if useTTML options then {["TTMLTextTrackDisplay"]} ∪ player_named G
     else player_named G) /\
  window_VTTCue w = match window_VTTCue G with ShimVTTCue => NoVTTCue | c => c end /\
  tech_isReady_ w = true /\
  tech_triggerReady w = S (tech_triggerReady G) /\
  (forall type, default [] (hooks_ w !! type) = default [] (hooks_ G !! type)) /\
  player_triggered w = player_triggered G.

(** The probe of the key systems as the specification has it: the source
    is copied through JSON, the hooks [hs] are applied to the copy in order,
    each one to what the one before it returned, and the answer is read off
    what the last one returns. *)
Definition probe_key_systems (env : runtime) (hs : list callback) (source : value)
  : M heap bool :=
  do copy <- json_copy source;
  do updated <- in_order hs copy;
  do keySystemOptions <- read updated "keySystemOptions";
  ret (negb (truthy keySystemOptions
             && negb (requestMediaKeySystemAccess env || msSetMediaKeys env))).

(** The callbacks the probe and the constructor run on the source: the
    deprecated [updateSourceData], if there is one, and then the
    [updatesource] hooks. *)
Definition source_hooks (w : world) : list callback :=
  option_list (updateSourceData w) ++ default [] (hooks_ w !! "updatesource").

(** Objects that lead back to themselves: every object of [C] holds a
    reference to an object of [C]. *)
Definition looped (h : heap) (C : gset loc) : Prop :=
  forall l, l ∈ C ->
    exists o l', h !! l = Some o /\ holds o (VRef l') /\ l' ∈ C.




(** ** Audio tracks for video.js (handlePlaybackMetadataLoaded) *)

(** [s.toLowerCase()], for code units up to 255. *)
Definition toLowerCase (s : string) : string :=
  string_of_list_ascii
    (map (fun c =>
            let n := nat_of_ascii c in
            if ((65 <=? n) && (n <=? 90)
                || (192 <=? n) && (n <=? 222) && negb (n =? 215))%nat
            then ascii_of_nat (n + 32) else c)
         (list_ascii_of_string s)).

(** An entry of [track.labels]. *)
Module Label.
Record t := { lang : option string; text : option string }.
End Label.

(** The first label whose language, a non-empty string, occurs in lower
    case in the language of the player. *)
Definition localizedLabel (language : string) (labels : option (list Label.t))
  : option Label.t :=
  match labels with
  | Some ls =>
      array_find
        (fun l => match Label.lang l with
                  | Some lang =>
                      negb (String.eqb lang EmptyString)
                      && contains (toLowerCase lang) language
                  | None => false
                  end) ls
  | None => None
  end.

(** An audio track of dash.js: the object, known by [ref], with the fields
    the bridge reads besides [index], [lang] and [roles]. *)
Module DashAudio.
Record t := {
  ref : nat;
  track : dash_track;
  kind : option string;
  labels : option (list Label.t)
}.
End DashAudio.

(** The argument of [new videojs.AudioTrack]. *)
Module AudioTrack.
Record t := {
  enabled : bool;
  id : string;
  kind : string;
  label : option string;
  language : string
}.
End AudioTrack.

Definition audio_label (language : string) (dashTrack : DashAudio.t) : option string :=
  match localizedLabel language (DashAudio.labels dashTrack) with
  | Some localized => Label.text localized
  | None =>
      match DashAudio.labels dashTrack with
      | Some [only] => Label.text only
      | _ =>
          Some (lang (DashAudio.track dashTrack) +:+
                match roles (DashAudio.track dashTrack) with
                | [] => EmptyString
                | rs => " (" +:+ join_with ", " rs +:+ ")"
                end)
      end
  end.

(** [a || b] for strings that may be missing. *)
Definition or_else (a : option string) (b : option string) : option string :=
  match a with
  | Some s => if String.eqb s EmptyString then b else a
  | None => b
  end.

Definition new_AudioTrack (language : string) (currentAudioTrack : option nat)
    (dashTrack : DashAudio.t) : AudioTrack.t :=
  {| AudioTrack.enabled :=
       match currentAudioTrack with
       | Some current => Nat.eqb (DashAudio.ref dashTrack) current
       | None => false
       end;
     AudioTrack.id := generateIdFromTrackIndex (index (DashAudio.track dashTrack));
     AudioTrack.kind :=
       match DashAudio.kind dashTrack with
       | Some kind => if String.eqb kind EmptyString then "main" else kind
       | None => "main"
       end;
     AudioTrack.label := audio_label language dashTrack;
     AudioTrack.language := lang (DashAudio.track dashTrack) |}.

(** What [handlePlaybackMetadataLoaded] does: whether it has the tech clear
    the audio tracks, the tracks it hands to [addTrack], in order, the
    listener it puts on the [change] event of the list, and the dash.js
    player with the subscription to [STREAM_TEARDOWN_COMPLETE]. *)
Record audio_bridge := {
  clearTracks : bool;
  addTrack : list AudioTrack.t;
  change : list audio_track -> media_player -> media_player;
  mediaPlayer : media_player
}.

(** [language] is [player.language()], [dashAudioTracks] what
    [getTracksFor('audio')] returns, [currentAudioTrack] the object that
    [getCurrentTrackFor('audio')] returns and [listed] the length of the
    audio track list of the player. *)
Definition handlePlaybackMetadataLoaded (language : string)
    (dashAudioTracks : list DashAudio.t) (currentAudioTrack : option nat)
    (listed : nat) (mp : media_player) : audio_bridge :=
  {| clearTracks := negb (Nat.eqb listed 0);
     addTrack := map (new_AudioTrack language currentAudioTrack) dashAudioTracks;
     change := audioTracksChangeHandler (map DashAudio.track dashAudioTracks);
     mediaPlayer := call (On "STREAM_TEARDOWN_COMPLETE") mp |}.

(** A track of the player's list as the change handler reads it. *)
Definition listed_track (t : AudioTrack.t) (enabled : bool) : audio_track :=
  {| id := AudioTrack.id t; enabled := enabled |}.

(** ** Text tracks for video.js (attachDashTextTracksToVideojs,
       setupTextTracks) *)

(** A text track of dash.js. *)
Module DashText.
Record t := {
  ref : nat;
  labels : option (list Label.t);
  lang : option string;
  label : option string;
  kind : option string;
  isTTML : bool
}.
End DashText.

(** The argument of [addRemoteTextTrack]. *)
Module TrackConfig.
Record t := {
  label : option string;
  language : option string;
  srclang : option string;
  kind : option string
}.
End TrackConfig.

(** A [TextTrack] of the player. *)
Module TextTrack.
Record t := { id : nat; mode : string }.
End TextTrack.

(** An entry of [trackDictionary]. *)
Module Entry.
Record t := { textTrack : nat; dashTrack : DashText.t }.
End Entry.

(** The video.js player and the dash.js player as the text track bridge
    sees them: the language, whether the player has the overlay for TTML
    captions as a child, its text tracks, the remote tracks with the
    configuration they were added with, the removed ones, the text track
    dash.js has current and the [setTextTrack] calls it has received, and
    the listeners of the [change] event of the text track list, each with
    the tracks and the dictionary it works on. *)
Record text_host := {
  host_language : string;
  host_ttml : bool;
  textTracks : list TextTrack.t;
  remoteTextTracks : list (nat * TrackConfig.t);
  removedTextTracks : list nat;
  currentTextTrackIndex : Z;
  setTextTrack_calls : list Z;
  change_listeners : list (list DashText.t * list Entry.t);
  teardown_listeners : nat
}.

Definition text_label (language : string) (track : DashText.t) : option string :=
  match localizedLabel language (DashText.labels track) with
  | Some localized => Label.text localized
  | None =>
      match DashText.labels track with
      | Some [only] => Label.text only
      | _ => or_else (DashText.lang track) (DashText.label track)
      end
  end.

Definition trackConfig (language : string) (track : DashText.t) : TrackConfig.t :=
  {| TrackConfig.label := text_label language track;
     TrackConfig.language := DashText.lang track;
     TrackConfig.srclang := DashText.lang track;
     TrackConfig.kind := DashText.kind track |}.

(** The mode video.js 7 gives a text track made without one. *)
Definition initial_mode (config : TrackConfig.t) : string :=
  match TrackConfig.kind config with
  | Some k => if String.eqb k "metadata" || String.eqb k "chapters" then "hidden"
              else "disabled"
  | None => "disabled"
  end.

(** An id that no text track of the list has. *)
Definition unused_id (tracks : list TextTrack.t) : nat :=
  S (fold_right Nat.max 0%nat (map TextTrack.id tracks)).

(** [player.addRemoteTextTrack(config, false)]: a new text track at the end
    of the list; the result is the track of the element returned. *)
Definition addRemoteTextTrack (config : TrackConfig.t) : M text_host nat :=
  fun h =>
    let n := unused_id (textTracks h) in
    (Normal n,
     {| host_language := host_language h; host_ttml := host_ttml h;
        textTracks := textTracks h ++ [{| TextTrack.id := n;
                                          TextTrack.mode := initial_mode config |}];
        remoteTextTracks := remoteTextTracks h ++ [(n, config)];
        removedTextTracks := removedTextTracks h;
        currentTextTrackIndex := currentTextTrackIndex h;
        setTextTrack_calls := setTextTrack_calls h;
        change_listeners := change_listeners h;
        teardown_listeners := teardown_listeners h |}).

(** [player.removeRemoteTextTrack(track)] *)
Definition removeRemoteTextTrack (n : nat) : M text_host unit :=
  modify (fun h =>
    {| host_language := host_language h; host_ttml := host_ttml h;
       textTracks := List.filter (fun t => negb (Nat.eqb (TextTrack.id t) n)) (textTracks h);
       remoteTextTracks :=
         List.filter (fun r => negb (Nat.eqb (fst r) n)) (remoteTextTracks h);
       removedTextTracks := removedTextTracks h ++ [n];
       currentTextTrackIndex := currentTextTrackIndex h;
       setTextTrack_calls := setTextTrack_calls h;
       change_listeners := change_listeners h;
       teardown_listeners := teardown_listeners h |}).

(** [dashMediaPlayer.setTextTrack(idx)]: dash.js takes [idx] as its current
    text track. *)
Definition setTextTrack (idx : Z) : M text_host unit :=
  modify (fun h =>
    {| host_language := host_language h; host_ttml := host_ttml h;
       textTracks := textTracks h; remoteTextTracks := remoteTextTracks h;
       removedTextTracks := removedTextTracks h;
       currentTextTrackIndex := idx;
       setTextTrack_calls := setTextTrack_calls h ++ [idx];
       change_listeners := change_listeners h;
       teardown_listeners := teardown_listeners h |}).

Definition subscribe (tracks : list DashText.t) (trackDictionary : list Entry.t)
  : M text_host unit :=
  modify (fun h =>
    {| host_language := host_language h; host_ttml := host_ttml h;
       textTracks := textTracks h; remoteTextTracks := remoteTextTracks h;
       removedTextTracks := removedTextTracks h;
       currentTextTrackIndex := currentTextTrackIndex h;
       setTextTrack_calls := setTextTrack_calls h;
       change_listeners := change_listeners h ++ [(tracks, trackDictionary)];
       teardown_listeners := S (teardown_listeners h) |}).

(** [find(l, f)] *)
Definition find {A} (l : list A) (f : A -> bool) : option A := array_find f l.

(** [tracks.indexOf(track)], for objects: the first position that holds the
    very object, [-1] when none does. *)
Fixpoint indexOf (tracks : list DashText.t) (track : DashText.t) : Z :=
  match tracks with
  | [] => -1
  | t :: rest =>
      if Nat.eqb (DashText.ref t) (DashText.ref track) then 0
      else match indexOf rest track with
           | -1 => -1
           | i => i + 1
           end
  end.

(** The loop of [updateActiveDashTextTrack] over the text tracks of the
    player, from the index found so far. *)
Fixpoint activeTextTrackIndex (tracks : list DashText.t) (trackDictionary : list Entry.t)
    (textTracks : list TextTrack.t) (activeTextTrackIndex_ : Z) : Z :=
  match textTracks with
  | [] => activeTextTrackIndex_
  | textTrack :: rest =>
      activeTextTrackIndex tracks trackDictionary rest
        (if String.eqb (TextTrack.mode textTrack) "showing" then
           match find trackDictionary
                      (fun entry => Nat.eqb (Entry.textTrack entry) (TextTrack.id textTrack)) with
           | Some dictionaryLookupResult =>
               indexOf tracks (Entry.dashTrack dictionaryLookupResult)
           | None => activeTextTrackIndex_
           end
         else activeTextTrackIndex_)
  end.

Definition updateActiveDashTextTrack (tracks : list DashText.t)
    (trackDictionary : list Entry.t) : M text_host unit :=
  do h <- get_state;
  let active := activeTextTrackIndex tracks trackDictionary (textTracks h) (-1) in
  if Z.eqb active (currentTextTrackIndex h) then ret tt
  else setTextTrack active.

(** The second [map] of [attachDashTextTracksToVideojs] with the [filter]
    behind it: the remote tracks added and the dictionary. *)
Fixpoint add_tracks (tracks : list DashText.t)
  : M text_host (list nat * list Entry.t) :=
  match tracks with
  | [] => ret ([], [])
  | dashTrack :: rest =>
      do h <- get_state;
      if DashText.isTTML dashTrack && negb (host_ttml h) then add_tracks rest
      else
        do remoteTextTrack <- addRemoteTextTrack (trackConfig (host_language h) dashTrack);
        do more <- add_tracks rest;
        ret (remoteTextTrack :: fst more,
             {| Entry.textTrack := remoteTextTrack; Entry.dashTrack := dashTrack |}
             :: snd more)
  end.

Definition attachDashTextTracksToVideojs (tracks : list DashText.t)
  : M text_host (list nat) :=
  do added <- add_tracks tracks;
  let tracksAttached := fst added in
  let trackDictionary := snd added in
  subscribe tracks trackDictionary ;;
  updateActiveDashTextTrack tracks trackDictionary ;;
  ret tracksAttached.

(** The state of [setupTextTracks] once it has subscribed: the tracks it
    has attached, and whether [handleTextTracksAdded] still listens to
    [TEXT_TRACKS_ADDED]. *)
Record text_setup := {
  host : text_host;
  dashTracksAttachedToVideoJs : list nat;
  listening : bool
}.

Inductive text_event :=
| TEXT_TRACKS_ADDED (tracks : list DashText.t)
| CAN_PLAY.

Definition clearDashTracks (st : text_setup) : text_setup :=
  {| host := snd (forEach (dashTracksAttachedToVideoJs st) removeRemoteTextTrack (host st));
     dashTracksAttachedToVideoJs := [];
     listening := listening st |}.

Definition handleTextTracksAdded (tracks : list DashText.t) (st : text_setup)
  : text_setup :=
  let st := {| host := host st;
               dashTracksAttachedToVideoJs := dashTracksAttachedToVideoJs st;
               listening := false |} in
  let st := clearDashTracks st in
  match tracks with
  | [] => st
  | _ =>
      match attachDashTextTracksToVideojs tracks (host st) with
      | (Normal tracksAttached, h) =>
          {| host := h; dashTracksAttachedToVideoJs := tracksAttached;
             listening := listening st |}
      | (Throw _, h) =>
          {| host := h; dashTracksAttachedToVideoJs := dashTracksAttachedToVideoJs st;
             listening := listening st |}
      end
  end.

(** An event of dash.js reaches the listeners that are subscribed to it. *)
Definition dispatch (st : text_setup) (ev : text_event) : text_setup :=
  match ev with
  | TEXT_TRACKS_ADDED tracks =>
      if listening st then handleTextTracksAdded tracks st else st
  | CAN_PLAY =>
      {| host := host st;
         dashTracksAttachedToVideoJs := dashTracksAttachedToVideoJs st;
         listening := false |}
  end.

(** [setupTextTracks] has subscribed and nothing has happened yet. *)
Definition text_setup_of (h : text_host) : text_setup :=
  {| host := h; dashTracksAttachedToVideoJs := []; listening := true |}.

(** ** Sample data for the instances *)

(** A hook that sets [source[field] = true] and appends [field] to the
    string under [source.order], then returns the source. *)
Definition add_marker (n : nat) (field : string) : callback :=
  {| hook_id := n;
     hook_fn := fun source =>
       match source with
       | VRef l =>
           do order <- read source "order";
           set_field l field (VBool true) ;;
           set_field l "order"
             (VStr (match order with VStr s => s +:+ field | _ => field end)) ;;
           ret source
       | _ => ret source
       end |}.

Definition blank_player : media_player :=
  {| isDynamic := false; engine_duration := "NaN"; currentTrack := None;
     own_properties := ["setLimitBitrateByPortal"]; received := [] |}.

Definition quiet_world (h : heap) : world :=
  {| store := h; hooks_ := ∅; updateSourceData := None;
     useVideoJSDebug := false; beforeInitialize := false;
     blank := blank_player; engines := []; player_dash := None;
     player_children := []; player_named := ∅; player_triggered := []; tech_isReady_ := true;
     tech_triggerReady := 0; tech_featuresNativeTextTracks := false;
     window_VTTCue := NativeVTTCue; log := [] |}.

(** [{src: 'movie.mpd', type: 'application/dash+xml'}] at address 1. *)
Definition movie_store : heap :=
  {[ 1%positive := OPlain (<["src" := VStr "movie.mpd"]>
                           (<["type" := VStr "application/dash+xml"]> ∅)) ]}.

(** [{type: 'application/dash+xml'}]: no [src]. *)
Definition empty_store : heap :=
  {[ 1%positive := OPlain (<["type" := VStr "application/dash+xml"]> ∅) ]}.

Definition no_options : tech_options := {| dash := None |}.

Definition no_eme : runtime :=
  {| requestMediaKeySystemAccess := false; msSetMediaKeys := false |}.

(** A hook that gives the source key system options, as a page with
    protected content registers it. *)
Definition inject_drm : callback :=
  {| hook_id := 7;
     hook_fn := fun source =>
       match source with
       | VRef l =>
           do options <- alloc (OArray []);
           set_field l "keySystemOptions" (VRef options) ;;
           ret source
       | _ => ret source
       end |}.

(** A hook that writes on its argument. *)
Definition stamp : callback :=
  {| hook_id := 8;
     hook_fn := fun source =>
       match source with
       | VRef l => set_field l "stamped" (VBool true) ;; ret source
       | _ => ret source
       end |}.

Definition with_updatesource (fs : list callback) (w : world) : world :=
  with_hooks_ (fun r => <["updatesource" := fs]> r) w.

(** [[{name: 'com.widevine.alpha', options: {licenseUrl: 'https://license/'}}]]
    at address 1. *)
Definition license_options : gmap string value :=
  {[ "licenseUrl" := VStr "https://license/" ]}.

Definition license_store : heap :=
  {[ 1%positive := OArray [VRef 2%positive];
     2%positive := OPlain {[ "name" := VStr "com.widevine.alpha";
                             "options" := VRef 3%positive ]};
     3%positive := OPlain license_options ]}.


Definition idle : Html5DashJS :=
  {| hasFiniteDuration_ := false; mediaPlayer_ := None;
     keySystemOptions_ := VUndefined; ttmlContainer_ := false |}.

Definition on_demand : manifest :=
  {| mediaPresentationDuration := VNum "634.566";
     Period_asArray := Some [{| Period.duration := VUndefined |}] |}.

Definition live : manifest :=
  {| mediaPresentationDuration := VUndefined;
     Period_asArray := Some [{| Period.duration := VUndefined |}] |}.

(** A browser that throws on every [rgba(...)] colour, as Internet
    Explorer 8 does. *)
Definition no_rgba : css_runtime :=
  {| rejects := fun _ style rule => rgba_write style rule |}.

Definition pink_half : overrides :=
  {| color := Some "#f0e"; textOpacity := Some "0.5"; backgroundColor := None;
     backgroundOpacity := None; windowColor := None; windowOpacity := None;
     edgeStyle := None; fontPercent := None; fontFamily := None |}.

Definition two_spans : element :=
  Element 0 "div" [Element 1 "span" []; Element 2 "span" []].

Definition blank_page : page := {| styles := ∅; applied := [] |}.

Definition english : dash_track := {| index := "0"; lang := "en"; roles := [] |}.

(** The world after registering two marker hooks. *)
Definition marked_world : world :=
  with_hooks_ (registered [add_marker 1 "a"; add_marker 2 "b"])
              (quiet_world movie_store).

(** A registry with two source hooks. *)
Definition two_hooks : registry := {[ "updatesource" := [stamp; inject_drm] ]}.

(** A manifest without a total duration and without periods. *)
Definition no_periods : manifest :=
  {| mediaPresentationDuration := VUndefined; Period_asArray := Some [] |}.

(** Caption settings with a window colour and no window opacity. *)
Definition window_only : overrides :=
  {| color := None; textOpacity := None; backgroundColor := None;
     backgroundOpacity := None; windowColor := Some "#000"; windowOpacity := None;
     edgeStyle := None; fontPercent := None; fontFamily := None |}.

(** Caption settings that enlarge the font by half. *)
Definition larger_font : overrides :=
  {| color := None; textOpacity := None; backgroundColor := None;
     backgroundOpacity := None; windowColor := None; windowOpacity := None;
     edgeStyle := None; fontPercent := Some "1.5"; fontFamily := None |}.

Definition french : dash_track := {| index := "1"; lang := "fr"; roles := ["main"] |}.

Definition english_audio : DashAudio.t :=
  {| DashAudio.ref := 0; DashAudio.track := english; DashAudio.kind := None;
     DashAudio.labels := None |}.

Definition french_audio : DashAudio.t :=
  {| DashAudio.ref := 1; DashAudio.track := french; DashAudio.kind := Some "dub";
     DashAudio.labels := Some [{| Label.lang := Some "FR"; Label.text := Some "Français" |}] |}.

Definition english_text : DashText.t :=
  {| DashText.ref := 0; DashText.labels := None; DashText.lang := Some "en";
     DashText.label := None; DashText.kind := Some "subtitles"; DashText.isTTML := false |}.

(** A player with one text track, which is showing, and dash.js without a
    current text track. *)
Definition subtitled_host : text_host :=
  {| host_language := "en"; host_ttml := false;
     textTracks := [{| TextTrack.id := 5; TextTrack.mode := "showing" |}];
     remoteTextTracks := []; removedTextTracks := [];
     currentTextTrackIndex := -1; setTextTrack_calls := [];
     change_listeners := []; teardown_listeners := 0 |}.

(** [[null]] at address 1. *)
Definition null_entry_store : heap := {[ 1%positive := OArray [VNull] ]}.

(** A source that holds itself: [source.self = source], at address 1. *)
Definition loop_store : heap :=
  {[ 1%positive := OPlain {[ "self" := VRef 1%positive ]} ]}.

(** A browser that takes every assignment. *)
Definition scaling_browser : css_runtime :=
  {| rejects := fun _ _ _ => false |}.

(** A page on which the first span is 10 pixels high. *)
Definition sized_page : page :=
  {| styles := {[ (1%nat, "fontSize") := "10px" ]}; applied := [] |}.

(** A hook that ignores its argument and hands on the source that the page
    holds at address 1. *)
Definition returns_original : callback :=
  {| hook_id := 9; hook_fn := fun _ => ret (VRef 1%positive) |}.

(** Options that ask for TTML captions and carry one dash.js option under
    its name without the [set] prefix and one that dash.js does not know. *)
Definition ttml_options : tech_options :=
  {| dash := Some [("useTTML", VBool true); ("limitBitrateByPortal", VBool true);
                   ("unknown", VNum "1")] |}.

(** A player that has the caption overlay of an earlier session and a
    control bar among its children. *)
Definition crowded_world : world :=
  with_player_named (fun _ => {["TTMLTextTrackDisplay"; "ControlBar"]})
    (with_player_children (fun _ => ["TTMLTextTrackDisplay"; "ControlBar"])
       (quiet_world movie_store)).


(** * Properties *)

(** ** Caption colours *)

Lemma all_ascii_complete c : In c all_ascii.
Proof.
  rewrite <- (ascii_nat_embedding c).
  apply in_map, in_seq. pose proof (nat_ascii_bounded c). lia.
Qed.

(** Two hexadecimal digits parse to their value: neither is white space, a
    sign or the [x] of a radix prefix. *)
Lemma parseInt16_two_digits c1 c2 v1 v2 :
  hex_digit_value c1 = Some v1 ->
  hex_digit_value c2 = Some v2 ->
  parseInt16 (String c1 (String c2 EmptyString)) = pretty (16 * v1 + v2).
Proof.
  intros H1 H2.
  assert (Hall : forallb (fun a => forallb (two_digits_ok a) all_ascii) all_ascii = true)
    by (vm_compute; reflexivity).
  rewrite forallb_forall in Hall.
  specialize (Hall c1 (all_ascii_complete c1)).
  rewrite forallb_forall in Hall.
  specialize (Hall c2 (all_ascii_complete c2)).
  unfold two_digits_ok in Hall. rewrite H1, H2 in Hall.
  now apply String.eqb_eq.
Qed.

(** C6. A colour [#rgb] or [#rrggbb] made of hexadecimal digits and any
    opacity give the [rgba(...)] string whose channels are the decimal values
    of the digit pairs (a short digit [d] standing for the pair [dd]) followed
    by the opacity as given; a colour of any length other than 4 or 7 throws.
    In particular [#f0e] at opacity 0.5 is [rgba(255,0,238,0.5)] and a colour
    of length 5 throws. *)
Theorem constructColor_spec :
  (forall r g b vr vg vb opacity,
      hex_digit_value r = Some vr ->
      hex_digit_value g = Some vg ->
      hex_digit_value b = Some vb ->
      constructColor (String "#" (String r (String g (String b EmptyString)))) opacity
      = Normal (rgba (16 * vr + vr) (16 * vg + vg) (16 * vb + vb) opacity)) /\
  (forall r1 r2 g1 g2 b1 b2 vr1 vr2 vg1 vg2 vb1 vb2 opacity,
      hex_digit_value r1 = Some vr1 -> hex_digit_value r2 = Some vr2 ->
      hex_digit_value g1 = Some vg1 -> hex_digit_value g2 = Some vg2 ->
      hex_digit_value b1 = Some vb1 -> hex_digit_value b2 = Some vb2 ->
      constructColor
        (String "#" (String r1 (String r2 (String g1 (String g2
           (String b1 (String b2 EmptyString))))))) opacity
      = Normal (rgba (16 * vr1 + vr2) (16 * vg1 + vg2) (16 * vb1 + vb2) opacity)) /\
  (forall color opacity,
      String.length color <> 4%nat -> String.length color <> 7%nat ->
      exists msg, constructColor color opacity = Throw (Error msg)) /\
  constructColor "#f0e" "0.5" = Normal "rgba(255,0,238,0.5)" /\
  (exists msg, constructColor "#f0e1" "0.5" = Throw (Error msg)).
Proof.
  split; [|split; [|split; [|split]]].
  - intros r g b vr vg vb opacity Hr Hg Hb.
    cbv -[parseInt16 pretty Z.add Z.mul].
    now rewrite (parseInt16_two_digits _ _ _ _ Hr Hr),
      (parseInt16_two_digits _ _ _ _ Hg Hg), (parseInt16_two_digits _ _ _ _ Hb Hb).
  - intros r1 r2 g1 g2 b1 b2 vr1 vr2 vg1 vg2 vb1 vb2 opacity H1 H2 H3 H4 H5 H6.
    cbv -[parseInt16 pretty Z.add Z.mul].
    now rewrite (parseInt16_two_digits _ _ _ _ H1 H2),
      (parseInt16_two_digits _ _ _ _ H3 H4), (parseInt16_two_digits _ _ _ _ H5 H6).
  - intros color opacity H4 H7. unfold constructColor.
    apply Nat.eqb_neq in H4, H7. rewrite H4, H7. eauto.
  - vm_compute. reflexivity.
  - eexists. vm_compute. reflexivity.
Qed.

(** ** Error translation *)

(** C1, as amended.  On every error event whose payload has the shape dash.js
    gives it, the listener returns, reports to the player exactly the code
    of the specification's table (nothing for an error outside the table)
    and schedules a reset after each report.  A manifest error with id
    [codec] is reported with code 4 and the engine's own message.  A media
    source error whose message contains [MEDIA_ERR_NETWORK] is reported with
    code 2 and that message, unless the message also contains
    [MEDIA_ERR_ABORTED], which is tested first. *)
Theorem retriggerError_taxonomy :
  (forall ev, payload_fits ev ->
     exists fx, retriggerError_ ev = Normal fx /\
       reported_code fx = taxonomy ev /\
       (fx = [] \/ exists code message, fx = [PlayerError code message; ResetAfter 10])) /\
  (forall message,
     retriggerError_ {| error := "manifestError"; event := DObject (Some "codec") message |}
     = Normal [PlayerError 4 (match message with Some m => DText m | None => DUndefined end);
               ResetAfter 10]) /\
  (forall s,
     contains "MEDIA_ERR_NETWORK" s = true ->
     contains "MEDIA_ERR_ABORTED" s = false ->
     retriggerError_ {| error := "mediasource"; event := DText s |}
     = Normal [PlayerError 2 (DText s); ResetAfter 10]).
Proof.
  split; [|split].
  - intros [err e] Hfit. unfold retriggerError_, taxonomy. cbn [error event].
    destruct (String.eqb err "capability") eqn:Hcap.
    { apply String.eqb_eq in Hcap as ->. cbn.
      destruct e as [|s|id m]; cbn; eauto 10.
      destruct (String.eqb s "mediasource"); cbn; [eauto 10|].
      destruct (String.eqb s "encryptedmedia"); cbn; eauto 10. }
    cbn [andb cond].
    destruct (String.eqb err "manifestError") eqn:Hman.
    { apply String.eqb_eq in Hman. destruct Hfit as [Hm _].
      specialize (Hm Hman). cbn in Hm. subst err.
      destruct e as [|s|id m]; [congruence|cbn; eauto 10|].
      cbn -[id_in forwarded_manifest_ids].
      destruct (id_in id forwarded_manifest_ids); cbn; eauto 10. }
    cbn [and_then cond].
    destruct (String.eqb err "mediasource") eqn:Hms.
    { apply String.eqb_eq in Hms. destruct Hfit as [_ Hs].
      destruct (Hs Hms) as [s Hev]. cbn in Hev. subst e. cbn [cond detail_match].
      repeat (match goal with |- context [contains ?n s] => destruct (contains n s) end;
              cbn [cond]; [unfold surfaced; eauto 10|]).
      unfold surfaced; eauto 10. }
    cbn [cond].
    repeat (match goal with |- context [String.eqb err ?k] => destruct (String.eqb err k) end;
            cbn [cond]; [unfold surfaced; eauto 10|]).
    eauto.
  - intros message. destruct message; reflexivity.
  - intros s Hn Ha. unfold retriggerError_. cbn. rewrite Ha, Hn. reflexivity.
Qed.

(** The claim as written fails on a message that names both errors. *)
Lemma retriggerError_network_counterexample :
  ~ (forall s, contains "MEDIA_ERR_NETWORK" s = true ->
       exists message,
         retriggerError_ {| error := "mediasource"; event := DText s |}
         = Normal [PlayerError 2 message; ResetAfter 10]).
Proof.
  intros H.
  destruct (H "MEDIA_ERR_ABORTED (MEDIA_ERR_NETWORK)" eq_refl) as [m Hm].
  vm_compute in Hm. discriminate Hm.
Qed.

(** ** Audio track bridge *)

Lemma array_find_first {A} (f : A -> bool) l x :
  array_find f l = Some x ->
  exists before after, l = before ++ x :: after /\ f x = true /\
                       Forall (fun y => f y = false) before.
Proof.
  induction l as [|y l IH]; [discriminate|]. cbn.
  destruct (f y) eqn:Hy.
  - intros [= ->]. exists [], l. auto.
  - intros H. destruct (IH H) as (b & a & -> & Hx & Hb).
    exists (y :: b), a. auto.
Qed.

Lemma array_find_none {A} (f : A -> bool) l :
  array_find f l = None -> Forall (fun y => f y = false) l.
Proof.
  induction l as [|y l IH]; cbn; [constructor|].
  destruct (f y) eqn:Hy; [discriminate|]. auto.
Qed.

Lemma audioTracksChangeHandler_received dashAudioTracks tracks mp :
  received (audioTracksChangeHandler dashAudioTracks tracks mp)
  = received mp ++
    map (fun t => SetCurrentTrack (findDashAudioTrack dashAudioTracks t))
        (List.filter enabled tracks).
Proof.
  revert mp. induction tracks as [|t tracks IH]; intros mp; cbn.
  - now rewrite app_nil_r.
  - rewrite IH. destruct (enabled t); cbn; [|reflexivity].
    now rewrite <- app_assoc.
Qed.

(** C8, as amended.  On a change event the handler tells the engine to set
    the current track once for every enabled track of the player's list, in
    list order and whatever track the engine is playing.  The track handed
    over is the first engine track whose identifier ["dash-audio-" + index]
    equals the id of the enabled track, and [undefined] when there is none. *)
Theorem audioTracksChangeHandler_spec dashAudioTracks tracks mp :
  let mp' := audioTracksChangeHandler dashAudioTracks tracks mp in
  currentTrack mp' = currentTrack mp /\
  received mp'
  = received mp ++
    map (fun t => SetCurrentTrack (findDashAudioTrack dashAudioTracks t))
        (List.filter enabled tracks) /\
  (forall t d, findDashAudioTrack dashAudioTracks t = Some d ->
     "dash-audio-" +:+ index d = id t /\
     exists before after, dashAudioTracks = before ++ d :: after /\
       Forall (fun d' => "dash-audio-" +:+ index d' <> id t) before) /\
  (forall t, findDashAudioTrack dashAudioTracks t = None ->
     Forall (fun d' => "dash-audio-" +:+ index d' <> id t) dashAudioTracks).
Proof.
  cbn zeta. split; [|split; [|split]].
  - revert mp. induction tracks as [|t tracks IH]; intros mp; cbn; [reflexivity|].
    rewrite IH. now destruct (enabled t).
  - apply audioTracksChangeHandler_received.
  - intros t d Hfind. unfold findDashAudioTrack in Hfind.
    apply array_find_first in Hfind as (b & a & -> & Hd & Hb).
    apply String.eqb_eq in Hd. split; [exact Hd|].
    exists b, a. split; [reflexivity|].
    eapply Forall_impl; [exact Hb|]. cbn. intros d' Hd'.
    now apply String.eqb_neq in Hd'.
  - intros t Hfind. apply array_find_none in Hfind.
    eapply Forall_impl; [exact Hfind|]. cbn. intros d' Hd'.
    now apply String.eqb_neq in Hd'.
Qed.

(** The claim as written fails: the handler switches to the track the
    engine is already playing. *)
Lemma audioTracksChangeHandler_counterexample :
  ~ (forall dashAudioTracks tracks mp d,
       In (SetCurrentTrack (Some d))
          (received (audioTracksChangeHandler dashAudioTracks tracks mp)) ->
       ~ In (SetCurrentTrack (Some d)) (received mp) ->
       currentTrack mp <> Some d).
Proof.
  intros H.
  set (d := {| index := "0"; lang := "en"; roles := [] |}).
  apply (H [d] [{| id := "dash-audio-0"; enabled := true |}]
           {| isDynamic := false; engine_duration := "NaN"; currentTrack := Some d;
              own_properties := []; received := [] |} d).
  - cbn. left. reflexivity.
  - cbn. tauto.
  - reflexivity.
Qed.

(** ** Construction and the source hooks *)

Lemma bind_ret_l {S A B} (a : A) (k : A -> M S B) s : bind (ret a) k s = k a s.
Proof. reflexivity. Qed.

Lemma bind_normal {S A B} (c : M S A) (k : A -> M S B) s a s' :
  c s = (Normal a, s') -> bind c k s = k a s'.
Proof. intros H. unfold bind. now rewrite H. Qed.

Lemma bind_throw {S A B} (c : M S A) (k : A -> M S B) s e s' :
  c s = (Throw e, s') -> bind c k s = (Throw e, s').
Proof. intros H. unfold bind. now rewrite H. Qed.

Lemma bind_assoc {S A B C} (c : M S A) (k : A -> M S B) (k' : B -> M S C) s :
  bind (bind c k) k' s = bind c (fun a => bind (k a) k') s.
Proof. unfold bind. destruct (c s) as [[a|e] s']; reflexivity. Qed.

Lemma fold_hooks_bind fs : forall (acc : M heap value) h,
  fold_left (fun acc f => do s <- acc; hook_fn f s) fs acc h
  = bind acc (run_hooks fs) h.
Proof.
  induction fs as [|f fs IH]; intros acc h; cbn.
  - unfold bind, ret. destruct (acc h) as [[a|e] h']; reflexivity.
  - rewrite IH. apply bind_assoc.
Qed.

(** The loop over the hooks is their application in order. *)
Lemma run_hooks_in_order fs source h : run_hooks fs source h = in_order fs source h.
Proof. unfold in_order. now rewrite fold_hooks_bind. Qed.

Lemma in_order_snoc fs f source h :
  in_order (fs ++ [f]) source h = bind (in_order fs source) (hook_fn f) h.
Proof. unfold in_order. now rewrite fold_left_app. Qed.

Lemma hooks_lookup type r :
  inherited type = false ->
  hooks type None r
  = (Normal (Hooks (default [] (r !! type))), <[type := default [] (r !! type)]> r).
Proof.
  intros Htype. unfold hooks, bind, modify, get_state, ret. rewrite Htype. cbn.
  now rewrite lookup_insert_eq.
Qed.

Lemma hook_register type f r :
  inherited type = false ->
  snd (hook type (Some (OneHook f)) r)
  = <[type := default [] (r !! type) ++ [f]]> r.
Proof.
  intros Htype. unfold hook, hooks, bind, modify, get_state, ret. rewrite Htype. cbn.
  rewrite lookup_insert_eq. cbn. now rewrite insert_insert_eq.
Qed.

Lemma registered_lookup fs : forall r,
  default [] (registered fs r !! "updatesource")
  = default [] (r !! "updatesource") ++ fs.
Proof.
  unfold registered. induction fs as [|f fs IH]; intros r; cbn [fold_left].
  - now rewrite app_nil_r.
  - rewrite IH, hook_register, lookup_insert_eq by reflexivity. cbn.
    now rewrite <- app_assoc.
Qed.

Lemma on_hooks_lookup type w :
  inherited type = false ->
  hooks_forEach type w
  = (Normal (default [] (hooks_ w !! type)),
     with_hooks_ (fun _ => <[type := default [] (hooks_ w !! type)]> (hooks_ w)) w).
Proof.
  intros Htype. unfold hooks_forEach, bind, on_hooks_. now rewrite hooks_lookup.
Qed.

Lemma updated_source_store source w :
  (fst (updated_source source w), store (snd (updated_source source w)))
  = in_order (option_list (updateSourceData w) ++
              default [] (hooks_ w !! "updatesource")) source (store w).
Proof.
  rewrite <- run_hooks_in_order.
  unfold updated_source, bind, get_state.
  destruct (updateSourceData w) as [f|] eqn:Hf;
    [change (option_list (Some f) ++ default [] (hooks_ w !! "updatesource"))
       with (f :: default [] (hooks_ w !! "updatesource"))
    |change (option_list None ++ default [] (hooks_ w !! "updatesource"))
       with (default [] (hooks_ w !! "updatesource"))];
    cbn [run_hooks].
  - unfold warn, modify, on_store at 1 3. cbn [store with_log].
    unfold bind.
    destruct (hook_fn f source (store w)) as [[s|e] h1]; [|reflexivity].
    rewrite on_hooks_lookup by reflexivity. unfold on_store.
    cbn [hooks_ with_store with_log with_hooks_ store].
    now destruct (run_hooks _ s h1).
  - unfold ret. rewrite on_hooks_lookup by reflexivity. unfold on_store. cbn [store with_hooks_].
    now destruct (run_hooks _ source (store w)).
Qed.

(** C4, as amended.  Hooks registered one after the other are kept in that
    order behind those already there.  For a source with a truthy [src] the
    constructor goes on from the source that the deprecated
    [updateSourceData] (if defined) and then the [updatesource] hooks return
    when applied in registration order, each to what the one before it
    returned; the store is what they leave.  (A source without [src] leaves
    the constructor before any hook runs.) *)
Theorem updatesource_hooks_in_order :
  (forall fs r,
      default [] (registered fs r !! "updatesource")
      = default [] (r !! "updatesource") ++ fs) /\
  (forall fs f source h,
      in_order (fs ++ [f]) source h = bind (in_order fs source) (hook_fn f) h) /\
  (forall source w,
      (fst (updated_source source w), store (snd (updated_source source w)))
      = in_order (option_list (updateSourceData w) ++
                  default [] (hooks_ w !! "updatesource")) source (store w)) /\
  (forall w source tech_options_ options src,
      get_prop (store w) source "src" = Normal src -> truthy src = true ->
      new_Html5DashJS source tech_options_ options w
      = (do s <- updated_source source;
         start_session (default tech_options_ options) s) (at_hooks w)).
Proof.
  split; [|split; [|split]].
  - intros fs r. apply registered_lookup.
  - intros. apply in_order_snoc.
  - intros. apply updated_source_store.
  - intros w source topts options src Hsrc Ht.
    unfold new_Html5DashJS, at_hooks.
    unfold bind at 1. cbn [get_state].
    unfold bind at 1. cbn [modify]. unfold bind at 1.
    unfold on_store at 1, read. unfold bind at 1.
    cbn [get_state store with_player_dash].
    unfold lift_completion. rewrite Hsrc. cbn [with_store]. rewrite Ht. cbn [negb].
    unfold bind at 1. cbn [modify].
    destruct w; reflexivity.
Qed.

(** C5.  A source whose [src] reads as a falsy value (absent, empty, null)
    gives an adapter without a dash.js player: no player is created and none
    receives a call, and the store is left alone.  [dispose()] on that
    adapter returns normally, touches no dash.js player and removes
    [player.dash]. *)
Theorem construction_without_src source tech_options_ options w src :
  get_prop (store w) source "src" = Normal src ->
  truthy src = false ->
  exists this w',
    new_Html5DashJS source tech_options_ options w = (Normal this, w') /\
    mediaPlayer_ this = None /\
    engines w' = engines w /\
    store w' = store w /\
    exists w'',
      dispose this w' = (Normal tt, w'') /\
      engines w'' = engines w /\
      player_dash w'' = None.
Proof.
  intros Hsrc Hf.
  unfold new_Html5DashJS.
  unfold bind at 1. cbn [get_state].
  unfold bind at 1. cbn [modify]. unfold bind at 1.
  unfold on_store at 1, read. unfold bind at 1.
  cbn [get_state store with_player_dash].
  unfold lift_completion. rewrite Hsrc. cbn [with_store]. rewrite Hf. cbn [negb ret].
  eexists _, _. split; [reflexivity|]. cbn.
  repeat split. eexists. split; [reflexivity|]. split; reflexivity.
Qed.

(** The claim as written fails on a source without [src]: the constructor
    returns before the registered hook is applied, so the source does not
    carry its marker. *)
Lemma updatesource_hooks_counterexample :
  ~ (forall w source tech_options_ options this w',
       new_Html5DashJS source tech_options_ options w = (Normal this, w') ->
       exists s h,
         in_order (option_list (updateSourceData w) ++
                   default [] (hooks_ w !! "updatesource")) source (store w)
         = (Normal s, h) /\
         forall l, l ∈ dom (store w) -> store w' !! l = h !! l).
Proof.
  intros H.
  set (f := {| hook_id := 1;
               hook_fn := fun source =>
                 match source with
                 | VRef l => set_field l "marker" (VBool true) ;; ret source
                 | _ => ret source
                 end |}).
  set (h0 := ({[ 1%positive := OPlain ∅ ]} : heap)).
  set (w := {| store := h0; hooks_ := {[ "updatesource" := [f] ]};
               updateSourceData := None;
               useVideoJSDebug := false; beforeInitialize := false;
               blank := {| isDynamic := false; engine_duration := "NaN";
                           currentTrack := None; own_properties := [];
                           received := [] |};
               engines := []; player_dash := None; player_children := []; player_named := ∅;
               player_triggered := []; tech_isReady_ := false;
               tech_triggerReady := 0; tech_featuresNativeTextTracks := false;
               window_VTTCue := NoVTTCue; log := [] |}).
  destruct (H w (VRef 1%positive) {| dash := None |} None _ _ eq_refl)
    as (s & h & Hrun & Hsame).
  vm_compute in Hrun. injection Hrun as _ <-.
  specialize (Hsame 1%positive ltac:(apply elem_of_dom; eexists; reflexivity)).
  vm_compute in Hsame. discriminate Hsame.
Qed.

(** ** Duration *)

Lemma getDuration_readable data this w :
  readable data ->
  getDuration_ data this w
  = (Normal (with_hasFiniteDuration_ (states_duration data) this),
     if Bool.eqb (states_duration data) (hasFiniteDuration_ this) then w
     else with_player_triggered (fun l => l ++ ["durationchange"]) w).
Proof.
  intros Hr. unfold getDuration_, states_duration.
  destruct (truthy (mediaPresentationDuration data)) eqn:Hm.
  - cbn. unfold bind, ret, modify. cbn.
    now destruct (hasFiniteDuration_ this).
  - destruct Hr as [Hr | (ps & p & Hp)]; [congruence|].
    rewrite Hp. unfold last_period_duration. rewrite last_snoc.
    unfold bind, ret, modify, lift_completion. cbn.
    now destruct (truthy (Period.duration p)), (hasFiniteDuration_ this).
Qed.

Lemma deliver_readable events : forall this w,
  Forall readable events ->
  let '(this', w') := deliver events this w in
  hasFiniteDuration_ this'
  = fold_left (fun _ b => b) (map states_duration events) (hasFiniteDuration_ this) /\
  player_triggered w'
  = player_triggered w ++
    repeat "durationchange" (flips (hasFiniteDuration_ this) (map states_duration events)).
Proof.
  induction events as [|data events IH]; intros this w Hall.
  - cbn. now rewrite app_nil_r.
  - apply Forall_cons in Hall as [Hd Hall].
    cbn [deliver]. rewrite (getDuration_readable _ _ _ Hd).
    set (this1 := with_hasFiniteDuration_ (states_duration data) this).
    match goal with |- context [deliver events this1 ?w1] =>
      specialize (IH this1 w1 Hall); destruct (deliver events this1 w1) as [this' w'] end.
    destruct IH as [IHf IHt]. split.
    + rewrite IHf. reflexivity.
    + rewrite IHt. subst this1. cbn [hasFiniteDuration_ with_hasFiniteDuration_ map flips].
      destruct (Bool.eqb (states_duration data) (hasFiniteDuration_ this)); cbn.
      * reflexivity.
      * now rewrite <- app_assoc.
Qed.

(** C3, as amended.  With a dash.js player attached, [duration()] returns
    [Infinity] when that player reports a dynamic stream and the adapter has
    not recorded a finite duration, and the duration the player reports in
    every other case; so, unless the player itself reports [Infinity], the
    result is [Infinity] exactly in the first case.  On every manifest with a last period (or a truthy
    [mediaPresentationDuration]) the listener sets the flag to false exactly
    when [mediaPresentationDuration] and the duration of the last period are
    both falsy (absent, null, zero or NaN), and notifies the player of one
    [durationchange] when that changes the flag and of nothing when it does
    not.  Over a sequence of such manifests the notifications are as many as
    the changes of the flag. *)
Theorem duration_reporting :
  (forall this w mp e,
      mediaPlayer_ this = Some mp -> engines w !! mp = Some e ->
      duration this w
      = (Normal (if isDynamic e && negb (hasFiniteDuration_ this)
                 then "Infinity" else engine_duration e), w) /\
      (engine_duration e <> "Infinity" ->
       (fst (duration this w) = Normal "Infinity" <->
        isDynamic e = true /\ hasFiniteDuration_ this = false))) /\
  (forall data this w,
      readable data ->
      exists this' w',
        getDuration_ data this w = (Normal this', w') /\
        (hasFiniteDuration_ this' = false <->
           truthy (mediaPresentationDuration data) = false /\
           forall periods p, Period_asArray data = Some (periods ++ [p]) ->
                             truthy (Period.duration p) = false) /\
        player_triggered w'
        = player_triggered w ++
          (if Bool.eqb (hasFiniteDuration_ this') (hasFiniteDuration_ this)
           then [] else ["durationchange"])) /\
  (forall events this w,
      Forall readable events ->
      hasFiniteDuration_ (fst (deliver events this w))
      = fold_left (fun _ b => b) (map states_duration events) (hasFiniteDuration_ this) /\
      player_triggered (snd (deliver events this w))
      = player_triggered w ++
        repeat "durationchange"
               (flips (hasFiniteDuration_ this) (map states_duration events))).
Proof.
  split; [|split].
  - intros this w mp e Hmp He.
    assert (Hrun : duration this w
                   = (Normal (if isDynamic e && negb (hasFiniteDuration_ this)
                              then "Infinity" else engine_duration e), w)).
    { unfold duration, the_player, bind, get_state, ret.
      rewrite Hmp, He. now destruct (isDynamic e && negb (hasFiniteDuration_ this)). }
    split; [exact Hrun|]. intros Hfin. rewrite Hrun. cbn [fst].
    destruct (isDynamic e), (hasFiniteDuration_ this); cbn; split;
      try tauto; try (intros [? ?]; discriminate); try reflexivity;
      intros [= Heq]; congruence.
  - intros data this w Hr. eexists _, _.
    split; [apply (getDuration_readable _ _ _ Hr)|]. split.
    + cbn [hasFiniteDuration_ with_hasFiniteDuration_]. unfold states_duration.
      destruct (truthy (mediaPresentationDuration data)) eqn:Hm; cbn [orb].
      * split; [discriminate | intros [[=] _]].
      * destruct Hr as [Hr | (ps & p & Hp)]; [congruence|].
        rewrite Hp, last_snoc. split.
        -- intros Hd. split; [reflexivity|]. intros ps' p' [= Heq].
           apply app_inj_tail in Heq as [_ <-]. exact Hd.
        -- intros [_ Hd]. now apply (Hd ps p).
    + cbn [hasFiniteDuration_ with_hasFiniteDuration_].
      destruct (Bool.eqb (states_duration data) (hasFiniteDuration_ this)); cbn.
      * now rewrite app_nil_r.
      * reflexivity.
  - intros events this w Hall.
    pose proof (deliver_readable events this w Hall) as H.
    destruct (deliver events this w) as [this' w']. exact H.
Qed.

(** The claim as written fails on a manifest that carries a
    [mediaPresentationDuration] of zero: the flag becomes false although the
    manifest does not lack the attribute. *)
Lemma duration_reporting_counterexample :
  ~ (forall data this w this' w',
       getDuration_ data this w = (Normal this', w') ->
       (hasFiniteDuration_ this' = false <->
          mediaPresentationDuration data = VUndefined /\
          forall periods p, Period_asArray data = Some (periods ++ [p]) ->
                            Period.duration p = VUndefined)).
Proof.
  intros H.
  set (data := {| mediaPresentationDuration := VNum "0";
                  Period_asArray := Some [{| Period.duration := VUndefined |}] |}).
  set (this := {| hasFiniteDuration_ := true; mediaPlayer_ := None;
                  keySystemOptions_ := VNull; ttmlContainer_ := false |}).
  set (w := {| store := ∅; hooks_ := ∅; updateSourceData := None;
               useVideoJSDebug := false; beforeInitialize := false;
               blank := {| isDynamic := false; engine_duration := "NaN";
                           currentTrack := None; own_properties := [];
                           received := [] |};
               engines := []; player_dash := None; player_children := []; player_named := ∅;
               player_triggered := []; tech_isReady_ := false;
               tech_triggerReady := 0; tech_featuresNativeTextTracks := false;
               window_VTTCue := NoVTTCue; log := [] |}).
  destruct (H data this w _ _ eq_refl) as [Hfalse _].
  destruct (Hfalse eq_refl) as [Hm _]. discriminate Hm.
Qed.

(** ** Protection data *)

Lemma forEach_invariant {S A} (I : S -> Prop) (f : A -> M S unit) (l : list A) :
  (forall x s r s', In x l -> I s -> f x s = (r, s') -> I s') ->
  forall s r s', I s -> forEach l f s = (r, s') -> I s'.
Proof.
  induction l as [|x l IH]; intros Hstep s r s' Hs; cbn.
  - unfold ret. now intros [= _ <-].
  - unfold bind. destruct (f x s) as [[[]|e] s1] eqn:Hx.
    + apply IH; [|eapply Hstep; [left; reflexivity|exact Hs|exact Hx]].
      intros y s0 r0 s0' Hy. apply Hstep. now right.
    + intros [= _ <-]. eapply Hstep; [left; reflexivity|exact Hs|exact Hx].
Qed.

Lemma alloc_fresh o (h : heap) :
  alloc o h = (Normal (fresh (dom h)), <[fresh (dom h) := o]> h) /\
  h !! fresh (dom h) = None.
Proof. split; [reflexivity|]. apply not_elem_of_dom, is_fresh. Qed.

(** A loop whose rounds all return, with what holds after the rounds done
    so far. *)
Lemma forEach_prefix {S A} (J : list A -> S -> Prop) (f : A -> M S unit) (l : list A) :
  (forall done x rest s,
      l = done ++ x :: rest -> J done s ->
      exists s', f x s = (Normal tt, s') /\ J (done ++ [x]) s') ->
  forall s, J [] s -> exists s', forEach l f s = (Normal tt, s') /\ J l s'.
Proof.
  intros Hstep.
  assert (H : forall rest done s,
             l = done ++ rest -> J done s ->
             exists s', forEach rest f s = (Normal tt, s') /\ J l s').
  { induction rest as [|x rest IH]; intros done s Hl Hd; cbn.
    - exists s. split; [reflexivity|]. now rewrite Hl, app_nil_r.
    - destruct (Hstep done x rest s Hl Hd) as (s1 & Hx & H1).
      unfold bind. rewrite Hx. apply (IH (done ++ [x])); [|exact H1].
      now rewrite <- app_assoc. }
  intros s. now apply (H l []).
Qed.

Lemma forEach_total {S A} (I : S -> Prop) (f : A -> M S unit) (l : list A) :
  (forall x s, In x l -> I s -> exists s', f x s = (Normal tt, s') /\ I s') ->
  forall s, I s -> exists s', forEach l f s = (Normal tt, s') /\ I s'.
Proof.
  induction l as [|x l IH]; intros Hstep s Hs; cbn.
  - exists s. now split.
  - destruct (Hstep x s (or_introl eq_refl) Hs) as (s1 & Hx & Hs1).
    unfold bind. rewrite Hx. apply IH; [|exact Hs1].
    intros y s0 Hy. apply Hstep. now right.
Qed.

(** *** Reading and writing object literals *)

Lemma walk_plain depth (h : heap) l k fields :
  h !! l = Some (OPlain fields) ->
  walk depth h l k = match fields !! k with Some v => Found v | None => EndsAtObject end.
Proof. intros H. destruct depth; cbn; now rewrite H. Qed.

Lemma isPlain_plain (h : heap) l fields :
  h !! l = Some (OPlain fields) ->
  isPlain h (VRef l) = match fields !! "constructor" with Some _ => false | None => true end.
Proof.
  intros H. unfold isPlain. rewrite H, (walk_plain _ _ _ _ _ H).
  now destruct (fields !! "constructor").
Qed.

Lemma isPlain_ref h x : isPlain h x = true -> exists lx, x = VRef lx.
Proof. destruct x; cbn; try discriminate. eauto. Qed.

Lemma set_field_plain l k x (h : heap) fields :
  h !! l = Some (OPlain fields) -> k <> "__proto__" ->
  set_field l k x h = (Normal tt, <[l := OPlain (<[k := x]> fields)]> h).
Proof.
  intros H Hk. unfold set_field. rewrite H.
  destruct (String.eqb_spec k "__proto__") as [->|_]; [now destruct Hk|reflexivity].
Qed.

Lemma delete_field_plain l k (h : heap) fields :
  h !! l = Some (OPlain fields) ->
  delete_field l k h = (Normal tt, <[l := OPlain (delete k fields)]> h).
Proof. intros H. unfold delete_field. now rewrite H. Qed.

Lemma read_ref l k (h : heap) fields :
  h !! l = Some (OPlain fields) ->
  read (VRef l) k h = (Normal (default VUndefined (fields !! k)), h).
Proof.
  intros H. unfold read, bind, get_state, lift_completion, get_prop. now rewrite H.
Qed.

Lemma read_frame base k (h : heap) r h' : read base k h = (r, h') -> h' = h.
Proof.
  unfold read, bind, get_state, lift_completion.
  destruct (get_prop h base k); unfold ret; now intros [= _ <-].
Qed.

(** An assignment changes the object it is made on, and no other. *)
Lemma set_prototype_only l x (h : heap) r h' :
  set_prototype l x h = (r, h') ->
  h' = h \/ exists o, is_Some (h !! l) /\ h' = <[l := o]> h.
Proof.
  unfold set_prototype.
  destruct (h !! l) as [[fields|elems|proto fields]|] eqn:Hl;
    destruct x as [| | | | |l']; try (intros [= _ <-]; now left).
  - intros [= _ <-]. right. eauto.
  - destruct (in_chain _ _ _ _); intros [= _ <-]; [now left|right; eauto].
  - intros [= _ <-]. right. eauto.
  - destruct (bool_decide _); [intros [= _ <-]; now left|].
    destruct (in_chain _ _ _ _); intros [= _ <-]; [now left|right; eauto].
Qed.

Lemma set_field_only l k x (h : heap) r h' :
  set_field l k x h = (r, h') ->
  h' = h \/ exists o, is_Some (h !! l) /\ h' = <[l := o]> h.
Proof.
  unfold set_field.
  destruct (h !! l) as [[fields|elems|proto fields]|] eqn:Hl.
  - destruct (_ && _).
    + intros H. apply set_prototype_only in H. now rewrite Hl in H.
    + intros [= _ <-]. right. eauto.
  - intros [= _ <-]. now left.
  - destruct (_ && _).
    + intros H. apply set_prototype_only in H. now rewrite Hl in H.
    + intros [= _ <-]. right. eauto.
  - intros [= _ <-]. now left.
Qed.

Lemma delete_field_only l k (h : heap) r h' :
  delete_field l k h = (r, h') ->
  h' = h \/ exists o, is_Some (h !! l) /\ h' = <[l := o]> h.
Proof.
  unfold delete_field.
  destruct (h !! l) as [[fields|elems|proto fields]|] eqn:Hl; intros [= _ <-];
    try (now left); right; eauto.
Qed.

Lemma set_field_keeps (base : heap) l k x h :
  base ⊆ h -> base !! l = None -> base ⊆ snd (set_field l k x h).
Proof.
  intros Hb Hl. destruct (set_field l k x h) as [r h'] eqn:Hrun.
  destruct (set_field_only _ _ _ _ _ _ Hrun) as [->|(o & _ & ->)]; cbn; [exact Hb|].
  now apply insert_subseteq_r.
Qed.

Lemma delete_field_keeps (base : heap) l k h :
  base ⊆ h -> base !! l = None -> base ⊆ snd (delete_field l k h).
Proof.
  intros Hb Hl. destruct (delete_field l k h) as [r h'] eqn:Hrun.
  destruct (delete_field_only _ _ _ _ _ Hrun) as [->|(o & _ & ->)]; cbn; [exact Hb|].
  now apply insert_subseteq_r.
Qed.

(** [mergeOptions] only adds objects to the store, whatever its sources
    and however it ends. *)
Lemma merge_property_frame (merge : list found -> M heap loc) (base : heap) result kv :
  (forall sources (h : heap) r h', merge sources h = (r, h') -> h ⊆ h') ->
  base !! result = None ->
  forall s r s', base ⊆ s -> merge_property merge result kv s = (r, s') -> base ⊆ s'.
Proof.
  intros Hmerge Hfresh s r s' Hs. unfold merge_property.
  unfold bind at 1. cbn [get_state].
  destruct (negb (isPlain s kv.2)).
  { intros Hset. apply (f_equal snd) in Hset. cbn in Hset. subst s'.
    now apply set_field_keeps. }
  unfold bind at 1.
  match goal with |- context [(if ?b then ?c else ret tt) s] =>
    assert (Hreset : forall r3 s2, (if b then c else ret tt) s = (r3, s2) -> base ⊆ s2);
    [ intros r3 s2; destruct b;
      [ unfold bind at 1; destruct (alloc_fresh (OPlain ∅) s) as [-> Hf];
        intros Hset; apply (f_equal snd) in Hset; cbn in Hset; subst s2;
        apply set_field_keeps; [|exact Hfresh];
        etransitivity; [exact Hs|now apply insert_subseteq]
      | unfold ret; now intros [= _ <-] ]
    | destruct ((if b then c else ret tt) s) as [[[]|e] s2] eqn:Hr;
      pose proof (Hreset _ _ eq_refl) as Hs2; clear Hreset ]
  end.
  2: { intros [= _ <-]. exact Hs2. }
  unfold bind at 1. cbn [get_state]. unfold bind at 1.
  match goal with |- context [merge ?srcs s2] =>
    destruct (merge srcs s2) as [[c|e] s3] eqn:Hm
  end.
  - intros Hset. apply (f_equal snd) in Hset. cbn in Hset. subst s'.
    apply set_field_keeps; [|exact Hfresh].
    etransitivity; [exact Hs2|]. eapply Hmerge, Hm.
  - intros [= _ <-]. etransitivity; [exact Hs2|]. eapply Hmerge, Hm.
Qed.

Lemma mergeOptions_frame depth : forall sources (h : heap) r h',
  mergeOptions depth sources h = (r, h') -> h ⊆ h'.
Proof.
  induction depth as [|d IH]; intros sources h r h'; cbn [mergeOptions].
  - unfold throw. now intros [= _ <-].
  - unfold bind at 1. destruct (alloc_fresh (OPlain ∅) h) as [-> Hfresh].
    set (l := fresh (dom h)) in *.
    assert (Hbase : h ⊆ <[l := OPlain ∅]> h) by now apply insert_subseteq.
    unfold bind at 1.
    assert (Hloop : forall s r0 s', h ⊆ s ->
              forEach sources (merge_source (mergeOptions d) l) s = (r0, s') -> h ⊆ s').
    { intros s r0 s'. apply (forEach_invariant (fun s => h ⊆ s)).
      intros source s0 r1 s0' _ Hs0. unfold merge_source.
      destruct (negb (truthy_found source)); [unfold ret; now intros [= _ <-]|].
      unfold bind at 1. cbn [get_state].
      apply (forEach_invariant (fun s => h ⊆ s)); [|exact Hs0].
      intros kv s1 r2 s1' _ Hs1. now apply merge_property_frame. }
    destruct (forEach sources _ _) as [[[]|e] s1] eqn:Hc;
      unfold ret; intros [= _ <-]; eapply Hloop; eauto.
Qed.

Lemma mergeOptions_fresh depth sources (h : heap) c h' :
  mergeOptions depth sources h = (Normal c, h') -> c = fresh (dom h).
Proof.
  destruct depth as [|d]; cbn [mergeOptions]; [discriminate|].
  unfold bind at 1. destruct (alloc_fresh (OPlain ∅) h) as [-> Hfresh].
  unfold bind at 1.
  destruct (forEach sources _ _) as [[[]|e] s1]; [|discriminate].
  unfold ret. now intros [= <- _].
Qed.

(** *** Copying tame options *)

Lemma isPlain_stable (base s : heap) anc x :
  tame base anc x -> base ⊆ s -> isPlain s x = isPlain base x.
Proof.
  intros Ht Hs. destruct Ht as [anc v Hv|anc l elems Hl|anc l fields Hl _|anc l fields _ Hl _ _ _].
  - destruct v as [| | | | |l]; try reflexivity. now destruct (Hv l).
  - unfold isPlain. now rewrite Hl, (lookup_weaken _ _ _ _ Hl Hs).
  - now rewrite (isPlain_plain _ _ _ Hl), (isPlain_plain _ _ _ (lookup_weaken _ _ _ _ Hl Hs)).
  - now rewrite (isPlain_plain _ _ _ Hl), (isPlain_plain _ _ _ (lookup_weaken _ _ _ _ Hl Hs)).
Qed.

Lemma copy_avoiding_mono (base : heap) avoid avoid' (h1 h2 : heap) x y :
  copy_avoiding base avoid h1 x y ->
  avoid' ⊆ avoid ->
  (forall c o, c ∉ avoid -> h1 !! c = Some o -> h2 !! c = Some o) ->
  copy_avoiding base avoid' h2 x y.
Proof.
  intros Hc Hav Hkeep.
  induction Hc as [x Hx|l fields c copied Hp Hl Hc Hcopied Hdom _ IH].
  - now apply copy_shared.
  - eapply copy_plain; eauto.
Qed.

Lemma look_absent (s : heap) result mc k :
  s !! result = Some (OPlain mc) -> mc !! k = None -> k <> "__proto__" ->
  look s result k = Data VUndefined.
Proof.
  intros Hr Hk Hne. unfold look. rewrite (walk_plain _ _ _ _ _ Hr), Hk.
  destruct (String.eqb_spec k "__proto__") as [->|_]; [now destruct Hne|reflexivity].
Qed.

Lemma look_present (s : heap) result mc k v :
  s !! result = Some (OPlain mc) -> mc !! k = Some v -> look s result k = Data v.
Proof. intros Hr Hk. unfold look. now rewrite (walk_plain _ _ _ _ _ Hr), Hk. Qed.

(** One property of tame options: the result gets it, copied. *)
Lemma merge_property_tame (base : heap) fuel result k x anc :
  tame base anc x -> (isPlain base x = true -> copies_with base fuel x) ->
  k <> "__proto__" -> base !! result = None ->
  forall (s : heap) mc,
    base ⊆ s -> s !! result = Some (OPlain mc) -> mc !! k = None ->
    exists s' y,
      merge_property (mergeOptions fuel) result (k, x) s = (Normal tt, s') /\
      s' !! result = Some (OPlain (<[k := y]> mc)) /\
      (forall c o, c <> result -> s !! c = Some o -> s' !! c = Some o) /\
      copy_avoiding base (dom s) s' x y.
Proof.
  intros Ht Hnested Hk Hfresh s mc Hs Hr Hmc.
  unfold merge_property. unfold bind at 1. cbn [get_state fst snd].
  rewrite (isPlain_stable _ _ _ _ Ht Hs).
  destruct (isPlain base x) eqn:Hp; cbn [negb].
  - (* a plain object: a new object is put under the name, and the copy
       merged into it *)
    rewrite (look_absent _ _ _ _ Hr Hmc Hk). cbn [isPlain_found isPlain negb].
    unfold bind at 1. unfold bind at 1.
    destruct (alloc_fresh (OPlain ∅) s) as [-> He]. set (e := fresh (dom s)) in *.
    assert (Hne : e <> result) by (intros ->; congruence).
    assert (Hr1 : <[e := OPlain ∅]> s !! result = Some (OPlain mc))
      by now rewrite lookup_insert_ne.
    rewrite (set_field_plain _ _ _ _ _ Hr1 Hk).
    set (s2 := <[result := OPlain (<[k := VRef e]> mc)]> (<[e := OPlain ∅]> s)).
    assert (Hr2 : s2 !! result = Some (OPlain (<[k := VRef e]> mc)))
      by apply lookup_insert_eq.
    unfold bind at 1. cbn [get_state].
    rewrite (look_present _ _ _ _ _ Hr2 (lookup_insert_eq _ _ _)).
    assert (Hs2 : base ⊆ s2).
    { apply insert_subseteq_r; [exact Hfresh|].
      apply insert_subseteq_r; [eapply lookup_weaken_None; eauto|exact Hs]. }
    assert (He2 : s2 !! e = Some (OPlain ∅)).
    { unfold s2. rewrite lookup_insert_ne by congruence. apply lookup_insert_eq. }
    destruct (Hnested eq_refl s2 e Hs2 He2) as (c & s3 & Hrun & H23 & Hc & Hcopy).
    unfold bind at 1. rewrite Hrun.
    assert (Hr3 : s3 !! result = Some (OPlain (<[k := VRef e]> mc)))
      by (eapply lookup_weaken; eauto).
    rewrite (set_field_plain _ _ _ _ _ Hr3 Hk), insert_insert_eq.
    eexists _, (VRef c). split; [reflexivity|]. split; [apply lookup_insert_eq|].
    assert (Hkeep : forall c0 o, c0 <> result -> s !! c0 = Some o -> s3 !! c0 = Some o).
    { intros c0 o Hc0 Ho. eapply lookup_weaken; [|exact H23].
      unfold s2. rewrite lookup_insert_ne by congruence.
      rewrite lookup_insert_ne; [exact Ho|]. intros <-. congruence. }
    split.
    + intros c0 o Hc0 Ho. rewrite lookup_insert_ne by congruence. now apply Hkeep.
    + eapply copy_avoiding_mono; [exact Hcopy| |].
      * unfold s2. rewrite !dom_insert. intros c0 Hc0.
        apply elem_of_union. right. apply elem_of_union. now right.
      * intros c0 o Hc0 Ho. rewrite lookup_insert_ne; [exact Ho|].
        intros <-. apply Hc0. apply elem_of_dom. unfold s2. rewrite lookup_insert_eq. eauto.
  - (* any other value is taken as it is *)
    rewrite (set_field_plain _ _ _ _ _ Hr Hk).
    eexists _, x. split; [reflexivity|]. split; [apply lookup_insert_eq|]. split.
    + intros c0 o Hc0 Ho. now rewrite lookup_insert_ne by congruence.
    + now apply copy_shared.
Qed.

(** The properties of a source of tame options, one after the other. *)
Lemma merge_entries (base : heap) fuel result kvs :
  NoDup kvs.*1 ->
  "__proto__" ∉ kvs.*1 ->
  (forall k x, (k, x) ∈ kvs ->
     (exists anc, tame base anc x) /\
     (isPlain base x = true -> copies_with base fuel x)) ->
  base !! result = None ->
  forall (s0 : heap) mc0,
    base ⊆ s0 -> s0 !! result = Some (OPlain mc0) ->
    (forall k, k ∈ kvs.*1 -> mc0 !! k = None) ->
    exists s',
      forEach kvs (merge_property (mergeOptions fuel) result) s0 = (Normal tt, s') /\
      (forall c o, c <> result -> s0 !! c = Some o -> s' !! c = Some o) /\
      exists mc,
        s' !! result = Some (OPlain mc) /\
        (forall k, k ∉ kvs.*1 -> mc !! k = mc0 !! k) /\
        (forall k x, (k, x) ∈ kvs ->
           exists y, mc !! k = Some y /\ copy_avoiding base (dom s0) s' x y).
Proof.
  intros Hnd Hproto Hall Hfresh s0 mc0 Hs0 Hr0 Hmc0.
  set (J := fun (done : list (string * value)) (s : heap) =>
              (forall c o, c <> result -> s0 !! c = Some o -> s !! c = Some o) /\
              exists mc,
                s !! result = Some (OPlain mc) /\
                (forall k, k ∉ done.*1 -> mc !! k = mc0 !! k) /\
                (forall k x, (k, x) ∈ done ->
                   exists y, mc !! k = Some y /\ copy_avoiding base (dom s0) s x y)).
  destruct (forEach_prefix J (merge_property (mergeOptions fuel) result) kvs)
    with (s := s0) as (s' & Hrun & Hs' & HJ).
  - intros done [k x] rest s Hsplit (Hkeep & mc & Hr & Hrest & Hdone).
    assert (Hin : (k, x) ∈ kvs).
    { rewrite Hsplit. apply elem_of_app. right. apply list_elem_of_here. }
    assert (Hk : k ∉ done.*1).
    { rewrite Hsplit, fmap_app in Hnd. apply NoDup_app in Hnd as (_ & Hnd & _).
      intros Hd. apply (Hnd k Hd). cbn. apply list_elem_of_here. }
    assert (Hkin : k ∈ kvs.*1).
    { apply list_elem_of_fmap. exists (k, x). now split. }
    assert (Hne : k <> "__proto__") by (intros ->; contradiction).
    assert (Hbase : base ⊆ s).
    { apply map_subseteq_spec. intros c o Ho. apply Hkeep.
      - intros ->. congruence.
      - eapply lookup_weaken; eauto. }
    assert (Hdom : dom s0 ⊆ dom s).
    { intros c Hc. apply elem_of_dom in Hc as [o Ho]. apply elem_of_dom.
      destruct (decide (c = result)) as [->|Hcr]; [eauto|]. exists o. now apply Hkeep. }
    destruct (Hall k x Hin) as [[anc Ht] Hnested].
    destruct (merge_property_tame base fuel result k x anc Ht Hnested Hne Hfresh s mc
                Hbase Hr) as (s1 & y & Hstep & Hr1 & Hkeep1 & Hcopy).
    { rewrite (Hrest k Hk). now apply Hmc0. }
    exists s1. split; [exact Hstep|]. split.
    { intros c o Hc Ho. apply Hkeep1; [exact Hc|]. now apply Hkeep. }
    exists (<[k := y]> mc). split; [exact Hr1|]. split.
    + intros k' Hk'. rewrite fmap_app, elem_of_app in Hk'.
      rewrite lookup_insert_ne.
      * apply Hrest. tauto.
      * intros <-. apply Hk'. right. cbn. apply list_elem_of_here.
    + intros k' x' Hin'. apply elem_of_app in Hin' as [Hin'|Hin'].
      * destruct (Hdone k' x' Hin') as (y' & Hy' & Hcopy').
        exists y'. split.
        -- rewrite lookup_insert_ne; [exact Hy'|]. intros <-. apply Hk.
           apply list_elem_of_fmap. exists (k, x'). now split.
        -- eapply copy_avoiding_mono; [exact Hcopy'|reflexivity|].
           intros c o Hc Ho. apply Hkeep1; [|exact Ho].
           intros ->. apply Hc. apply elem_of_dom. eauto.
      * apply list_elem_of_singleton in Hin'. injection Hin' as -> ->.
        exists y. split; [apply lookup_insert_eq|].
        eapply copy_avoiding_mono; [exact Hcopy|exact Hdom|]. now intros c o _ Ho.
  - split; [now intros c o _ Ho|]. exists mc0. split; [exact Hr0|]. split.
    + reflexivity.
    + intros k x Hin. inversion Hin.
  - exists s'. split; [exact Hrun|]. exact (conj Hs' HJ).
Qed.

(** A traversal of objects that are not nested in themselves never needs
    more depth than the store has objects: the ancestors are distinct
    objects of the store. *)
Lemma ancestors_bound (h : heap) (anc : gset loc) l o fuel :
  anc ⊆ dom h -> l ∉ anc -> h !! l = Some o ->
  (size h < fuel + size anc)%nat ->
  exists fuel', fuel = S fuel' /\ {[l]} ∪ anc ⊆ dom h /\
                (size h < fuel' + size ({[l]} ∪ anc))%nat.
Proof.
  intros Hanc Hl Ho Hfuel.
  assert (Hsub : {[l]} ∪ anc ⊆ dom h).
  { apply union_subseteq. split; [|exact Hanc].
    apply singleton_subseteq_l, elem_of_dom. eauto. }
  assert (Hsize : size ({[l]} ∪ anc) = S (size anc)).
  { rewrite size_union by (apply disjoint_singleton_l; exact Hl).
    now rewrite size_singleton. }
  pose proof (subseteq_size _ _ Hsub) as Hle. rewrite size_dom in Hle.
  destruct fuel as [|fuel']; [lia|].
  exists fuel'. split; [reflexivity|]. split; [exact Hsub|]. lia.
Qed.

(** [mergeOptions({}, v)] on a source whose properties are tame: the
    result has them, each one copied.  [kvs] are the properties of [v]. *)
Lemma mergeOptions_entries (base : heap) fuel v kvs :
  NoDup kvs.*1 ->
  "__proto__" ∉ kvs.*1 ->
  (forall k x, (k, x) ∈ kvs ->
     (exists anc, tame base anc x) /\
     (isPlain base x = true -> copies_with base fuel x)) ->
  forall (s : heap) e,
    base ⊆ s -> s !! e = Some (OPlain ∅) ->
    (forall s1 : heap, s ⊆ s1 ->
       (if negb (truthy v) then [] else own_entries s1 v) = kvs) ->
    exists c s' mc,
      mergeOptions (S fuel) [Data (VRef e); Data v] s = (Normal c, s') /\
      s ⊆ s' /\ s !! c = None /\ s' !! c = Some (OPlain mc) /\
      (forall k, k ∉ kvs.*1 -> mc !! k = None) /\
      (forall k x, (k, x) ∈ kvs ->
         exists y, mc !! k = Some y /\
                   copy_avoiding base ({[c]} ∪ dom s) s' x y).
Proof.
  intros Hnd Hproto Hall s e Hs He Hkvs. cbn [mergeOptions].
  unfold bind at 1. destruct (alloc_fresh (OPlain ∅) s) as [-> Hfresh].
  set (result := fresh (dom s)) in *.
  set (s0 := <[result := OPlain ∅]> s).
  assert (Hs0 : s ⊆ s0) by now apply insert_subseteq.
  assert (Hne : e <> result) by (intros ->; congruence).
  assert (He0 : s0 !! e = Some (OPlain ∅)) by (eapply lookup_weaken; eauto).
  assert (Hbr : base !! result = None) by (eapply lookup_weaken_None; eauto).
  unfold bind at 1. cbn [forEach].
  (* the empty object gives nothing *)
  unfold bind at 1. unfold merge_source at 1. cbn [truthy_found truthy negb].
  unfold bind at 1. cbn [get_state entries_found own_entries]. rewrite He0.
  rewrite map_to_list_empty. cbn [forEach]. unfold ret at 1.
  (* the options *)
  unfold bind at 1. unfold merge_source. cbn [truthy_found].
  assert (Hloop : exists s' mc,
            (if negb (truthy v) then ret tt
             else do h <- get_state;
                  forEach (entries_found h (Data v))
                          (merge_property (mergeOptions fuel) result)) s0
            = (Normal tt, s') /\
            (forall c o, c <> result -> s0 !! c = Some o -> s' !! c = Some o) /\
            s' !! result = Some (OPlain mc) /\
            (forall k, k ∉ kvs.*1 -> mc !! k = None) /\
            (forall k x, (k, x) ∈ kvs ->
               exists y, mc !! k = Some y /\ copy_avoiding base (dom s0) s' x y)).
  { specialize (Hkvs s0 Hs0). destruct (negb (truthy v)).
    - subst kvs. exists s0, ∅. split; [reflexivity|]. split; [now intros|].
      split; [apply lookup_insert_eq|]. split; [intros; apply lookup_empty|].
      intros k x Hin. inversion Hin.
    - unfold bind at 1. cbn [get_state entries_found]. rewrite Hkvs.
      destruct (merge_entries base fuel result kvs Hnd Hproto Hall Hbr s0 ∅)
        as (s' & Hrun & Hkeep & mc & Hr & Hrest & Hdone).
      + etransitivity; eauto.
      + apply lookup_insert_eq.
      + intros; apply lookup_empty.
      + exists s', mc. split; [exact Hrun|]. split; [exact Hkeep|]. split; [exact Hr|].
        split; [|exact Hdone]. intros k Hk. rewrite (Hrest k Hk). apply lookup_empty. }
  destruct Hloop as (s' & mc & -> & Hkeep & Hr & Hrest & Hdone).
  cbn [forEach]. unfold ret.
  exists result, s', mc. split; [reflexivity|]. split.
  { apply map_subseteq_spec. intros c o Ho. apply Hkeep.
    - intros ->. congruence.
    - unfold s0. rewrite lookup_insert_ne; [exact Ho|]. intros <-. congruence. }
  split; [exact Hfresh|]. split; [exact Hr|]. split; [exact Hrest|].
  intros k x Hin. destruct (Hdone k x Hin) as (y & Hy & Hcopy).
  exists y. split; [exact Hy|].
  eapply copy_avoiding_mono; [exact Hcopy| |now intros c o _ Ho].
  unfold s0. now rewrite dom_insert.
Qed.

(** A plain object of tame options is copied, given room for as many calls
    as the store has objects. *)
Lemma tame_copies (base : heap) anc x :
  tame base anc x ->
  anc ⊆ dom base ->
  forall fuel, (size base < fuel + size anc)%nat ->
    isPlain base x = true -> copies_with base fuel x.
Proof.
  intros Ht.
  induction Ht as [anc v Hv|anc l elems Hl|anc l fields Hl Hc|anc l fields Hanc Hl Hc Hproto Hkids IH];
    intros Hsub fuel Hfuel Hplain.
  - destruct v as [| | | | |l]; try discriminate. now destruct (Hv l).
  - unfold isPlain in Hplain. now rewrite Hl in Hplain.
  - rewrite (isPlain_plain _ _ _ Hl) in Hplain. destruct Hc as [c Hc].
    rewrite Hc in Hplain. discriminate Hplain.
  - destruct (ancestors_bound _ _ _ _ _ Hsub Hanc Hl Hfuel) as (fuel' & -> & Hsub' & Hfuel').
    intros s e Hs He.
    destruct (mergeOptions_entries base fuel' (VRef l) (map_to_list fields))
      with (s := s) (e := e) as (c & s' & mc & Hrun & Hss' & Hfresh & Hr & Hrest & Hdone).
    + apply NoDup_fst_map_to_list.
    + intros Hin. apply list_elem_of_fmap in Hin as ([k x] & Hk & Hin). cbn in Hk. subst k.
      apply elem_of_map_to_list in Hin. congruence.
    + intros k x Hin. apply elem_of_map_to_list in Hin. split.
      * eexists. apply (Hkids k x Hin).
      * intros Hp. apply (IH k x Hin Hsub' fuel' Hfuel' Hp).
    + exact Hs.
    + exact He.
    + intros s1 Hs1. cbn [truthy negb own_entries].
      now rewrite (lookup_weaken _ _ _ _ Hl (transitivity Hs Hs1)).
    + exists c, s'. split; [exact Hrun|]. split; [exact Hss'|]. split; [exact Hfresh|].
      eapply copy_plain; [exact Hplain|exact Hl| |exact Hr| |].
      * now apply not_elem_of_dom.
      * intros k. split.
        -- intros Hk. apply Hrest. intros Hin.
           apply list_elem_of_fmap in Hin as ([k' x] & Hk' & Hin). cbn in Hk'. subst k'.
           apply elem_of_map_to_list in Hin. congruence.
        -- intros Hk. destruct (fields !! k) as [x|] eqn:Hx; [|reflexivity].
           destruct (Hdone k x) as (y & Hy & _); [now apply elem_of_map_to_list|]. congruence.
      * intros k x y Hx Hy.
        destruct (Hdone k x) as (y' & Hy' & Hcopy); [now apply elem_of_map_to_list|].
        assert (y' = y) as -> by congruence.
        eapply copy_avoiding_mono; [exact Hcopy| |now intros c0 o _ Ho].
        intros c0 Hc0. apply elem_of_union. now right.
Qed.

(** *** The entries of the list *)

Lemma numbered_keys elems : forall i k,
  k ∈ (numbered i elems).*1 -> exists j, (i <= j)%N /\ k = pretty j.
Proof.
  induction elems as [|e elems IH]; intros i k; cbn.
  - intros H. inversion H.
  - intros H. apply elem_of_cons in H as [->|H].
    + exists i. split; [lia|reflexivity].
    + destruct (IH _ _ H) as (j & Hj & ->). exists j. split; [lia|reflexivity].
Qed.

Lemma numbered_NoDup elems : forall i, NoDup (numbered i elems).*1.
Proof.
  induction elems as [|e elems IH]; intros i; cbn; constructor.
  - intros H. destruct (numbered_keys _ _ _ H) as (j & Hj & Heq).
    apply (inj pretty) in Heq. lia.
  - apply IH.
Qed.

Lemma own_entries_NoDup (h : heap) v : NoDup (own_entries h v).*1.
Proof.
  unfold own_entries. destruct v as [| | | | |l]; try constructor.
  destruct (h !! l) as [[fields|elems|proto fields]|]; try constructor.
  - apply NoDup_fst_map_to_list.
  - apply numbered_NoDup.
  - apply NoDup_fst_map_to_list.
Qed.

Lemma own_entries_stable (base s : heap) v :
  base ⊆ s -> (forall l, v = VRef l -> is_Some (base !! l)) ->
  own_entries s v = own_entries base v.
Proof.
  intros Hs Hv. unfold own_entries. destruct v as [| | | | |l]; try reflexivity.
  destruct (Hv l eq_refl) as [o Ho]. now rewrite Ho, (lookup_weaken _ _ _ _ Ho Hs).
Qed.

Lemma get_prop_stable (base s : heap) v k :
  base ⊆ s -> literal base v -> get_prop s v k = get_prop base v k.
Proof.
  intros Hs Hv. unfold get_prop. destruct v as [| | | | |l]; try reflexivity.
  destruct (Hv l eq_refl) as [[fields Ho]|[elems Ho]];
    now rewrite Ho, (lookup_weaken _ _ _ _ Ho Hs).
Qed.

Lemma to_string_primitive (h h' : heap) v :
  (forall l, v <> VRef l) -> to_string h v = to_string h' v.
Proof. intros Hv. destruct v as [| |[]| | |l]; try reflexivity. now destruct (Hv l). Qed.

Lemma renamed_proto copied :
  copied !! "__proto__" = None -> renamed copied !! "__proto__" = None.
Proof.
  intros H. unfold renamed. destruct (truthy _); [|exact H].
  rewrite lookup_delete_ne, lookup_insert_ne by discriminate. exact H.
Qed.

(** The renaming, on the copy at [c]. *)
Lemma rename_run {A} c (s : heap) mc (k : unit -> M heap A) :
  s !! c = Some (OPlain mc) ->
  (do licenseUrl <- read (VRef c) "licenseUrl";
   (if truthy licenseUrl then
      set_field c "serverURL" licenseUrl ;;
      delete_field c "licenseUrl"
    else ret tt) ;;
   k tt) s
  = k tt (<[c := OPlain (renamed mc)]> s).
Proof.
  intros Hc. unfold bind at 1. rewrite (read_ref _ _ _ _ Hc). unfold renamed. cbn zeta.
  destruct (truthy (default VUndefined (mc !! "licenseUrl"))).
  - unfold bind. rewrite (set_field_plain _ _ _ _ _ Hc) by discriminate.
    erewrite delete_field_plain by apply lookup_insert_eq.
    now rewrite insert_insert_eq.
  - unfold bind, ret. now rewrite insert_id.
Qed.

Lemma get_prop_returns (h : heap) v k :
  v <> VUndefined -> v <> VNull -> exists x, get_prop h v k = Normal x.
Proof.
  intros Hu Hn. unfold get_prop. destruct v as [| | | | |l]; try congruence; eauto.
  - destruct (String.eqb k "length"); eauto.
  - destruct (h !! l) as [[fields|elems|proto fields]|]; eauto.
    destruct (String.eqb k "length"); eauto.
Qed.

(** The assignment [output[name] = options]: it gives the object the
    property, or under [__proto__] the prototype. *)
Lemma set_output (s : heap) output proto m name c fc :
  s !! output = Some (output_object proto m) ->
  m !! "__proto__" = None ->
  (forall c0, proto = Some c0 ->
     c0 <> c /\ exists f0, s !! c0 = Some (OPlain f0) /\ f0 !! "__proto__" = None) ->
  s !! c = Some (OPlain fc) -> c <> output ->
  set_field output name (VRef c) s
  = (Normal tt,
     <[output := if String.eqb name "__proto__" then output_object (Some c) m
                 else output_object proto (<[name := VRef c]> m)]> s).
Proof.
  intros Hout Hm Hproto Hc Hne. unfold set_field. rewrite Hout.
  assert (Hchain : in_chain (S (size s)) s output c = false).
  { cbn [in_chain]. destruct (decide (c = output)); [contradiction|]. now rewrite Hc. }
  destruct proto as [c0|]; cbn [output_object] in Hout |- *.
  - destruct (Hproto c0 eq_refl) as (Hc0 & f0 & Hf0 & Hf0p).
    destruct (String.eqb_spec name "__proto__") as [->|Hname]; cbn [andb].
    + cbn [walk]. rewrite Hout, Hm, (walk_plain _ _ _ _ _ Hf0), Hf0p.
      unfold set_prototype. rewrite Hout.
      rewrite bool_decide_eq_false_2 by congruence. now rewrite Hchain.
    + reflexivity.
  - destruct (String.eqb_spec name "__proto__") as [->|Hname]; cbn [andb].
    + rewrite bool_decide_eq_true_2 by exact Hm.
      unfold set_prototype. rewrite Hout. now rewrite Hchain.
    + reflexivity.
Qed.

Lemma renamed_copy_mono (base : heap) avoid avoid' (h1 h2 : heap) original c :
  renamed_copy base avoid h1 original c ->
  avoid' ⊆ avoid ->
  (forall l o, l ∉ avoid -> h1 !! l = Some o -> h2 !! l = Some o) ->
  renamed_copy base avoid' h2 original c.
Proof.
  intros (Hc & copied & [Hdom Hcopies] & Hobj) Hav Hkeep.
  split; [intros Hin; now apply Hc, Hav|].
  exists copied. split; [split; [exact Hdom|]|now apply Hkeep].
  intros k x y Hx Hy. eapply copy_avoiding_mono; eauto.
Qed.

(** One round of the loop on a tame entry: the copy of its options is made
    and renamed, and the object under construction gets it. *)
Lemma add_key_system_tame (base s : heap) output proto m keySystem :
  tame_entry base keySystem ->
  base ⊆ s -> base !! output = None ->
  s !! output = Some (output_object proto m) ->
  m !! "__proto__" = None ->
  (forall c0, proto = Some c0 ->
     exists f0, s !! c0 = Some (OPlain f0) /\ f0 !! "__proto__" = None) ->
  exists s' c,
    add_key_system output keySystem s = (Normal tt, s') /\
    (forall l o, l <> output -> s !! l = Some o -> s' !! l = Some o) /\
    renamed_copy base (dom s) s' (snd (key_system base keySystem)) c /\
    s' !! output
    = Some (if String.eqb (fst (key_system base keySystem)) "__proto__"
            then output_object (Some c) m
            else output_object proto (<[fst (key_system base keySystem) := VRef c]> m)).
Proof.
  intros (Hu & Hn & Hlit & Hname & Hopts & Hnoproto & Htame) Hs Hfresh Hout Hm Hproto.
  unfold key_system, name_of, options_of in *. cbn [fst snd].
  destruct (get_prop_returns base keySystem "options" Hu Hn) as [opts Hgo].
  destruct (get_prop_returns base keySystem "name" Hu Hn) as [name Hgn].
  rewrite Hgo in Hopts, Hnoproto, Htame |- *. rewrite Hgn.
  assert (Hsize : (size base < size s)%nat).
  { rewrite <- !size_dom. apply subset_size. split.
    - now apply subseteq_dom.
    - intros Hsub. assert (Ho : output ∈ dom s) by (apply elem_of_dom; eauto).
      apply Hsub in Ho. apply elem_of_dom in Ho as [o Ho]. congruence. }
  unfold add_key_system.
  unfold bind at 1. destruct (alloc_fresh (OPlain ∅) s) as [-> He].
  set (e := fresh (dom s)) in *. set (s1 := <[e := OPlain ∅]> s).
  assert (Hs1 : s ⊆ s1) by now apply insert_subseteq.
  assert (Hb1 : base ⊆ s1) by (etransitivity; eauto).
  unfold bind at 1. unfold read at 1. unfold bind at 1. cbn [get_state].
  rewrite (get_prop_stable _ _ _ _ Hb1 Hlit), Hgo. cbn [lift_completion].
  unfold bind at 1. cbn [get_state].
  set (kvs := if negb (truthy opts) then [] else own_entries base opts).
  assert (Hfields : option_fields base opts = list_to_map kvs).
  { unfold option_fields, kvs. now destruct (truthy opts). }
  assert (Hnd : NoDup kvs.*1).
  { unfold kvs. destruct (negb (truthy opts)); [constructor|apply own_entries_NoDup]. }
  rewrite Hfields in Hnoproto, Htame.
  destruct (mergeOptions_entries base (size s1) opts kvs Hnd)
    with (s := s1) (e := e) as (c & s2 & mc & Hrun & H12 & Hc1 & Hc2 & Hrest & Hdone).
  { now apply not_elem_of_list_to_map_2. }
  { intros k x Hin. apply (elem_of_list_to_map_1 _ _ _ Hnd) in Hin.
    pose proof (Htame k x Hin) as Ht. split; [eauto|].
    apply (tame_copies base ∅ x Ht); [apply empty_subseteq|].
    rewrite size_empty. pose proof (map_subseteq_size _ _ Hs1). lia. }
  { exact Hb1. }
  { apply lookup_insert_eq. }
  { intros s' Hs'. unfold kvs. destruct (negb (truthy opts)); [reflexivity|].
    apply own_entries_stable; [etransitivity; eauto|exact Hopts]. }
  unfold bind at 1. rewrite Hrun.
  assert (Hcs : s !! c = None) by (eapply lookup_weaken_None; eauto).
  assert (Hco : c <> output) by (intros ->; congruence).
  (* the renaming *)
  rewrite (rename_run c s2 mc
             (fun _ => do name <- read keySystem "name";
                       do h <- get_state;
                       set_field output (to_string h name) (VRef c)) Hc2).
  set (s3 := <[c := OPlain (renamed mc)]> s2).
  assert (Hkeep : forall l o, s !! l = Some o -> s3 !! l = Some o).
  { intros l o Ho. unfold s3. rewrite lookup_insert_ne by (intros <-; congruence).
    eapply lookup_weaken; [|exact H12]. eapply lookup_weaken; eauto. }
  assert (Hb3 : base ⊆ s3).
  { apply map_subseteq_spec. intros l o Ho. apply Hkeep. eapply lookup_weaken; eauto. }
  unfold bind at 1. unfold read. unfold bind at 1. cbn [get_state].
  rewrite (get_prop_stable _ _ _ _ Hb3 Hlit), Hgn. cbn [lift_completion].
  unfold bind at 1. cbn [get_state].
  rewrite (to_string_primitive s3 base name) by (intros l; apply (Hname name l Hgn)).
  erewrite (set_output s3 output proto m (to_string base name) c (renamed mc)).
  - eexists _, c. split; [reflexivity|]. split; [|split].
    + intros l o Hl Ho. rewrite lookup_insert_ne by congruence. now apply Hkeep.
    + split; [now apply not_elem_of_dom|].
      exists mc. split; [split|].
      * intros k. rewrite Hfields. split.
        -- intros Hk. apply Hrest. now apply not_elem_of_list_to_map_2.
        -- intros Hk. apply not_elem_of_list_to_map_1. intros Hin.
           apply list_elem_of_fmap in Hin as ([k' x] & Hk' & Hin). cbn in Hk'. subst k'.
           destruct (Hdone k x Hin) as (y & Hy & _). congruence.
      * intros k x y Hx Hy. rewrite Hfields in Hx.
        apply elem_of_list_to_map_2 in Hx.
        destruct (Hdone k x Hx) as (y' & Hy' & Hcopy).
        assert (y' = y) as -> by congruence.
        eapply copy_avoiding_mono; [exact Hcopy| |].
        -- unfold s1. rewrite dom_insert. intros l Hl.
           apply elem_of_union. right. apply elem_of_union. now right.
        -- intros l o Hl Ho.
           assert (l <> c) by (intros ->; apply Hl, elem_of_union; left;
                               now apply elem_of_singleton).
           assert (l <> output).
           { intros ->. apply Hl, elem_of_union. right. apply elem_of_dom.
             unfold s1. rewrite lookup_insert_ne by (intros <-; congruence). eauto. }
           rewrite lookup_insert_ne by congruence. unfold s3.
           now rewrite lookup_insert_ne by congruence.
      * rewrite lookup_insert_ne by congruence. apply lookup_insert_eq.
    + apply lookup_insert_eq.
  - now apply Hkeep.
  - exact Hm.
  - intros c0 ->. destruct (Hproto c0 eq_refl) as (f0 & Hf0 & Hf0p). split.
    + intros ->. congruence.
    + exists f0. split; [now apply Hkeep|exact Hf0p].
  - apply lookup_insert_eq.
  - exact Hco.
Qed.

(** Whatever the entry and however the round ends, what was in the store
    before the call is left as it was. *)
Lemma add_key_system_frame (h s : heap) output keySystem r s' :
  h ⊆ s -> h !! output = None ->
  add_key_system output keySystem s = (r, s') -> h ⊆ s'.
Proof.
  intros Hs Hout. unfold add_key_system.
  unfold bind at 1. destruct (alloc_fresh (OPlain ∅) s) as [-> He].
  set (s1 := <[fresh (dom s) := OPlain ∅]> s).
  assert (Hs1 : h ⊆ s1) by (etransitivity; [exact Hs|now apply insert_subseteq]).
  unfold bind at 1.
  destruct (read keySystem "options" s1) as [[opts|e] s0] eqn:Hread;
    pose proof (read_frame _ _ _ _ _ Hread) as ->; [|now intros [= _ <-]].
  unfold bind at 1. cbn [get_state]. unfold bind at 1.
  destruct (mergeOptions _ _ s1) as [[c|e] s2] eqn:Hmerge.
  2: { intros [= _ <-]. etransitivity; [exact Hs1|]. eapply mergeOptions_frame, Hmerge. }
  pose proof (mergeOptions_frame _ _ _ _ _ Hmerge) as H12.
  pose proof (mergeOptions_fresh _ _ _ _ _ Hmerge) as ->.
  set (c := fresh (dom s1)) in *.
  assert (Hc : h !! c = None).
  { eapply lookup_weaken_None; [|exact Hs1]. apply not_elem_of_dom, is_fresh. }
  assert (Hs2 : h ⊆ s2) by (etransitivity; eauto).
  unfold bind at 1.
  destruct (read (VRef c) "licenseUrl" s2) as [[lic|e] s0] eqn:Hread2;
    pose proof (read_frame _ _ _ _ _ Hread2) as ->; [|now intros [= _ <-]].
  unfold bind at 1.
  assert (Hren : forall r3 s3,
            (if truthy lic
             then set_field c "serverURL" lic ;; delete_field c "licenseUrl"
             else ret tt) s2 = (r3, s3) -> h ⊆ s3).
  { intros r3 s3. destruct (truthy lic); [|unfold ret; now intros [= _ <-]].
    unfold bind.
    pose proof (set_field_keeps h c "serverURL" lic s2 Hs2 Hc) as Hk.
    destruct (set_field c "serverURL" lic s2) as [[[]|e] s4]; cbn in Hk.
    - intros Hd. apply (f_equal snd) in Hd. cbn in Hd. subst s3.
      now apply delete_field_keeps.
    - now intros [= _ <-]. }
  destruct ((if truthy lic
             then set_field c "serverURL" lic ;; delete_field c "licenseUrl"
             else ret tt) s2) as [[[]|e] s3] eqn:Hrename;
    pose proof (Hren _ _ eq_refl) as Hs3; [|now intros [= _ <-]].
  unfold bind at 1.
  destruct (read keySystem "name" s3) as [[name|e] s0] eqn:Hread3;
    pose proof (read_frame _ _ _ _ _ Hread3) as ->; [|now intros [= _ <-]].
  unfold bind at 1. cbn [get_state].
  intros Hset. apply (f_equal snd) in Hset. cbn in Hset. subst s'.
  now apply set_field_keeps.
Qed.

Lemma buildDashJSProtData_frame keySystemOptions (h : heap) r h' :
  buildDashJSProtData keySystemOptions h = (r, h') -> h ⊆ h'.
Proof.
  unfold buildDashJSProtData. unfold bind at 1.
  destruct (alloc_fresh (OPlain ∅) h) as [-> Hfresh].
  set (out := fresh (dom h)) in *.
  assert (Hbase : h ⊆ <[out := OPlain ∅]> h) by now apply insert_subseteq.
  unfold bind at 1. cbn [get_state].
  destruct (negb (truthy keySystemOptions) || _); [unfold ret; now intros [= _ <-]|].
  unfold bind at 1.
  assert (Hloop : forall l s r0 s', h ⊆ s ->
            forEach l (add_key_system out) s = (r0, s') -> h ⊆ s').
  { intros l s r0 s'. apply (forEach_invariant (fun s => h ⊆ s)).
    intros x s1 r1 s1' _ Hs1. now apply add_key_system_frame. }
  destruct (forEach _ _ _) as [[[]|e] s1] eqn:Hc;
    unfold ret; intros [= _ <-]; eapply Hloop; eauto.
Qed.

Lemma last_named_snoc name entries e :
  last_named name (entries ++ [e])
  = if String.eqb (fst e) name then Some (snd e) else last_named name entries.
Proof.
  induction entries as [|e' entries IH]; cbn; [reflexivity|].
  rewrite IH. destruct (String.eqb (fst e) name); [reflexivity|].
  reflexivity.
Qed.

(** The call on a list of tame entries. *)
Lemma buildDashJSProtData_tame (h : heap) la elems :
  h !! la = Some (OArray elems) ->
  Forall (tame_entry h) elems ->
  exists out h',
    buildDashJSProtData (VRef la) h = (Normal (VRef out), h') /\
    h !! out = None /\
    protection_data h (dom h) h' (map (key_system h) elems) out.
Proof.
  intros Hla Hall. unfold buildDashJSProtData. unfold bind at 1.
  destruct (alloc_fresh (OPlain ∅) h) as [-> Hfresh].
  set (out := fresh (dom h)) in *.
  assert (Hao : la <> out) by (intros ->; congruence).
  unfold bind at 1. cbn [get_state truthy negb orb isArray array_elems].
  rewrite lookup_insert_ne by congruence. rewrite Hla. cbn [negb].
  set (A := ({[out]} ∪ dom h : gset loc)).
  set (K := fun (done : list value) (s : heap) =>
              h ⊆ s /\
              exists proto m,
                s !! out = Some (output_object proto m) /\
                m !! "__proto__" = None /\
                (forall c0, proto = Some c0 ->
                   exists f0, s !! c0 = Some (OPlain f0) /\ f0 !! "__proto__" = None) /\
                (forall name, name <> "__proto__" ->
                   bound_to h A s m (map (key_system h) done) name) /\
                match last_named "__proto__" (map (key_system h) done) with
                | None => proto = None
                | Some original => exists c, proto = Some c /\ renamed_copy h A s original c
                end).
  destruct (forEach_prefix K (add_key_system out) elems)
    with (s := <[out := OPlain ∅]> h) as (s' & Hrun & Hs' & proto & m & Hout & Hm & _ & Hbound & Hp).
  - intros done keySystem rest s Hsplit (Hs & proto & m & Hout & Hm & Hproto & Hbound & Hp).
    assert (Ht : tame_entry h keySystem).
    { rewrite Forall_forall in Hall. apply Hall. rewrite Hsplit.
      apply elem_of_app. right. apply list_elem_of_here. }
    destruct (add_key_system_tame h s out proto m keySystem Ht Hs Hfresh Hout Hm Hproto)
      as (s1 & c & Hstep & Hkeep & Hcopy & Hout1).
    assert (HA : A ⊆ dom s).
    { unfold A. apply union_subseteq. split.
      - apply singleton_subseteq_l, elem_of_dom. eauto.
      - now apply subseteq_dom. }
    assert (Hcopy1 : renamed_copy h A s1 (key_system h keySystem).2 c).
    { eapply renamed_copy_mono; [exact Hcopy|exact HA|now intros l o _ Ho]. }
    assert (Hold : forall original c0,
              renamed_copy h A s original c0 -> renamed_copy h A s1 original c0).
    { intros original c0 Hc0. eapply renamed_copy_mono; [exact Hc0|reflexivity|].
      intros l o Hl Ho. apply Hkeep; [|exact Ho].
      intros ->. apply Hl. unfold A. apply elem_of_union. left. now apply elem_of_singleton. }
    assert (Hcobj : exists f0, s1 !! c = Some (OPlain f0) /\ f0 !! "__proto__" = None).
    { destruct Hcopy1 as (_ & copied & [Hdom _] & Hobj).
      eexists. split; [exact Hobj|]. apply renamed_proto, Hdom.
      destruct Ht as (_ & _ & _ & _ & _ & Hnp & _). exact Hnp. }
    exists s1. split; [exact Hstep|]. split.
    { apply map_subseteq_spec. intros l o Ho. apply Hkeep.
      - intros ->. congruence.
      - eapply lookup_weaken; eauto. }
    rewrite map_app. cbn [map].
    destruct (String.eqb_spec (key_system h keySystem).1 "__proto__") as [Hname|Hname].
    + (* the entry becomes the prototype *)
      exists (Some c), m. split; [exact Hout1|]. split; [exact Hm|]. split.
      { intros c0 [= <-]. exact Hcobj. }
      split.
      * intros name Hne. unfold bound_to. rewrite last_named_snoc.
        rewrite Hname. destruct (String.eqb_spec "__proto__" name) as [<-|_]; [now destruct Hne|].
        specialize (Hbound name Hne). unfold bound_to in Hbound.
        destruct (last_named name _) as [original|]; [|exact Hbound].
        destruct Hbound as (c0 & Hc0 & Hrc). exists c0. split; [exact Hc0|]. now apply Hold.
      * rewrite last_named_snoc, Hname, String.eqb_refl.
        exists c. split; [reflexivity|exact Hcopy1].
    + (* the entry becomes a property *)
      exists proto, (<[(key_system h keySystem).1 := VRef c]> m).
      split; [exact Hout1|]. split; [now rewrite lookup_insert_ne|]. split.
      { intros c0 ->. destruct (Hproto c0 eq_refl) as (f0 & Hf0 & Hf0p).
        exists f0. split; [|exact Hf0p]. apply Hkeep; [|exact Hf0].
        intros ->. cbn in Hout. congruence. }
      split.
      * intros name Hne. unfold bound_to. rewrite last_named_snoc.
        destruct (String.eqb_spec (key_system h keySystem).1 name) as [<-|Hother].
        -- exists c. split; [apply lookup_insert_eq|exact Hcopy1].
        -- rewrite lookup_insert_ne by exact Hother.
           specialize (Hbound name Hne). unfold bound_to in Hbound.
           destruct (last_named name _) as [original|]; [|exact Hbound].
           destruct Hbound as (c0 & Hc0 & Hrc). exists c0. split; [exact Hc0|]. now apply Hold.
      * rewrite last_named_snoc.
        destruct (String.eqb_spec (key_system h keySystem).1 "__proto__") as [Heq|_];
          [contradiction|].
        destruct (last_named "__proto__" _) as [original|]; [|exact Hp].
        destruct Hp as (c0 & Hc0 & Hrc). exists c0. split; [exact Hc0|]. now apply Hold.
  - split; [now apply insert_subseteq|].
    exists None, ∅. split; [apply lookup_insert_eq|]. split; [apply lookup_empty|].
    split; [discriminate|]. split; [|reflexivity].
    intros name _. unfold bound_to. cbn. apply lookup_empty.
  - unfold bind at 1. rewrite Hrun. unfold ret.
    exists out, s'. split; [reflexivity|]. split; [exact Hfresh|].
    assert (HA : dom h ⊆ A) by (unfold A; intros l Hl; apply elem_of_union; now right).
    exists m. split; [|split; [exact Hm|]].
    + intros name Hne. specialize (Hbound name Hne). unfold bound_to in *.
      destruct (last_named name _) as [original|]; [|exact Hbound].
      destruct Hbound as (c0 & Hc0 & Hrc). exists c0. split; [exact Hc0|].
      eapply renamed_copy_mono; [exact Hrc|exact HA|now intros l o _ Ho].
    + destruct (last_named "__proto__" _) as [original|].
      * destruct Hp as (c0 & -> & Hrc). exists c0. split; [exact Hout|].
        eapply renamed_copy_mono; [exact Hrc|exact HA|now intros l o _ Ho].
      * subst proto. exact Hout.
Qed.

(** An entry of the usual form is tame: an object literal with a string for
    name and an object literal of tame data for options. *)
Lemma tame_entry_literal (h : heap) le entry name lo options :
  h !! le = Some (OPlain entry) ->
  entry !! "name" = Some (VStr name) ->
  entry !! "options" = Some (VRef lo) ->
  h !! lo = Some (OPlain options) ->
  options !! "__proto__" = None ->
  (forall k x, options !! k = Some x -> tame h ∅ x) ->
  tame_entry h (VRef le) /\ key_system h (VRef le) = (name, options).
Proof.
  intros Hle Hname Hopts Hlo Hproto Htame.
  assert (Ho : options_of h (VRef le) = VRef lo).
  { unfold options_of, get_prop. now rewrite Hle, Hopts. }
  assert (Hf : option_fields h (VRef lo) = options).
  { unfold option_fields, own_entries. cbn [truthy]. rewrite Hlo.
    apply list_to_map_to_list. }
  split.
  - unfold tame_entry. rewrite Ho, Hf.
    split; [discriminate|]. split; [discriminate|]. split; [|split; [|split; [|split]]].
    + intros l [= <-]. left. eauto.
    + intros n l. unfold get_prop. rewrite Hle, Hname. cbn. now intros [= <-].
    + intros l [= <-]. eauto.
    + exact Hproto.
    + exact Htame.
  - unfold key_system, name_of. rewrite Ho, Hf. unfold get_prop.
    now rewrite Hle, Hname.
Qed.

(** C2, as amended.  [buildDashJSProtData] returns [null] for a value that
    is falsy or not an array.  Whatever it is given and however it ends,
    every object that was in the store before is the same after: the list
    and its entries are not mutated.  On a list of tame entries (any values
    but [null] and [undefined], with a name that is no object and options
    that are data as JSON has it: no property called [__proto__], no object
    literal nested in itself) it returns a new object.  That object has one
    property for every name of the list but [__proto__], and no other; the
    property holds a new object, the copy of the options of the last entry
    of that name, in which [serverURL] has taken the value of [licenseUrl]
    and [licenseUrl] is gone when [licenseUrl] was truthy, and which is a
    plain copy when [licenseUrl] was absent or falsy.  The copy has the
    properties of the options, those that hold a plain object holding a copy
    of it made in the same way, the others what the options hold.  An entry
    called [__proto__] gives no property: the copy of its options becomes
    the prototype of the object. *)
Theorem buildDashJSProtData_spec :
  (forall v (h : heap),
      truthy v = false \/ isArray h v = false ->
      exists h', buildDashJSProtData v h = (Normal VNull, h') /\ h ⊆ h') /\
  (forall v (h : heap) r h',
      buildDashJSProtData v h = (r, h') ->
      forall l o, h !! l = Some o -> h' !! l = Some o) /\
  (forall (h : heap) la elems,
      h !! la = Some (OArray elems) ->
      Forall (tame_entry h) elems ->
      exists out h',
        buildDashJSProtData (VRef la) h = (Normal (VRef out), h') /\
        h !! out = None /\
        protection_data h (dom h) h' (map (key_system h) elems) out).
Proof.
  split; [|split].
  - intros v h Hv.
    assert (Hcond : negb (truthy v) || negb (isArray (<[fresh (dom h) := OPlain ∅]> h) v) = true).
    { destruct Hv as [->|Hv]; [reflexivity|].
      apply orb_true_iff. right. apply negb_true_iff.
      unfold isArray in *. destruct v as [| | | | |l]; try reflexivity.
      destruct (decide (l = fresh (dom h))) as [->|Hne].
      - now rewrite lookup_insert_eq.
      - now rewrite lookup_insert_ne by congruence. }
    unfold buildDashJSProtData, bind, alloc, get_state. rewrite Hcond.
    eexists. split; [reflexivity|].
    apply insert_subseteq, not_elem_of_dom, is_fresh.
  - intros v h r h' Hrun l o Hl.
    eapply lookup_weaken; [exact Hl|]. eapply buildDashJSProtData_frame, Hrun.
  - intros h la elems Hla Hall. now apply buildDashJSProtData_tame.
Qed.

(** The claim as written fails on an entry whose [licenseUrl] is the empty
    string: the key is present, and it is neither renamed nor removed. *)
Lemma buildDashJSProtData_counterexample :
  ~ (forall (h : heap) la elems r h',
       h !! la = Some (OArray elems) ->
       Forall (tame_entry h) elems ->
       buildDashJSProtData (VRef la) h = (Normal r, h') ->
       exists out m, r = VRef out /\ h' !! out = Some (OPlain m) /\
         forall e, In e elems ->
           exists c mc, m !! fst (key_system h e) = Some (VRef c) /\
             h' !! c = Some (OPlain mc) /\
             forall url, snd (key_system h e) !! "licenseUrl" = Some url ->
                         mc !! "serverURL" = Some url /\ mc !! "licenseUrl" = None).
Proof.
  intros H.
  set (fo := ({[ "licenseUrl" := VStr EmptyString ]} : gmap string value)).
  set (h := ({[ 1%positive := OArray [VRef 2%positive];
                2%positive := OPlain {[ "name" := VStr "com.widevine.alpha";
                                        "options" := VRef 3%positive ]};
                3%positive := OPlain fo ]} : heap)).
  destruct (tame_entry_literal h 2%positive
              {[ "name" := VStr "com.widevine.alpha"; "options" := VRef 3%positive ]}
              "com.widevine.alpha" 3%positive fo) as [Ht Hk]; try reflexivity.
  { intros k x Hx. apply lookup_singleton_Some in Hx as [_ <-].
    apply tame_primitive. discriminate. }
  destruct (buildDashJSProtData (VRef 1%positive) h) as [[r|e] h'] eqn:Hrun;
    [|vm_compute in Hrun; discriminate Hrun].
  destruct (H h 1%positive [VRef 2%positive] r h' eq_refl
              ltac:(constructor; [exact Ht|constructor]) Hrun)
    as (out & m & -> & Hout & Hall).
  destruct (Hall (VRef 2%positive) (or_introl eq_refl)) as (c & mc & Hc & Hmc & Hurl).
  rewrite Hk in Hc, Hurl. cbn [fst snd] in Hc, Hurl.
  destruct (Hurl (VStr EmptyString) eq_refl) as [Hserver _].
  vm_compute in Hrun. injection Hrun as <- <-.
  vm_compute in Hout. injection Hout as <-.
  vm_compute in Hc. injection Hc as <-.
  vm_compute in Hmc. injection Hmc as <-.
  vm_compute in Hserver. discriminate Hserver.
Qed.

(** ** The source handler *)


(** Adding objects to a store does not change what a value leads to, when
    everything it leads to is in the store. *)
Lemma reachable_extend (h1 h2 : heap) v l :
  h1 ⊆ h2 ->
  (forall l', reachable h1 v l' -> is_Some (h1 !! l')) ->
  reachable h2 v l -> reachable h1 v l.
Proof.
  intros Hsub Hclosed Hr.
  induction Hr as [l|l o x l' Hl Hx Hr IH|l proto fields l' Hl Hr IH].
  - constructor.
  - destruct (Hclosed l (reach_here _ _)) as [o1 Hl1].
    assert (o = o1) as ->.
    { pose proof (lookup_weaken _ _ _ _ Hl1 Hsub). congruence. }
    eapply reach_inside; [exact Hl1 | exact Hx |].
    apply IH. intros l'' Hr''. apply Hclosed.
    eapply reach_inside; eauto.
  - destruct (Hclosed l (reach_here _ _)) as [o1 Hl1].
    assert (o1 = ODerived (Some proto) fields) as ->.
    { pose proof (lookup_weaken _ _ _ _ Hl1 Hsub). congruence. }
    eapply reach_proto; [exact Hl1|].
    apply IH. intros l'' Hr''. apply Hclosed.
    eapply reach_proto; eauto.
Qed.

Lemma reachable_primitive h v l :
  reachable h v l -> exists l0, v = VRef l0.
Proof. intros []; eauto. Qed.

Lemma fresh_in_extend (h h1 h2 : heap) v :
  h ⊆ h1 -> fresh_in h1 h2 v -> fresh_in h h2 v.
Proof.
  intros H01 Hf l Hr. destruct (Hf l Hr) as [Hn Hs].
  split; [eapply lookup_weaken_None; eauto | exact Hs].
Qed.

Lemma fresh_in_later (h h1 h2 : heap) v :
  h1 ⊆ h2 -> fresh_in h h1 v -> fresh_in h h2 v.
Proof.
  intros H12 Hf l Hr.
  assert (Hr1 : reachable h1 v l).
  { eapply reachable_extend; [exact H12| |exact Hr]. intros l' Hl'. now apply Hf. }
  destruct (Hf l Hr1) as [Hn [o Ho]]. split; [exact Hn|].
  exists o. eapply lookup_weaken; eauto.
Qed.

Lemma fresh_in_alloc (h h2 : heap) o :
  h ⊆ h2 ->
  (forall proto fields, o <> ODerived proto fields) ->
  (forall x, holds o x -> fresh_in h h2 x) ->
  fresh_in h (<[fresh (dom h2) := o]> h2) (VRef (fresh (dom h2))).
Proof.
  intros Hsub Hliteral Hheld.
  assert (Hf : h2 !! fresh (dom h2) = None) by apply not_elem_of_dom, is_fresh.
  set (l0 := fresh (dom h2)) in *.
  assert (Hext : h2 ⊆ <[l0 := o]> h2) by now apply insert_subseteq.
  intros l Hr. remember (VRef l0) as v eqn:Hv.
  destruct Hr as [l|l o' x l' Hl Hx Hr|l proto fields l' Hl Hr]; injection Hv as ->.
  - split; [eapply lookup_weaken_None; eauto|]. rewrite lookup_insert_eq. eauto.
  - rewrite lookup_insert_eq in Hl. injection Hl as <-.
    eapply fresh_in_later; [exact Hext | apply Hheld, Hx | exact Hr].
  - rewrite lookup_insert_eq in Hl. injection Hl as ->. now destruct (Hliteral (Some proto) fields).
Qed.

Lemma for_all_heap {A B} (f : A -> M heap B) (Q : heap -> heap -> B -> Prop) items :
  (forall (h h1 h2 : heap) y, h ⊆ h1 -> Q h1 h2 y -> Q h h2 y) ->
  (forall (h h1 h2 : heap) y, h1 ⊆ h2 -> Q h h1 y -> Q h h2 y) ->
  Forall (fun x => forall (h : heap) r h', f x h = (r, h') ->
                     h ⊆ h' /\ exists y, r = Normal y /\ Q h h' y) items ->
  forall (h : heap) r h',
    for_all f items h = (r, h') ->
    h ⊆ h' /\ exists ys, r = Normal ys /\ Forall (Q h h') ys.
Proof.
  intros Hbase Hlater Hall.
  induction Hall as [|x rest Hx _ IH]; intros h r h'; cbn [for_all].
  - unfold ret. intros [= <- <-]. split; [reflexivity|]. exists []. split; [reflexivity|constructor].
  - unfold bind at 1. destruct (f x h) as [rx hx] eqn:Hfx.
    destruct (Hx _ _ _ Hfx) as (Hsub & y & -> & Hy).
    unfold bind at 1.
    destruct (for_all f rest hx) as [rr hr] eqn:Hrest.
    destruct (IH _ _ _ Hrest) as (Hsub' & ys & -> & Hys).
    unfold ret. intros [= <- <-]. split; [etransitivity; eauto|].
    exists (y :: ys). split; [reflexivity|]. constructor.
    + eapply Hlater; eauto.
    + eapply Forall_impl; [exact Hys|]. intros z Hz. eapply Hbase; eauto.
Qed.

Lemma revive_fresh j : forall (h : heap) r h',
  revive j h = (r, h') ->
  h ⊆ h' /\ exists v, r = Normal v /\ fresh_in h h' v.
Proof.
  induction j as [|b|n|s|items IH|members IH] using json_nested_ind;
    intros h r h'; cbn [revive].
  1-4: unfold ret; intros [= <- <-]; (split; [reflexivity|]);
       eexists; (split; [reflexivity|]);
       intros l Hr; apply reachable_primitive in Hr as [l0 Hl0]; discriminate.
  - unfold bind at 1. destruct (for_all revive items h) as [r1 h1] eqn:Hrun.
    destruct (for_all_heap revive fresh_in items) with (h := h) (r := r1) (h' := h1)
      as (Hsub & elems & -> & Hf); [| |exact IH|exact Hrun|].
    { intros h0 h2 h3 y H02 Hq. eapply fresh_in_extend; [exact H02|exact Hq]. }
    { intros h0 h2 h3 y. apply fresh_in_later. }
    unfold bind at 1. destruct (alloc_fresh (OArray elems) h1) as [-> Hfr].
    unfold ret. intros [= <- <-].
    split; [etransitivity; [exact Hsub|now apply insert_subseteq]|].
    eexists. split; [reflexivity|]. apply fresh_in_alloc; [exact Hsub|discriminate|].
    intros x Hx. cbn in Hx. rewrite Forall_forall in Hf. apply Hf, list_elem_of_In, Hx.
  - unfold bind at 1.
    set (f := fun m : string * json => do v <- revive (snd m); ret (fst m, v)) in *.
    destruct (for_all f members h) as [r1 h1] eqn:Hrun.
    destruct (for_all_heap f (fun h0 h2 kv => fresh_in h0 h2 (snd kv)) members)
      with (h := h) (r := r1) (h' := h1) as (Hsub & fields & -> & Hf); [| | |exact Hrun|].
    { intros h0 h2 h3 y H02 Hq. eapply fresh_in_extend; [exact H02|exact Hq]. }
    { intros h0 h2 h3 y. apply fresh_in_later. }
    { eapply Forall_impl; [exact IH|]. intros m Hm h0 r0 h0'. unfold f, bind.
      destruct (revive (snd m) h0) as [rv hv] eqn:Hv.
      destruct (Hm _ _ _ Hv) as (Hsub & v & -> & Hfv).
      unfold ret. intros [= <- <-]. split; [exact Hsub|]. eauto. }
    unfold bind at 1. destruct (alloc_fresh (OPlain (list_to_map (rev fields))) h1) as [-> Hfr].
    unfold ret. intros [= <- <-].
    split; [etransitivity; [exact Hsub|now apply insert_subseteq]|].
    eexists. split; [reflexivity|]. apply fresh_in_alloc; [exact Hsub|discriminate|].
    intros x [k Hk]. apply elem_of_list_to_map_2 in Hk.
    rewrite Forall_forall in Hf. apply (Hf (k, x)).
    apply list_elem_of_In, in_rev, list_elem_of_In. exact Hk.
Qed.

Lemma json_copy_fresh source (h : heap) r h' :
  json_copy source h = (r, h') ->
  h ⊆ h' /\ forall v, r = Normal v -> fresh_in h h' v.
Proof.
  unfold json_copy, bind. cbn [get_state].
  destruct (stringify (S (size h)) h source) as [[j|]|e].
  - intros Hrun. destruct (revive_fresh _ _ _ _ Hrun) as (Hsub & v & -> & Hf).
    split; [exact Hsub|]. now intros v' [= <-].
  - unfold throw. intros [= <- <-]. split; [reflexivity|discriminate].
  - unfold throw. intros [= <- <-]. split; [reflexivity|discriminate].
Qed.

(** Hooks that work on their argument leave alone what the argument is
    apart from, and what they hand on is apart from it too. *)
Lemma run_hooks_apart (base : heap) fs :
  Forall (fun f => confined (hook_fn f)) fs ->
  forall v (h : heap) r h',
    apart base h v -> run_hooks fs v h = (r, h') ->
    base ⊆ h' /\ forall v', r = Normal v' -> apart base h' v'.
Proof.
  intros Hall. induction Hall as [|f fs Hf _ IH]; intros v h r h' Hap; cbn [run_hooks].
  - unfold ret. intros [= <- <-]. split; [apply Hap|]. now intros v' [= <-].
  - unfold bind. destruct (hook_fn f v h) as [r1 h1] eqn:Hrun.
    destruct (Hf _ _ _ _ Hrun) as [Hkeep Hret]. destruct Hap as [Hsub Hfar].
    assert (Hsub1 : base ⊆ h1).
    { apply map_subseteq_spec. intros l o Hl. apply Hkeep.
      - eapply lookup_weaken; eauto.
      - intros Hr. specialize (Hfar l Hr). congruence. }
    destruct r1 as [v1|e].
    + apply IH. split; [exact Hsub1|]. intros l Hr.
      destruct (Hret v1 l eq_refl Hr) as [Hold|Hnew].
      * now apply Hfar.
      * eapply lookup_weaken_None; eauto.
    + intros [= <- <-]. split; [exact Hsub1|discriminate].
Qed.

Lemma on_store_run {A} (c : M heap A) w r h :
  c (store w) = (r, h) -> on_store c w = (r, with_store (fun _ => h) w).
Proof. intros H. unfold on_store. now rewrite H. Qed.

Lemma canHandleKeySystems_frame env source w r w' :
  Forall (fun f => confined (hook_fn f))
         (option_list (updateSourceData w) ++ default [] (hooks_ w !! "updatesource")) ->
  canHandleKeySystems env source w = (r, w') ->
  store w ⊆ store w'.
Proof.
  intros Hconf. unfold canHandleKeySystems. unfold bind at 1.
  destruct (json_copy source (store w)) as [r1 h1] eqn:Hcopy.
  rewrite (on_store_run _ _ _ _ Hcopy).
  destruct (json_copy_fresh _ _ _ _ Hcopy) as [Hsub Hfresh].
  destruct r1 as [c|e]; [|intros [= _ <-]; exact Hsub].
  set (w1 := with_store (fun _ => h1) w).
  unfold bind at 1.
  pose proof (updated_source_store c w1) as Hhooks.
  rewrite <- run_hooks_in_order in Hhooks.
  destruct (updated_source c w1) as [r2 w2]. cbn [fst snd] in Hhooks.
  symmetry in Hhooks.
  assert (Hap : apart (store w) h1 c).
  { split; [exact Hsub|]. intros l Hr. now apply (Hfresh c eq_refl l). }
  destruct (run_hooks_apart (store w) _ Hconf _ _ _ _ Hap Hhooks) as [Hsub2 _].
  destruct r2 as [s|e]; [|intros [= _ <-]; exact Hsub2].
  unfold bind at 1.
  destruct (read s "keySystemOptions" (store w2)) as [r3 h3] eqn:Hread.
  pose proof (read_frame _ _ _ _ _ Hread) as ->.
  rewrite (on_store_run _ _ _ _ Hread).
  destruct r3 as [kso|e]; [|intros [= _ <-]; exact Hsub2].
  destruct (truthy kso && _); unfold ret; intros [= _ <-]; exact Hsub2.
Qed.

Lemma canHandleSource_frame env source w r w' :
  Forall (fun f => confined (hook_fn f))
         (option_list (updateSourceData w) ++ default [] (hooks_ w !! "updatesource")) ->
  canHandleSource env source w = (r, w') ->
  store w ⊆ store w'.
Proof.
  intros Hconf. unfold canHandleSource. unfold bind at 1.
  destruct (canHandleKeySystems env source w) as [r1 w1] eqn:Hks.
  pose proof (canHandleKeySystems_frame _ _ _ _ _ Hconf Hks) as Hsub.
  destruct r1 as [handles|e]; [|intros [= _ <-]; exact Hsub].
  destruct (negb handles); [unfold ret; intros [= _ <-]; exact Hsub|].
  unfold bind at 1.
  destruct (read source "type" (store w1)) as [r2 h2] eqn:Hread.
  pose proof (read_frame _ _ _ _ _ Hread) as ->.
  rewrite (on_store_run _ _ _ _ Hread).
  destruct r2 as [type|e]; [|intros [= _ <-]; exact Hsub].
  unfold bind at 1. unfold on_store at 1. cbn [get_state store with_store].
  destruct (negb (String.eqb (canPlayType (store w1) type) EmptyString));
    [unfold ret; intros [= _ <-]; exact Hsub|].
  unfold bind at 1.
  match goal with |- context [on_store (read source "src") ?w2] =>
    destruct (read source "src" (store w2)) as [r3 h3] eqn:Hread2;
    pose proof (read_frame _ _ _ _ _ Hread2) as ->;
    rewrite (on_store_run _ _ _ _ Hread2)
  end.
  destruct r3 as [src|e]; [|intros [= _ <-]; exact Hsub].
  unfold bind at 1. unfold on_store at 1. cbn [get_state store with_store].
  destruct (dashExtRE_test (store w1) src); unfold ret; intros [= _ <-]; exact Hsub.
Qed.

(** The probe of the key systems is the copy through JSON followed by the
    hooks on the copy. *)
Lemma canHandleKeySystems_on_copy env source w :
  (fst (canHandleKeySystems env source w), store (snd (canHandleKeySystems env source w)))
  = probe_key_systems env (source_hooks w) source (store w).
Proof.
  unfold canHandleKeySystems, probe_key_systems, source_hooks.
  destruct (json_copy source (store w)) as [[copy|e] h1] eqn:Hcopy.
  2: { rewrite (bind_throw _ _ _ _ _ Hcopy),
         (bind_throw _ _ _ _ _ (on_store_run _ _ _ _ Hcopy)). reflexivity. }
  rewrite (bind_normal _ _ _ _ _ Hcopy),
    (bind_normal _ _ _ _ _ (on_store_run _ _ _ _ Hcopy)).
  set (w1 := with_store (fun _ => h1) w).
  pose proof (updated_source_store copy w1) as Hhooks.
  change (updateSourceData w1) with (updateSourceData w) in Hhooks.
  change (hooks_ w1) with (hooks_ w) in Hhooks.
  change (store w1) with h1 in Hhooks.
  destruct (updated_source copy w1) as [r2 w2] eqn:Hupd. cbn [fst snd] in Hhooks.
  symmetry in Hhooks. destruct r2 as [s|e].
  2: { rewrite (bind_throw _ _ _ _ _ Hhooks), (bind_throw _ _ _ _ _ Hupd). reflexivity. }
  rewrite (bind_normal _ _ _ _ _ Hhooks), (bind_normal _ _ _ _ _ Hupd).
  destruct (read s "keySystemOptions" (store w2)) as [r3 h3] eqn:Hread.
  pose proof (read_frame _ _ _ _ _ Hread) as ->.
  destruct r3 as [kso|e].
  2: { rewrite (bind_throw _ _ _ _ _ Hread),
         (bind_throw _ _ _ _ _ (on_store_run _ _ _ _ Hread)). cbn [fst snd store with_store].
       reflexivity. }
  rewrite (bind_normal _ _ _ _ _ Hread),
    (bind_normal _ _ _ _ _ (on_store_run _ _ _ _ Hread)).
  destruct (truthy kso && _); reflexivity.
Qed.

(** C10, as amended.  The probe copies the source through JSON and runs the
    deprecated [updateSourceData] and the [updatesource] hooks on the copy,
    in order, each one on what the one before it returned; its answer and
    the store it leaves are those of that run.  The copy shares no object
    with the store as the caller left it.  When every hook works on its
    argument, changing nothing the argument does not lead to and returning
    nothing but what the argument led to or the hook created, every object
    that was in the store before the probe is the same after it, however
    the probe ends: the caller's source is not mutated. *)
Theorem probe_preserves_source :
  (forall env source w,
      (fst (canHandleKeySystems env source w),
       store (snd (canHandleKeySystems env source w)))
      = probe_key_systems env (source_hooks w) source (store w)) /\
  (forall source (h : heap) copy h1,
      json_copy source h = (Normal copy, h1) ->
      h ⊆ h1 /\ forall l, reachable h1 copy l -> h !! l = None) /\
  (forall env source w,
      Forall (fun f => confined (hook_fn f)) (source_hooks w) ->
      (forall r w',
          canHandleKeySystems env source w = (r, w') ->
          forall l o, store w !! l = Some o -> store w' !! l = Some o) /\
      (forall r w',
          canHandleSource env source w = (r, w') ->
          forall l o, store w !! l = Some o -> store w' !! l = Some o)).
Proof.
  split; [exact canHandleKeySystems_on_copy|]. split.
  - intros source h copy h1 Hcopy.
    destruct (json_copy_fresh _ _ _ _ Hcopy) as [Hsub Hfresh].
    split; [exact Hsub|]. intros l Hr. now apply (Hfresh copy eq_refl l).
  - intros env source w Hconf. split.
    + intros r w' Hrun l o Hl. eapply lookup_weaken; [exact Hl|].
      eapply canHandleKeySystems_frame; eauto.
    + intros r w' Hrun l o Hl. eapply lookup_weaken; [exact Hl|].
      eapply canHandleSource_frame; eauto.
Qed.

(** The claim as written fails: what the probe leaves of the caller's source
    does depend on the hooks.  A hook that returns the source of the caller
    instead of its argument hands it to the hook after it, and what that
    one writes is written on the caller's object. *)
Lemma probe_preserves_source_counterexample :
  ~ (forall env source w r w',
       canHandleSource env source w = (r, w') ->
       forall l o, store w !! l = Some o -> store w' !! l = Some o).
Proof.
  intros H.
  set (w := with_updatesource [returns_original; stamp] (quiet_world movie_store)).
  specialize (H no_eme (VRef 1%positive) w _ _ (surjective_pairing _) 1%positive
                (OPlain (<["src" := VStr "movie.mpd"]>
                           (<["type" := VStr "application/dash+xml"]> ∅)))
                eq_refl).
  vm_compute in H. discriminate H.
Qed.

Lemma with_store_same w : with_store (fun _ => store w) w = w.
Proof. now destruct w. Qed.

Lemma on_store_read base k w :
  on_store (read base k) w = (get_prop (store w) base k, w).
Proof.
  unfold on_store, read, bind, get_state, lift_completion.
  destruct (get_prop (store w) base k); cbn; now rewrite with_store_same.
Qed.









(** Writing a value that is not a reference into an object adds nothing to
    what can be reached. *)
Lemma reachable_set_primitive (h : heap) l o o' k x v l2 :
  h !! l = Some o ->
  (exists fields, o = OPlain fields /\ o' = OPlain (<[k := x]> fields)) \/
  (exists proto fields, o = ODerived proto fields /\
                        o' = ODerived proto (<[k := x]> fields)) ->
  (forall l', x <> VRef l') ->
  reachable (<[l := o']> h) v l2 ->
  reachable h v l2.
Proof.
  intros Hl Ho Hx Hr.
  induction Hr as [l0|l0 o0 y l' Hl0 Hy Hr IH|l0 proto0 fields0 l' Hl0 Hr IH].
  - constructor.
  - destruct (decide (l0 = l)) as [->|Hne].
    + rewrite lookup_insert_eq in Hl0. injection Hl0 as <-.
      assert (Hheld : holds o y).
      { destruct Ho as [(fields & -> & ->)|(proto & fields & -> & ->)];
          destruct Hy as [k' Hk']; (destruct (decide (k' = k)) as [->|Hk];
          [rewrite lookup_insert_eq in Hk'; injection Hk' as <-;
           apply reachable_primitive in IH as [l'' ->]; now destruct (Hx l'')
          |rewrite lookup_insert_ne in Hk' by congruence; exists k'; exact Hk']). }
      eapply reach_inside; [exact Hl | exact Hheld | exact IH].
    + rewrite lookup_insert_ne in Hl0 by congruence.
      eapply reach_inside; eauto.
  - destruct (decide (l0 = l)) as [->|Hne].
    + rewrite lookup_insert_eq in Hl0.
      destruct Ho as [(fields & -> & ->)|(proto & fields & -> & ->)]; [discriminate|].
      injection Hl0 as -> _. eapply reach_proto; [exact Hl|exact IH].
    + rewrite lookup_insert_ne in Hl0 by congruence.
      eapply reach_proto; eauto.
Qed.

Lemma stamp_confined : confined (hook_fn stamp).
Proof.
  intros v h r h'. cbn [hook_fn stamp].
  destruct v as [| | | | |l]; try (unfold ret; intros [= <- <-]; split;
    [intros; assumption | intros v' l0 [= <-] Hr; now left]).
  unfold bind, set_field, ret.
  destruct (h !! l) as [[fields|elems|proto fields]|] eqn:Hl; cbn; intros [= <- <-].
  - split.
    + intros l0 o Hl0 Hnr. rewrite lookup_insert_ne; [exact Hl0|].
      intros ->. apply Hnr. constructor.
    + intros v' l0 [= <-] Hr. left.
      eapply (reachable_set_primitive h l _ _ "stamped" (VBool true));
        [exact Hl | left; eauto | intros l'; discriminate | exact Hr].
  - split; [intros; assumption | intros v' l0 [= <-] Hr; now left].
  - split.
    + intros l0 o Hl0 Hnr. rewrite lookup_insert_ne; [exact Hl0|].
      intros ->. apply Hnr. constructor.
    + intros v' l0 [= <-] Hr. left.
      eapply (reachable_set_primitive h l _ _ "stamped" (VBool true));
        [exact Hl | right; eauto | intros l'; discriminate | exact Hr].
  - split; [intros; assumption | intros v' l0 [= <-] Hr; now left].
Qed.

(** ** The caption style overlay *)


Section tolerance.
Variable rt : css_runtime.
Variable base : list (nat * string * string).
Hypothesis rejects_rgba :
  forall e p v, rejects rt e p v = true -> rgba_write p v = true.

Lemma alike_ret {A} (a : A) : alike rt base (ret a) (ret a).
Proof. intros dR dP H. now split. Qed.

Lemma alike_throw {A} e : alike rt base (@throw page A e) (throw e).
Proof. intros dR dP H. now split. Qed.

Lemma alike_lift {A} (c : completion A) :
  alike rt base (lift_completion c) (lift_completion c).
Proof. intros dR dP H. now split. Qed.

Lemma alike_bind {A B} (cR cP : M page A) (kR kP : A -> M page B) :
  alike rt base cR cP -> (forall a, alike rt base (kR a) (kP a)) ->
  alike rt base (bind cR kR) (bind cP kP).
Proof.
  intros Hc Hk dR dP H. unfold bind.
  destruct (Hc dR dP H) as [Hr Hd].
  destruct (cR dR) as [rR dR'], (cP dP) as [rP dP']. cbn in Hr, Hd. subst rP.
  destruct rR as [a|e]; [now apply Hk|now split].
Qed.

Lemma alike_when (b : bool) (cR cP : M page unit) :
  alike rt base cR cP -> alike rt base (when b cR) (when b cP).
Proof. intros H. destruct b; [exact H|apply alike_ret]. Qed.

Lemma let_through_app l1 l2 :
  let_through rt (l1 ++ l2) = let_through rt l1 ++ let_through rt l2.
Proof. apply List.filter_app. Qed.

Lemma let_through_accepted e p v :
  rejects rt e p v = false -> let_through rt [(e, p, v)] = [(e, p, v)].
Proof. intros H. unfold let_through. cbn. now rewrite H. Qed.

Lemma let_through_rejected e p v :
  rejects rt e p v = true -> let_through rt [(e, p, v)] = [].
Proof. intros H. unfold let_through. cbn. now rewrite H. Qed.

(** An assignment that is not of an [rgba(...)] colour goes through under
    both browsers. *)
Lemma alike_assign e p v :
  rgba_write p v = false ->
  alike rt base (assign rt e p v) (assign (permissive rt) e p v).
Proof.
  intros Hw dR dP [(l & HP & HR) Hst]. unfold assign. cbn [rejects permissive].
  destruct (rejects rt e p v) eqn:Hrej.
  { apply rejects_rgba in Hrej. congruence. }
  cbn [fst snd styles applied]. split; [reflexivity|]. split.
  - exists (l ++ [(e, p, v)]). rewrite HP, HR, let_through_app, <- !app_assoc.
    split; [reflexivity|]. now rewrite let_through_accepted.
  - intros e' p' Hp'. cbn [styles].
    destruct (decide ((e, p) = (e', p'))) as [[= <- <-]|Hne].
    + now rewrite !lookup_insert_eq.
    + rewrite !lookup_insert_ne by congruence. now apply Hst.
Qed.

(** A guarded assignment ends normally under both browsers; where [rt]
    throws, the page under [rt] simply lacks it. *)
Lemma alike_tryUpdateStyle e p v :
  alike rt base (tryUpdateStyle rt e p v) (tryUpdateStyle (permissive rt) e p v).
Proof.
  intros dR dP [(l & HP & HR) Hst]. unfold tryUpdateStyle, assign.
  cbn [rejects permissive].
  destruct (rejects rt e p v) eqn:Hrej; cbn [fst snd styles applied];
    (split; [reflexivity|]); split.
  - exists (l ++ [(e, p, v)]). rewrite HP, HR, let_through_app, <- !app_assoc.
    split; [reflexivity|]. now rewrite let_through_rejected, app_nil_r.
  - intros e' p' Hp'. apply rejects_rgba in Hrej. unfold rgba_write in Hrej.
    apply andb_true_iff in Hrej as [Hcol _]. cbn [styles].
    rewrite lookup_insert_ne; [now apply Hst|].
    intros [= <- <-]. unfold colour_style in Hp'. congruence.
  - exists (l ++ [(e, p, v)]). rewrite HP, HR, let_through_app, <- !app_assoc.
    split; [reflexivity|]. now rewrite let_through_accepted.
  - intros e' p' Hp'. cbn [styles].
    destruct (decide ((e, p) = (e', p'))) as [[= <- <-]|Hne].
    + now rewrite !lookup_insert_eq.
    + rewrite !lookup_insert_ne by congruence. now apply Hst.
Qed.

Lemma alike_style_of e p :
  colour_style p = false -> alike rt base (style_of e p) (style_of e p).
Proof.
  intros Hp dR dP [Hl Hst]. unfold style_of. cbn. rewrite (Hst e p Hp).
  split; [reflexivity|]. now split.
Qed.

Lemma alike_forEach {A} (fR fP : A -> M page unit) l :
  (forall x, alike rt base (fR x) (fP x)) ->
  alike rt base (forEach l fR) (forEach l fP).
Proof.
  intros Hf. induction l as [|x l IH]; cbn [forEach].
  - apply alike_ret.
  - apply alike_bind; [apply Hf|]. intros _. exact IH.
Qed.

Lemma alike_removeStyle el :
  alike rt base (removeStyle rt el) (removeStyle (permissive rt) el).
Proof.
  induction el as [n t children IH] using element_nested_ind. cbn [removeStyle].
  apply alike_bind; [now apply alike_assign|]. intros _.
  apply alike_bind; [now apply alike_assign|]. intros _.
  induction IH as [|c rest Hc _ IHrest].
  - apply alike_ret.
  - apply alike_bind; [exact Hc|]. intros _. exact IHrest.
Qed.

Lemma plain_colour_write p c :
  plain_colour (Some c) = true -> rgba_write p c = false.
Proof.
  unfold plain_colour, rgba_write.
  change (default EmptyString (Some c)) with c. intros H.
  apply negb_true_iff in H. rewrite H. apply andb_false_r.
Qed.

Lemma alike_style_span o span parentNode :
  plain_colour (color o) = true ->
  plain_colour (backgroundColor o) = true ->
  alike rt base (style_span rt o span parentNode)
                (style_span (permissive rt) o span parentNode).
Proof.
  intros Hc Hb. unfold style_span.
  apply alike_bind; [now apply alike_assign|]. intros _.
  apply alike_bind.
  { apply alike_when. destruct (color o) as [c|]; [|now apply alike_assign].
    apply alike_assign. now apply plain_colour_write. }
  intros _. apply alike_bind.
  { apply alike_when. apply alike_bind; [apply alike_lift|].
    intros rule. apply alike_tryUpdateStyle. }
  intros _. apply alike_bind.
  { apply alike_when. destruct (backgroundColor o) as [c|]; [|now apply alike_assign].
    apply alike_assign. now apply plain_colour_write. }
  intros _. apply alike_bind.
  { apply alike_when. apply alike_bind; [apply alike_lift|].
    intros rule. apply alike_tryUpdateStyle. }
  intros _. apply alike_bind.
  { apply alike_when. destruct (set_number (windowOpacity o)); [|apply alike_throw].
    apply alike_bind; [apply alike_lift|]. intros rule. apply alike_tryUpdateStyle. }
  intros _. apply alike_bind.
  { apply alike_when. destruct (textShadow_for _); [now apply alike_assign|apply alike_ret]. }
  intros _. apply alike_bind.
  { apply alike_when. apply alike_bind; [now apply alike_style_of|]. intros fontSize.
    cbn [permissive].
    apply alike_bind; [now apply alike_assign|]. intros _.
    apply alike_bind; [now apply alike_assign|]. intros _.
    apply alike_bind; [now apply alike_assign|]. intros _.
    now apply alike_assign. }
  intros _. apply alike_when.
  destruct (String.eqb _ "small-caps"); now apply alike_assign.
Qed.

Lemma alike_updateStyle player_ captionDiv o :
  textTrackSettings player_ = Some o ->
  plain_colour (color o) = true ->
  plain_colour (backgroundColor o) = true ->
  alike rt base (updateStyle rt player_ captionDiv)
                (updateStyle (permissive rt) player_ captionDiv).
Proof.
  intros Ho Hc Hb. unfold updateStyle. rewrite Ho.
  apply alike_bind.
  { destruct captionDiv; [apply alike_ret|].
    destruct (display_firstChild player_); [apply alike_ret|apply alike_throw]. }
  intros [el|]; [|apply alike_ret].
  apply alike_bind; [apply alike_removeStyle|]. intros _.
  apply alike_forEach. intros sp. now apply alike_style_span.
Qed.

End tolerance.

(** C7, as amended.  Without caption settings on the player, and with
    settings but no caption node (none in the event and an empty overlay
    element), [updateStyle] returns and assigns nothing.  Assignments of the
    [rgba(...)] colours, which go through [tryUpdateStyle], may be rejected by
    the browser without consequence: when the browser throws on no other
    assignment (and the colours of the settings are not themselves
    [rgba(...)] values), [updateStyle] ends as it does in a browser that
    accepts everything, and the assignments that took effect are those of
    that browser less the rejected ones, in the same order, on every span. *)
Theorem updateStyle_tolerance :
  (forall rt player_ captionDiv d,
      textTrackSettings player_ = None ->
      updateStyle rt player_ captionDiv d = (Normal tt, d)) /\
  (forall rt player_ o d,
      textTrackSettings player_ = Some o ->
      display_firstChild player_ = Some None ->
      updateStyle rt player_ None d = (Normal tt, d)) /\
  (forall rt player_ captionDiv o d,
      (forall e p v, rejects rt e p v = true -> rgba_write p v = true) ->
      textTrackSettings player_ = Some o ->
      plain_colour (color o) = true ->
      plain_colour (backgroundColor o) = true ->
      fst (updateStyle rt player_ captionDiv d)
      = fst (updateStyle (permissive rt) player_ captionDiv d) /\
      exists l,
        applied (snd (updateStyle (permissive rt) player_ captionDiv d))
        = applied d ++ l /\
        applied (snd (updateStyle rt player_ captionDiv d))
        = applied d ++ let_through rt l).
Proof.
  split; [|split].
  - intros rt player_ captionDiv d Hs. unfold updateStyle. now rewrite Hs.
  - intros rt player_ o d Hs Hf. unfold updateStyle. now rewrite Hs, Hf.
  - intros rt player_ captionDiv o d Hrej Hs Hc Hb.
    destruct (alike_updateStyle rt (applied d) Hrej player_ captionDiv o Hs Hc Hb d d)
      as [Hr [Hl _]].
    + split; [|reflexivity]. exists []. cbn. now rewrite app_nil_r.
    + split; [exact Hr|exact Hl].
Qed.

(** The claim as written fails on an assignment made directly: a browser
    that throws on [span.style.color = '#f00'] makes [updateStyle] throw,
    where a browser that accepts everything lets it return. *)
Lemma updateStyle_counterexample :
  ~ (forall rt player_ captionDiv d,
       fst (updateStyle rt player_ captionDiv d)
       = fst (updateStyle (permissive rt) player_ captionDiv d)).
Proof.
  intros H.
  set (rt := {| rejects := fun _ p v => String.eqb p "color" && String.eqb v "#f00" |}).
  set (o := {| color := Some "#f00"; textOpacity := None; backgroundColor := None;
               backgroundOpacity := None; windowColor := None; windowOpacity := None;
               edgeStyle := None; fontPercent := None; fontFamily := None |}).
  specialize (H rt {| textTrackSettings := Some o; display_firstChild := Some None |}
                (Some (Element 0 "div" [Element 1 "span" []; Element 2 "span" []]))
                {| styles := ∅; applied := [] |}).
  vm_compute in H. discriminate H.
Qed.

(** ** The hook registry: removal *)

Lemma index_of_none f l :
  index_of f l = None -> Forall (fun g => hook_id g <> hook_id f) l.
Proof.
  induction l as [|g l IH]; cbn; intros H; [constructor|].
  destruct (Nat.eqb (hook_id g) (hook_id f)) eqn:Hg; [discriminate|].
  destruct (index_of f l); [discriminate|].
  constructor; [now apply Nat.eqb_neq|now apply IH].
Qed.

Lemma index_of_absent f l :
  Forall (fun g => hook_id g <> hook_id f) l -> index_of f l = None.
Proof.
  induction 1 as [|g l Hg _ IH]; cbn; [reflexivity|].
  apply Nat.eqb_neq in Hg. now rewrite Hg, IH.
Qed.

Lemma index_of_first f before g after :
  hook_id g = hook_id f ->
  Forall (fun g' => hook_id g' <> hook_id f) before ->
  index_of f (before ++ g :: after) = Some (length before).
Proof.
  intros Hg. induction 1 as [|g' l Hg' _ IH]; cbn.
  - apply Nat.eqb_eq in Hg. now rewrite Hg.
  - apply Nat.eqb_neq in Hg'. now rewrite Hg', IH.
Qed.

Lemma remove_at_middle {A} (before : list A) x after :
  remove_at (length before) (before ++ x :: after) = before ++ after.
Proof. induction before as [|y l IH]; cbn; [reflexivity|now rewrite IH]. Qed.

Lemma hooks_array type r :
  inherited type = false \/ is_Some (r !! type) ->
  hooks type None r
  = (Normal (Hooks (default [] (r !! type))), <[type := default [] (r !! type)]> r).
Proof.
  intros [Htype|[fs Hfs]]; [now apply hooks_lookup|].
  unfold hooks, bind, modify, get_state, ret. rewrite Hfs.
  rewrite bool_decide_eq_false_2, andb_false_r by discriminate. cbn.
  rewrite lookup_insert_eq, ?Hfs. reflexivity.
Qed.

Lemma hook_array type a r :
  inherited type = false \/ is_Some (r !! type) ->
  hook type (Some a) r
  = (Normal tt, <[type := concat_arg (default [] (r !! type)) a]> r).
Proof.
  intros Htype.
  assert (Hgo : inherited type && bool_decide (r !! type = None) = false).
  { destruct Htype as [->|[fs Hfs]]; [reflexivity|].
    rewrite Hfs, bool_decide_eq_false_2, andb_false_r by discriminate. reflexivity. }
  unfold hook, hooks, bind, modify, get_state, ret. rewrite Hgo. cbn.
  rewrite lookup_insert_eq. cbn. now rewrite insert_insert_eq.
Qed.

Lemma hooks_member type r :
  inherited type = true -> r !! type = None ->
  hooks type None r = (Normal (Member type), r) /\
  forall a, exists msg, hook type (Some a) r = (Throw (TypeError msg), r).
Proof.
  intros Htype Hr. unfold hook, hooks, bind, get_state, ret, throw.
  rewrite Htype, Hr. cbn. split; [reflexivity|]. intros a. eexists. reflexivity.
Qed.

Lemma removeHook_miss type f r :
  inherited type = false \/ is_Some (r !! type) ->
  Forall (fun g => hook_id g <> hook_id f) (default [] (r !! type)) ->
  removeHook type f r = (Normal false, <[type := default [] (r !! type)]> r).
Proof.
  intros Htype Habsent. unfold removeHook, bind. rewrite hooks_array by exact Htype.
  cbn [array_of]. unfold ret at 1.
  now rewrite (index_of_absent _ _ Habsent).
Qed.

Lemma removeHook_hit type f r before g after :
  default [] (r !! type) = before ++ g :: after ->
  hook_id g = hook_id f ->
  Forall (fun g' => hook_id g' <> hook_id f) before ->
  removeHook type f r = (Normal true, <[type := before ++ after]> r).
Proof.
  intros Hl Hg Hbefore. unfold removeHook, bind.
  rewrite hooks_array.
  2: { right. destruct (r !! type) as [fs|]; [now exists fs|].
       cbn in Hl. now destruct before. }
  cbn [array_of]. unfold ret at 1.
  rewrite Hl, (index_of_first _ _ _ _ Hg Hbefore).
  unfold modify, ret. rewrite lookup_insert_eq. cbn [default from_option]. unfold Datatypes.id.
  now rewrite remove_at_middle, insert_insert_eq.
Qed.

Lemma removeHook_member type f r :
  inherited type = true -> r !! type = None ->
  exists msg, removeHook type f r = (Throw (TypeError msg), r).
Proof.
  intros Htype Hr. unfold removeHook, bind.
  rewrite (proj1 (hooks_member type r Htype Hr)). cbn. eexists. reflexivity.
Qed.

Lemma hook_one type f r :
  inherited type = false \/ is_Some (r !! type) ->
  hook type (Some (OneHook f)) r
  = (Normal tt, <[type := default [] (r !! type) ++ [f]]> r).
Proof. apply hook_array. Qed.

Lemma hook_many type fs r :
  inherited type = false \/ is_Some (r !! type) ->
  hook type (Some (ManyHooks fs)) r
  = (Normal tt, <[type := default [] (r !! type) ++ fs]> r).
Proof. apply hook_array. Qed.

(** The lifecycles are the properties of an object literal.  Under a name
    that [Object.prototype] has no member of, or one the registry holds an
    array for: [removeHook] of a function that is not registered under [type]
    answers [false] and leaves the hooks of every lifecycle as they are; of a
    registered one it answers [true] and takes the first occurrence of the
    function out of the hooks of [type], the others keeping their order.
    Under the name of a member of [Object.prototype] ([toString],
    [constructor], [__proto__], ...) that the registry holds no array for,
    [hooks] returns that member, [hook] and [removeHook] throw a TypeError,
    and nothing is registered. *)
Theorem removeHook_spec type f r :
  (inherited type = false \/ is_Some (r !! type) ->
   Forall (fun g => hook_id g <> hook_id f) (default [] (r !! type)) ->
   removeHook type f r = (Normal false, <[type := default [] (r !! type)]> r)) /\
  (forall before g after,
     default [] (r !! type) = before ++ g :: after ->
     hook_id g = hook_id f ->
     Forall (fun g' => hook_id g' <> hook_id f) before ->
     removeHook type f r = (Normal true, <[type := before ++ after]> r)) /\
  (inherited type = true -> r !! type = None ->
   hooks type None r = (Normal (Member type), r) /\
   (forall a, exists msg, hook type (Some a) r = (Throw (TypeError msg), r)) /\
   (exists msg, removeHook type f r = (Throw (TypeError msg), r))).
Proof.
  split; [apply removeHook_miss|split; [apply removeHook_hit|]].
  intros Htype Hr. destruct (hooks_member type r Htype Hr) as [H1 H2].
  split; [exact H1|split; [exact H2|now apply removeHook_member]].
Qed.

(** Under a lifecycle name that [Object.prototype] has no member of (or one
    the registry holds an array for), registering a function that was not
    registered and removing it again gives back the hooks there were, of
    every lifecycle. *)
Theorem hook_then_removeHook type f r :
  inherited type = false \/ is_Some (r !! type) ->
  Forall (fun g => hook_id g <> hook_id f) (default [] (r !! type)) ->
  (hook type (Some (OneHook f)) ;; removeHook type f) r
  = (Normal true, <[type := default [] (r !! type)]> r).
Proof.
  intros Htype Habsent. unfold bind. rewrite hook_one by exact Htype.
  rewrite (removeHook_hit type f _ (default [] (r !! type)) f []).
  - now rewrite app_nil_r, insert_insert_eq.
  - now rewrite lookup_insert_eq.
  - reflexivity.
  - exact Habsent.
Qed.

(** Under a lifecycle name that [Object.prototype] has no member of (or one
    the registry holds an array for), registering an array of functions is
    registering them one after the other, first to last. *)
Theorem hook_array_in_sequence type fs r :
  inherited type = false \/ is_Some (r !! type) ->
  hook type (Some (ManyHooks fs)) r
  = (Normal tt,
     fold_left (fun r f => snd (hook type (Some (OneHook f)) r)) fs
               (snd (hooks type None r))).
Proof.
  intros Htype.
  rewrite hook_many, hooks_array by exact Htype. cbn [snd]. f_equal.
  assert (Hgen : forall l r',
             fold_left (fun r f => snd (hook type (Some (OneHook f)) r)) fs (<[type := l]> r')
             = <[type := l ++ fs]> r').
  { induction fs as [|f fs' IH]; intros l r'; cbn [fold_left].
    - now rewrite app_nil_r.
    - rewrite hook_one by (right; rewrite lookup_insert_eq; now eexists).
      cbn [snd]. rewrite lookup_insert_eq. cbn [default from_option]. unfold Datatypes.id.
      rewrite insert_insert_eq, IH. now rewrite <- app_assoc. }
  now rewrite Hgen.
Qed.

(** ** Error translation: events without their payload *)

(** The listener throws a [TypeError], before it has reported anything,
    exactly on a manifest error without payload and on a media source error
    whose payload is not a string.  On every other event it returns, and
    then it has either done nothing or reported one error with a code
    from 1 to 5 and scheduled one reset, 10 ms later. *)
Theorem retriggerError_outcome ev :
  if malformed ev then
    exists msg, retriggerError_ ev = Throw (TypeError msg)
  else
    exists fx, retriggerError_ ev = Normal fx /\
      (fx = [] \/
       exists code message, 1 <= code <= 5 /\
         fx = [PlayerError code message; ResetAfter 10]).
Proof.
  assert (Hreported : forall code message,
             1 <= code <= 5 ->
             exists fx, surfaced code message = Normal fx /\
               (fx = [] \/
                exists code message, 1 <= code <= 5 /\
                  fx = [PlayerError code message; ResetAfter 10])).
  { intros code message Hcode. eexists. split; [reflexivity|]. right. eauto. }
  assert (Hignored : exists fx, @Normal (list effect) [] = Normal fx /\
               (fx = [] \/
                exists code message, 1 <= code <= 5 /\
                  fx = [PlayerError code message; ResetAfter 10])) by eauto.
  destruct ev as [err e]. unfold malformed, retriggerError_. cbn [error event].
  destruct (String.eqb err "capability") eqn:Hcap.
  { apply String.eqb_eq in Hcap as ->. cbn -[surfaced].
    destruct e as [|s|id m]; cbn -[surfaced]; [exact Hignored| |exact Hignored].
    destruct (String.eqb s "mediasource"); cbn -[surfaced]; [apply Hreported; lia|].
    destruct (String.eqb s "encryptedmedia"); cbn -[surfaced];
      [apply Hreported; lia|exact Hignored]. }
  cbn [andb cond].
  destruct (String.eqb err "manifestError") eqn:Hman.
  { apply String.eqb_eq in Hman as ->.
    destruct e as [|s|id m]; cbn -[id_in forwarded_manifest_ids surfaced];
      [eauto|exact Hignored|].
    destruct (id_in id forwarded_manifest_ids); cbn -[surfaced];
      [apply Hreported; lia|exact Hignored]. }
  cbn [and_then cond orb andb].
  destruct (String.eqb err "mediasource") eqn:Hms.
  { destruct e as [|s|id m]; cbn [cond detail_match andb]; eauto.
    repeat (match goal with |- context [contains ?n s] => destruct (contains n s) end;
            cbn [cond]; [apply Hreported; lia|]).
    apply Hreported; lia. }
  cbn [cond andb].
  repeat (match goal with |- context [String.eqb err ?k] => destruct (String.eqb err k) end;
          cbn [cond]; [apply Hreported; lia|]).
  exact Hignored.
Qed.

(** ** Duration: the adapter without a player and manifests without periods *)

Lemma new_Html5DashJS_without_src source tech_options_ options w src :
  get_prop (store w) source "src" = Normal src ->
  truthy src = false ->
  exists w',
    new_Html5DashJS source tech_options_ options w
    = (Normal {| hasFiniteDuration_ := false; mediaPlayer_ := None;
                 keySystemOptions_ := VUndefined; ttmlContainer_ := false |}, w') /\
    engines w' = engines w /\ player_children w' = player_children w /\
    player_named w' = player_named w.
Proof.
  intros Hsrc Hf.
  unfold new_Html5DashJS.
  unfold bind at 1. cbn [get_state].
  unfold bind at 1. cbn [modify]. unfold bind at 1.
  unfold on_store at 1, read. unfold bind at 1.
  cbn [get_state store with_player_dash].
  unfold lift_completion. rewrite Hsrc. cbn [with_store]. rewrite Hf. cbn [negb ret].
  eexists. repeat split.
Qed.

(** The adapter that the constructor makes of a source without [src] has no
    dash.js player, and [duration()] on it throws a [TypeError] instead of
    answering. *)
Theorem duration_without_player source tech_options_ options w src :
  get_prop (store w) source "src" = Normal src ->
  truthy src = false ->
  exists this w' msg,
    new_Html5DashJS source tech_options_ options w = (Normal this, w') /\
    duration this w' = (Throw (TypeError msg), w').
Proof.
  intros Hsrc Hf.
  destruct (new_Html5DashJS_without_src source tech_options_ options w src Hsrc Hf)
    as (w' & Hnew & _).
  eexists _, w', _. split; [exact Hnew|]. reflexivity.
Qed.

(** The listener of [MANIFEST_LOADED] throws exactly on a manifest that
    names no total duration and has no period to look at: no list of
    periods, or an empty one.  It then leaves the flag alone and notifies
    nobody. *)
Theorem getDuration_throws_iff data this w :
  (exists e, getDuration_ data this w = (Throw e, w)) <-> ~ readable data.
Proof.
  split.
  - intros [e He] Hr. rewrite (getDuration_readable _ _ _ Hr) in He. discriminate He.
  - intros Hnot. unfold getDuration_.
    destruct (truthy (mediaPresentationDuration data)) eqn:Hm.
    { exfalso. apply Hnot. now left. }
    destruct (Period_asArray data) as [periods|] eqn:Hp; [|cbn; eauto].
    destruct (last periods) as [p|] eqn:Hlast.
    + exfalso. apply Hnot. right.
      destruct periods as [|q periods] using rev_ind; [discriminate|].
      rewrite last_snoc in Hlast. injection Hlast as ->. eauto.
    + unfold last_period_duration. rewrite Hlast. cbn. eauto.
Qed.

(** ** The type test of the source handler *)

Lemma lower_cons c s : lower (String c s) = String (to_lower c) (lower s).
Proof. reflexivity. Qed.

Lemma lower_app s r : lower (s +:+ r) = lower s +:+ lower r.
Proof.
  induction s as [|c s IH]; [reflexivity|].
  change (String c s +:+ r) with (String c (s +:+ r)).
  rewrite !lower_cons, IH. reflexivity.
Qed.

Lemma to_lower_to_upper c : to_lower (to_upper c) = to_lower c.
Proof.
  assert (Hall : forallb (fun c => Ascii.eqb (to_lower (to_upper c)) (to_lower c)) all_ascii
                 = true) by (vm_compute; reflexivity).
  apply Ascii.eqb_eq.
  exact (proj1 (forallb_forall _ _) Hall c (all_ascii_complete c)).
Qed.

Lemma lower_upper s : lower (upper s) = lower s.
Proof.
  induction s as [|c s IH]; [reflexivity|].
  change (upper (String c s)) with (String (to_upper c) (upper s)).
  now rewrite !lower_cons, IH, to_lower_to_upper.
Qed.

Lemma starts_with_app p s r : starts_with p s = true -> starts_with p (s +:+ r) = true.
Proof.
  revert s. induction p as [|a p IH]; intros s H; [reflexivity|].
  destruct s as [|b s]; [discriminate|].
  change (String b s +:+ r) with (String b (s +:+ r)). cbn in *.
  destruct (Ascii.eqb a b); [now apply IH|discriminate].
Qed.

(** [canPlayType] answers the same whatever the letter case of the type,
    and a type it answers ['probably'] to keeps that answer with anything
    written behind it, such as a [codecs] parameter. *)
Theorem canPlayType_case_and_parameters h type parameters :
  canPlayType h (VStr (upper type)) = canPlayType h (VStr type) /\
  (canPlayType h (VStr type) = "probably" ->
   canPlayType h (VStr (type +:+ parameters)) = "probably").
Proof.
  unfold canPlayType, dashTypeRE_test, to_string. cbn [to_string_depth]. split.
  - now rewrite lower_upper.
  - rewrite lower_app.
    destruct (starts_with "application/dash+xml" (lower type)) eqn:Hs; [|discriminate].
    intros _. now rewrite (starts_with_app _ _ _ Hs).
Qed.

(** ** The caption style overlay: reach and completion *)

Lemma removeStyle_children rt (children : list element) (d : page) :
  Forall (fun c => forall d,
            (forall n, In n (subtree c) ->
               rejects rt n "left" EmptyString = false /\
               rejects rt n "width" "100%" = false) ->
            exists d', removeStyle rt c d = (Normal tt, d') /\
              (forall n p, styles d' !! (n, p) = after_reset (subtree c) d n p) /\
              applied d'
              = applied d ++ flat_map (fun n => [(n, "left", EmptyString); (n, "width", "100%")])
                                      (subtree c)) children ->
  (forall n, In n (flat_map subtree children) ->
     rejects rt n "left" EmptyString = false /\ rejects rt n "width" "100%" = false) ->
  exists d',
    (fix each (l : list element) : M page unit :=
       match l with
       | [] => ret tt
       | c :: rest => removeStyle rt c ;; each rest
       end) children d = (Normal tt, d') /\
    (forall n p, styles d' !! (n, p) = after_reset (flat_map subtree children) d n p) /\
    applied d'
    = applied d ++ flat_map (fun n => [(n, "left", EmptyString); (n, "width", "100%")])
                            (flat_map subtree children).
Proof.
  intros IH. revert d. induction IH as [|c rest Hc _ IHrest]; intros d Hacc.
  - exists d. split; [reflexivity|]. split; [reflexivity|]. cbn. now rewrite app_nil_r.
  - cbn [flat_map] in Hacc.
    destruct (Hc d) as (d1 & Hrun1 & Hst1 & Hap1).
    { intros n Hn. apply Hacc, in_or_app. now left. }
    destruct (IHrest d1) as (d2 & Hrun2 & Hst2 & Hap2).
    { intros n Hn. apply Hacc, in_or_app. now right. }
    exists d2. split; [|split].
    + unfold bind at 1. rewrite Hrun1. exact Hrun2.
    + intros n p. rewrite Hst2. unfold after_reset. cbn [flat_map].
      rewrite existsb_app, Hst1. unfold after_reset.
      destruct (existsb (Nat.eqb n) (flat_map subtree rest)),
               (existsb (Nat.eqb n) (subtree c)),
               (String.eqb p "left") eqn:Hl, (String.eqb p "width") eqn:Hw;
        try reflexivity.
    + rewrite Hap2, Hap1. cbn [flat_map]. now rewrite flat_map_app, <- app_assoc.
Qed.

(** Where the browser takes the two assignments, [removeStyle] returns, and
    it has set [left] to [null] and [width] to [100%] on the element and on
    everything below it, in document order, and changed no other style. *)
Theorem removeStyle_resets rt el d :
  (forall n, In n (subtree el) ->
     rejects rt n "left" EmptyString = false /\ rejects rt n "width" "100%" = false) ->
  exists d',
    removeStyle rt el d = (Normal tt, d') /\
    (forall n p, styles d' !! (n, p) = after_reset (subtree el) d n p) /\
    applied d'
    = applied d ++ flat_map (fun n => [(n, "left", EmptyString); (n, "width", "100%")])
                            (subtree el).
Proof.
  revert d. induction el as [n t children IH] using element_nested_ind.
  intros d Hacc. cbn [subtree] in Hacc.
  destruct (Hacc n (or_introl eq_refl)) as [Hleft Hwidth].
  cbn [removeStyle]. unfold bind at 1, assign at 1. rewrite Hleft.
  unfold bind at 1, assign at 1. rewrite Hwidth. cbn [styles applied].
  match goal with |- context [_ children ?d1] =>
    destruct (removeStyle_children rt children d1 IH) as (d' & Hrun & Hst & Hap) end.
  { intros m Hm. apply Hacc. now right. }
  exists d'. split; [exact Hrun|]. split.
  - intros m p. rewrite Hst. unfold after_reset. cbn [styles subtree existsb].
    destruct (existsb (Nat.eqb m) (flat_map subtree children)) eqn:Hin; cbn [andb orb].
    + rewrite orb_true_r. cbn [andb].
      destruct (String.eqb p "left") eqn:Hl; [reflexivity|].
      destruct (String.eqb p "width") eqn:Hw; [reflexivity|].
      rewrite !lookup_insert_ne; [reflexivity| |].
      * intros [= _ <-]. cbn in Hl, Hw. congruence.
      * intros [= _ <-]. cbn in Hl, Hw. congruence.
    + rewrite orb_false_r.
      destruct (Nat.eqb m n) eqn:Hmn; cbn [andb].
      * apply Nat.eqb_eq in Hmn as ->.
        destruct (String.eqb p "left") eqn:Hl.
        { apply String.eqb_eq in Hl as ->.
          rewrite lookup_insert_ne by (intros [=]). now rewrite lookup_insert_eq. }
        destruct (String.eqb p "width") eqn:Hw.
        { apply String.eqb_eq in Hw as ->. now rewrite lookup_insert_eq. }
        rewrite !lookup_insert_ne; [reflexivity| |].
        -- intros [= <-]. cbn in Hl, Hw. congruence.
        -- intros [= <-]. cbn in Hl, Hw. congruence.
      * apply Nat.eqb_neq in Hmn.
        rewrite !lookup_insert_ne by (intros [= ? ?]; congruence). reflexivity.
  - rewrite Hap. cbn [applied subtree flat_map]. now rewrite <- !app_assoc.
Qed.

Lemma writes_within_ret {A} ids (a : A) : writes_within ids (ret a).
Proof.
  intros d r d' [= <- <-]. split; [|reflexivity].
  exists []. now rewrite app_nil_r.
Qed.

Lemma writes_within_throw {A} ids e : writes_within ids (@throw page A e).
Proof.
  intros d r d' [= <- <-]. split; [|reflexivity].
  exists []. now rewrite app_nil_r.
Qed.

Lemma writes_within_lift {A} ids (c : completion A) :
  writes_within ids (lift_completion c).
Proof.
  intros d r d' [= <- <-]. split; [|reflexivity].
  exists []. now rewrite app_nil_r.
Qed.

Lemma writes_within_bind {A B} ids (c : M page A) (k : A -> M page B) :
  writes_within ids c -> (forall a, writes_within ids (k a)) ->
  writes_within ids (bind c k).
Proof.
  intros Hc Hk d r d' Hrun. unfold bind in Hrun.
  destruct (c d) as [[a|e] d1] eqn:Hcd.
  - destruct (Hc _ _ _ Hcd) as [(l1 & Hl1 & Hin1) Hst1].
    destruct (Hk a _ _ _ Hrun) as [(l2 & Hl2 & Hin2) Hst2].
    split.
    + exists (l1 ++ l2). rewrite Hl2, Hl1, <- app_assoc. split; [reflexivity|].
      apply Forall_app. now split.
    + intros n p Hn. now rewrite Hst2, Hst1.
  - injection Hrun as <- <-. exact (Hc _ _ _ Hcd).
Qed.

Lemma writes_within_when ids b (c : M page unit) :
  writes_within ids c -> writes_within ids (when b c).
Proof. intros H. destruct b; [exact H|apply writes_within_ret]. Qed.

Lemma writes_within_assign rt ids n p v :
  In n ids -> writes_within ids (assign rt n p v).
Proof.
  intros Hn d r d' Hrun. unfold assign in Hrun.
  destruct (rejects rt n p v); injection Hrun as <- <-.
  - split; [|reflexivity]. exists []. now rewrite app_nil_r.
  - cbn [styles applied]. split.
    + exists [(n, p, v)]. split; [reflexivity|]. now constructor.
    + intros m q Hm. rewrite lookup_insert_ne; [reflexivity|].
      intros [= -> _]. contradiction.
Qed.

Lemma writes_within_tryUpdateStyle rt ids n p v :
  In n ids -> writes_within ids (tryUpdateStyle rt n p v).
Proof.
  intros Hn d r d' Hrun. unfold tryUpdateStyle in Hrun.
  destruct (assign rt n p v d) as [[[]|e] d1] eqn:Ha; injection Hrun as <- <-;
    exact (writes_within_assign rt ids n p v Hn _ _ _ Ha).
Qed.

Lemma writes_within_style_of ids n p : writes_within ids (style_of n p).
Proof.
  intros d r d' [= <- <-]. split; [|reflexivity].
  exists []. now rewrite app_nil_r.
Qed.

Lemma writes_within_forEach {A} ids (f : A -> M page unit) l :
  (forall x, In x l -> writes_within ids (f x)) -> writes_within ids (forEach l f).
Proof.
  induction l as [|x l IH]; intros Hf; cbn [forEach].
  - apply writes_within_ret.
  - apply writes_within_bind; [apply Hf; now left|].
    intros _. apply IH. intros y Hy. apply Hf. now right.
Qed.

Lemma writes_within_incl {A} ids ids' (c : M page A) :
  incl ids ids' -> writes_within ids c -> writes_within ids' c.
Proof.
  intros Hincl Hc d r d' Hrun. destruct (Hc _ _ _ Hrun) as [(l & Hl & Hin) Hst].
  split.
  - exists l. split; [exact Hl|].
    eapply Forall_impl; [exact Hin|]. cbn. intros a Ha. now apply Hincl.
  - intros n p Hn. apply Hst. intros Hn'. apply Hn. now apply Hincl.
Qed.

Lemma writes_within_removeStyle rt el : writes_within (subtree el) (removeStyle rt el).
Proof.
  induction el as [n t children IH] using element_nested_ind.
  cbn [removeStyle subtree].
  apply writes_within_bind; [apply writes_within_assign; now left|]. intros _.
  apply writes_within_bind; [apply writes_within_assign; now left|]. intros _.
  apply (writes_within_incl (flat_map subtree children)); [intros m Hm; now right|].
  induction IH as [|c rest Hc _ IHrest].
  - apply writes_within_ret.
  - cbn [flat_map]. apply writes_within_bind.
    + eapply writes_within_incl; [|exact Hc]. intros m Hm. apply in_or_app. now left.
    + intros _. eapply writes_within_incl; [|exact IHrest].
      intros m Hm. apply in_or_app. now right.
Qed.

(** A span below [el] and its parent are elements of the tree of [el]. *)
Lemma spans_below_subtree el span parentNode :
  In (span, parentNode) (spans_below el) ->
  In span (subtree el) /\ In parentNode (subtree el).
Proof.
  revert span parentNode.
  induction el as [n t children IH] using element_nested_ind.
  intros span parentNode Hin. cbn [spans_below subtree] in *.
  apply in_flat_map in Hin as (c & Hc & Hin).
  rewrite Forall_forall in IH.
  apply in_app_or in Hin as [Hin|Hin].
  - destruct (String.eqb (lower (tag_of c)) "span"); [|contradiction].
    destruct Hin as [[= <- <-]|[]]. split; [right|now left].
    apply in_flat_map. exists c. split; [exact Hc|].
    destruct c as [m tc cs]. now left.
  - destruct (IH c (proj2 (list_elem_of_In _ _) Hc) _ _ Hin) as [Hs Hp].
    split; right; apply in_flat_map; exists c; now split.
Qed.

Lemma writes_within_style_span rt ids o span parentNode :
  In span ids -> In parentNode ids ->
  writes_within ids (style_span rt o span parentNode).
Proof.
  intros Hs Hp. unfold style_span.
  repeat first
    [ apply writes_within_bind; [|intros ?]
    | apply writes_within_when
    | apply writes_within_assign; assumption
    | apply writes_within_tryUpdateStyle; assumption
    | apply writes_within_lift
    | apply writes_within_style_of
    | apply writes_within_throw
    | apply writes_within_ret
    | match goal with |- writes_within _ (if ?b then _ else _) => destruct b end
    | match goal with |- writes_within _ (match ?x with _ => _ end) => destruct x end ].
Qed.

(** [updateStyle] assigns to styles of the caption node and of the elements
    below it and to no other element, whatever the settings and the
    browser, and whether it returns or throws. *)
Theorem updateStyle_within_caption rt player_ captionDiv el d r d' :
  captionDiv = Some el \/
  captionDiv = None /\ display_firstChild player_ = Some (Some el) ->
  updateStyle rt player_ captionDiv d = (r, d') ->
  (exists l, applied d' = applied d ++ l /\
             Forall (fun a => In (fst (fst a)) (subtree el)) l) /\
  forall n p, ~ In n (subtree el) -> styles d' !! (n, p) = styles d !! (n, p).
Proof.
  intros Hnode. revert d r d'. change (writes_within (subtree el)
                                          (updateStyle rt player_ captionDiv)).
  unfold updateStyle.
  destruct (textTrackSettings player_) as [o|]; [|apply writes_within_ret].
  assert (Hbody : writes_within (subtree el)
                    (removeStyle rt el ;;
                     forEach (spans_below el) (fun sp => style_span rt o (fst sp) (snd sp)))).
  { apply writes_within_bind; [apply writes_within_removeStyle|]. intros _.
    apply writes_within_forEach. intros [span parentNode] Hin.
    destruct (spans_below_subtree _ _ _ Hin).
    now apply writes_within_style_span. }
  destruct Hnode as [->|[-> ->]]; intros d r d' Hrun; exact (Hbody d r d' Hrun).
Qed.

Lemma fails_bind_l {S A B} (c : M S A) (k : A -> M S B) : fails c -> fails (bind c k).
Proof.
  intros Hc s. destruct (Hc s) as (e & s' & Hrun). exists e, s'.
  unfold bind. now rewrite Hrun.
Qed.

Lemma fails_bind_r {S A B} (c : M S A) (k : A -> M S B) :
  (forall a, fails (k a)) -> fails (bind c k).
Proof.
  intros Hk s. unfold bind. destruct (c s) as [[a|e] s']; [apply Hk|eauto].
Qed.

Lemma succeeds_ret {S A} (a : A) : succeeds (@ret S A a).
Proof. intros s. now exists a, s. Qed.

Lemma succeeds_bind {S A B} (c : M S A) (k : A -> M S B) :
  succeeds c -> (forall a, succeeds (k a)) -> succeeds (bind c k).
Proof.
  intros Hc Hk s. destruct (Hc s) as (a & s' & Hrun). unfold bind. rewrite Hrun.
  apply Hk.
Qed.

Lemma succeeds_when {S} b (c : M S unit) : succeeds c -> succeeds (when b c).
Proof. intros H. destruct b; [exact H|apply succeeds_ret]. Qed.

Lemma succeeds_forEach {S A} (f : A -> M S unit) l :
  (forall x, succeeds (f x)) -> succeeds (forEach l f).
Proof.
  intros Hf. induction l as [|x l IH]; cbn [forEach]; [apply succeeds_ret|].
  apply succeeds_bind; [apply Hf|]. intros _. exact IH.
Qed.

Lemma succeeds_assign rt n p v : succeeds (assign (permissive rt) n p v).
Proof. intros d. unfold assign. cbn [rejects permissive]. eauto. Qed.

Lemma succeeds_tryUpdateStyle rt n p v : succeeds (tryUpdateStyle rt n p v).
Proof.
  intros d. unfold tryUpdateStyle, assign. destruct (rejects rt n p v); eauto.
Qed.

Lemma succeeds_style_of n p : succeeds (style_of n p).
Proof. intros d. unfold style_of. eauto. Qed.

Lemma succeeds_removeStyle rt el : succeeds (removeStyle (permissive rt) el).
Proof.
  induction el as [n t children IH] using element_nested_ind. cbn [removeStyle].
  apply succeeds_bind; [apply succeeds_assign|]. intros _.
  apply succeeds_bind; [apply succeeds_assign|]. intros _.
  induction IH as [|c rest Hc _ IHrest]; [apply succeeds_ret|].
  apply succeeds_bind; [exact Hc|]. intros _. exact IHrest.
Qed.

Lemma constructColor_colour_ok color opacity :
  if colour_ok color then exists rule, constructColor color opacity = Normal rule
  else exists e, constructColor color opacity = Throw e.
Proof.
  unfold colour_ok, constructColor.
  destruct (String.length color =? 4)%nat; cbn [orb]; [eauto|].
  destruct (String.length color =? 7)%nat; eauto.
Qed.

Lemma succeeds_constructColor {S} color opacity :
  colour_ok color = true -> succeeds (@lift_completion S _ (constructColor color opacity)).
Proof.
  intros Hok s. pose proof (constructColor_colour_ok color opacity) as H.
  rewrite Hok in H. destruct H as [rule ->]. unfold lift_completion. eauto.
Qed.

Lemma fails_constructColor {S} color opacity :
  colour_ok color = false -> fails (@lift_completion S _ (constructColor color opacity)).
Proof.
  intros Hok s. pose proof (constructColor_colour_ok color opacity) as H.
  rewrite Hok in H. destruct H as [e ->]. unfold lift_completion. eauto.
Qed.

Lemma fails_style_span rt o span parentNode :
  styleable o = false -> fails (style_span rt o span parentNode).
Proof.
  intros Hno. unfold style_span.
  apply fails_bind_r; intros _. apply fails_bind_r; intros _.
  destruct (set_number (textOpacity o)) eqn:Hto, (set_string (color o)) eqn:Hc,
           (colour_ok (default EmptyString (color o))) eqn:Hcok;
    try (apply fails_bind_l; cbn [when]; apply fails_bind_l;
         now apply fails_constructColor).
  all: apply fails_bind_r; intros _; apply fails_bind_r; intros _.
  all: destruct (set_number (backgroundOpacity o)) eqn:Hbo,
                (set_string (backgroundColor o)) eqn:Hb,
                (colour_ok (default EmptyString (backgroundColor o))) eqn:Hbok;
    try (apply fails_bind_l; cbn [when]; apply fails_bind_l;
         now apply fails_constructColor).
  all: apply fails_bind_r; intros _; apply fails_bind_l.
  all: unfold styleable in Hno; rewrite Hto, Hc, Hcok, Hbo, Hb, Hbok in Hno;
    cbn [negb orb andb] in Hno.
  all: destruct (set_string (windowColor o)); [|discriminate Hno]; cbn [when negb orb] in *.
  all: destruct (set_number (windowOpacity o)); cbn [andb] in Hno;
    [apply fails_bind_l; now apply fails_constructColor
    |intros d; unfold throw; eauto].
Qed.

(** Settings that cannot be applied make [updateStyle] throw as soon as the
    caption has a span, in every browser: a colour whose length is neither 4
    nor 7 combined with its opacity (it is handed to [constructColor]
    outside the guarded assignment), and a window colour without a window
    opacity. *)
Theorem updateStyle_unstyleable rt player_ captionDiv el o d :
  captionDiv = Some el \/
  captionDiv = None /\ display_firstChild player_ = Some (Some el) ->
  textTrackSettings player_ = Some o ->
  styleable o = false ->
  spans_below el <> [] ->
  exists e d', updateStyle rt player_ captionDiv d = (Throw e, d').
Proof.
  intros Hnode Hs Hno Hspans.
  assert (Hbody : fails (removeStyle rt el ;;
                         forEach (spans_below el)
                                 (fun sp => style_span rt o (fst sp) (snd sp)))).
  { apply fails_bind_r. intros _.
    destruct (spans_below el) as [|[span parentNode] rest]; [contradiction|].
    cbn [forEach]. apply fails_bind_l. now apply fails_style_span. }
  unfold updateStyle. rewrite Hs.
  destruct Hnode as [->|[-> ->]]; exact (Hbody d).
Qed.

Lemma succeeds_style_span rt o span parentNode :
  styleable o = true -> succeeds (style_span (permissive rt) o span parentNode).
Proof.
  intros Hok. unfold styleable in Hok.
  apply andb_true_iff in Hok as [Hok Hwindow].
  apply andb_true_iff in Hok as [Htext Hbackground].
  unfold style_span.
  apply succeeds_bind; [apply succeeds_assign|]. intros _.
  apply succeeds_bind; [apply succeeds_when, succeeds_assign|]. intros _.
  apply succeeds_bind.
  { destruct (set_number (textOpacity o)); [|apply succeeds_ret]. cbn [when].
    apply succeeds_bind; [|intros rule; apply succeeds_tryUpdateStyle].
    apply succeeds_constructColor.
    destruct (set_string (color o)); [exact Htext|reflexivity]. }
  intros _.
  apply succeeds_bind; [apply succeeds_when, succeeds_assign|]. intros _.
  apply succeeds_bind.
  { destruct (set_number (backgroundOpacity o)); [|apply succeeds_ret]. cbn [when].
    apply succeeds_bind; [|intros rule; apply succeeds_tryUpdateStyle].
    apply succeeds_constructColor.
    destruct (set_string (backgroundColor o)); [exact Hbackground|reflexivity]. }
  intros _.
  apply succeeds_bind.
  { destruct (set_string (windowColor o)); [|apply succeeds_ret]. cbn [when negb orb] in *.
    apply andb_true_iff in Hwindow as [-> Hwok].
    apply succeeds_bind; [|intros rule; apply succeeds_tryUpdateStyle].
    now apply succeeds_constructColor. }
  intros _.
  apply succeeds_bind.
  { apply succeeds_when. destruct (textShadow_for _); [apply succeeds_assign|apply succeeds_ret]. }
  intros _.
  apply succeeds_bind.
  { apply succeeds_when. apply succeeds_bind; [apply succeeds_style_of|]. intros fontSize.
    repeat (apply succeeds_bind; [apply succeeds_assign|]; intros _).
    apply succeeds_assign. }
  intros _. apply succeeds_when.
  destruct (String.eqb _ "small-caps"); apply succeeds_assign.
Qed.

(** Settings that can be applied are applied: in a browser that throws on
    nothing but [rgba(...)] colours, and with colours in the settings that
    are not themselves [rgba(...)] values, [updateStyle] returns. *)
Theorem updateStyle_completes rt player_ captionDiv o d :
  (forall e p v, rejects rt e p v = true -> rgba_write p v = true) ->
  textTrackSettings player_ = Some o ->
  plain_colour (color o) = true ->
  plain_colour (backgroundColor o) = true ->
  styleable o = true ->
  (captionDiv = None -> display_firstChild player_ <> None) ->
  exists d', updateStyle rt player_ captionDiv d = (Normal tt, d').
Proof.
  intros Hrej Hs Hc Hb Hok Hnode.
  assert (Hperm : succeeds (updateStyle (permissive rt) player_ captionDiv)).
  { unfold updateStyle. rewrite Hs.
    apply succeeds_bind.
    - destruct captionDiv; [apply succeeds_ret|].
      destruct (display_firstChild player_); [apply succeeds_ret|].
      now destruct Hnode.
    - intros [el|]; [|apply succeeds_ret].
      apply succeeds_bind; [apply succeeds_removeStyle|]. intros _.
      apply succeeds_forEach. intros sp. now apply succeeds_style_span. }
  destruct (alike_updateStyle rt (applied d) Hrej player_ captionDiv o Hs Hc Hb d d)
    as [Hend _].
  { split; [|reflexivity]. exists []. cbn. now rewrite app_nil_r. }
  destruct (Hperm d) as ([] & dP & HP). rewrite HP in Hend. cbn [fst] in Hend.
  destruct (updateStyle rt player_ captionDiv d) as [r d'] eqn:Hrun.
  cbn [fst] in Hend. subst r. now exists d'.
Qed.

(** ** The constructor on a source with a manifest address *)

Lemma triple_bind {S A B} (P : S -> Prop) (c : M S A) (R : A -> S -> Prop)
    (k : A -> M S B) (Q : B -> S -> Prop) :
  triple P c R -> (forall a, triple (R a) (k a) Q) -> triple P (bind c k) Q.
Proof.
  intros Hc Hk s b s' HP Hrun. unfold bind in Hrun.
  destruct (c s) as [[a|e] s1] eqn:Hcs; [|discriminate].
  exact (Hk a s1 b s' (Hc s a s1 HP Hcs) Hrun).
Qed.

Lemma triple_ret {S A} (P : S -> Prop) (a : A) (Q : A -> S -> Prop) :
  (forall s, P s -> Q a s) -> triple P (ret a) Q.
Proof. intros H s a' s' HP [= <- <-]. now apply H. Qed.

Lemma triple_modify {S} (P : S -> Prop) (f : S -> S) (Q : unit -> S -> Prop) :
  (forall s, P s -> Q tt (f s)) -> triple P (modify f) Q.
Proof. intros H s a' s' HP [= <- <-]. now apply H. Qed.

Lemma triple_get {S B} (P : S -> Prop) (k : S -> M S B) (Q : B -> S -> Prop) :
  (forall s0, P s0 -> triple (fun s => s = s0) (k s0) Q) ->
  triple P (bind get_state k) Q.
Proof.
  intros H s b s' HP Hrun. unfold bind, get_state in Hrun.
  exact (H s HP s b s' eq_refl Hrun).
Qed.

Lemma triple_pre {S A} (P P' : S -> Prop) (c : M S A) (Q : A -> S -> Prop) :
  (forall s, P' s -> P s) -> triple P c Q -> triple P' c Q.
Proof. intros HP Hc s a s' HP' Hrun. exact (Hc s a s' (HP s HP') Hrun). Qed.

Lemma triple_post {S A} (P : S -> Prop) (c : M S A) (Q Q' : A -> S -> Prop) :
  (forall a s, Q a s -> Q' a s) -> triple P c Q -> triple P c Q'.
Proof. intros HQ Hc s a s' HP Hrun. exact (HQ a s' (Hc s a s' HP Hrun)). Qed.

Lemma triple_exists {S A X} (P : X -> S -> Prop) (c : M S A) (Q : A -> S -> Prop) :
  (forall x, triple (P x) c Q) -> triple (fun s => exists x, P x s) c Q.
Proof. intros H s a s' [x HP] Hrun. exact (H x s a s' HP Hrun). Qed.

Lemma triple_assume {S A} (F : Prop) (P : S -> Prop) (c : M S A) (Q : A -> S -> Prop) :
  (F -> triple P c Q) -> triple (fun s => F /\ P s) c Q.
Proof. intros H s a s' [HF HP] Hrun. exact (H HF s a s' HP Hrun). Qed.

Lemma agree_refl w : agree w w.
Proof. reflexivity. Qed.

Lemma agree_trans w1 w2 w3 : agree w1 w2 -> agree w2 w3 -> agree w1 w3.
Proof. unfold agree. congruence. Qed.

Lemma agree_with_log f w G : agree w G -> agree (with_log f w) G.
Proof. unfold agree, unlogged. now destruct w, G. Qed.

Lemma agree_with_engines f w G : agree w G -> agree (with_engines f w) (with_engines f G).
Proof. unfold agree, unlogged. destruct w, G. cbn. intros [=]. now subst. Qed.

Lemma agree_with_store f w G : agree w G -> agree (with_store f w) (with_store f G).
Proof. unfold agree, unlogged. destruct w, G. cbn. intros [=]. now subst. Qed.

Lemma agree_with_hooks_ f w G : agree w G -> agree (with_hooks_ f w) (with_hooks_ f G).
Proof. unfold agree, unlogged. destruct w, G. cbn. intros [=]. now subst. Qed.

Lemma agree_with_player_dash d w G :
  agree w G -> agree (with_player_dash d w) (with_player_dash d G).
Proof. unfold agree, unlogged. destruct w, G. cbn. intros [=]. now subst. Qed.

Lemma agree_with_player_children f w G :
  agree w G -> agree (with_player_children f w) (with_player_children f G).
Proof. unfold agree, unlogged. destruct w, G. cbn. intros [=]. now subst. Qed.

Lemma agree_with_player_named f w G :
  agree w G -> agree (with_player_named f w) (with_player_named f G).
Proof. unfold agree, unlogged. destruct w, G. cbn. intros [=]. now subst. Qed.

Lemma agree_with_window_VTTCue c w G :
  agree w G -> agree (with_window_VTTCue c w) (with_window_VTTCue c G).
Proof. unfold agree, unlogged. destruct w, G. cbn. intros [=]. now subst. Qed.

Lemma agree_with_tech b n w G :
  agree w G -> agree (with_tech b n w) (with_tech b n G).
Proof. unfold agree, unlogged. destruct w, G. cbn. intros [=]. now subst. Qed.

(** Worlds that agree have every field but the log in common. *)
Lemma agree_fields w G :
  agree w G ->
  store w = store G /\ hooks_ w = hooks_ G /\
  updateSourceData w = updateSourceData G /\
  useVideoJSDebug w = useVideoJSDebug G /\ beforeInitialize w = beforeInitialize G /\
  blank w = blank G /\ engines w = engines G /\ player_dash w = player_dash G /\
  player_children w = player_children G /\ player_triggered w = player_triggered G /\
  tech_isReady_ w = tech_isReady_ G /\ tech_triggerReady w = tech_triggerReady G /\
  tech_featuresNativeTextTracks w = tech_featuresNativeTextTracks G /\
  window_VTTCue w = window_VTTCue G /\
  player_named w = player_named G.
Proof.
  unfold agree, unlogged. destruct w, G. cbn. intros [=]. subst. repeat split.
Qed.

Lemma push_app cs cs' e : push (cs ++ cs') e = push cs' (push cs e).
Proof. unfold push. now rewrite fold_left_app. Qed.


Lemma push_answers cs e :
  isDynamic (push cs e) = isDynamic e /\
  engine_duration (push cs e) = engine_duration e /\
  currentTrack (push cs e) = currentTrack e /\
  own_properties (push cs e) = own_properties e.
Proof.
  revert e. induction cs as [|c cs IH]; intros e; cbn; [repeat split|].
  change (fold_left (fun e c => call c e) cs (call c e)) with (push cs (call c e)).
  destruct (IH (call c e)) as (-> & -> & -> & ->). repeat split.
Qed.

Lemma with_engines_twice f g w :
  with_engines f (with_engines g w) = with_engines (fun l => f (g l)) w.
Proof. now destruct w. Qed.

Lemma with_engines_same (f : list media_player -> list media_player) w :
  f (engines w) = engines w -> with_engines f w = w.
Proof. destruct w. unfold with_engines. cbn. now intros ->. Qed.

Lemma told_start G mp w : agree w G -> told G mp [] w.
Proof.
  unfold told. intros H. rewrite with_engines_same; [exact H|].
  now apply list_alter_id.
Qed.

Lemma with_engines_ext (f g : list media_player -> list media_player) w :
  f (engines w) = g (engines w) -> with_engines f w = with_engines g w.
Proof. destruct w. unfold with_engines. cbn. now intros ->. Qed.

Lemma alter_push_call cs c mp (l : list media_player) :
  alter (call c) mp (alter (push cs) mp l) = alter (push (cs ++ [c])) mp l.
Proof.
  rewrite list_alter_alter_eq.
  apply list_alter_ext; [|reflexivity]. intros e _. cbn. now rewrite push_app.
Qed.

Lemma alter_push_push cs cs' mp (l : list media_player) :
  alter (push cs') mp (alter (push cs) mp l) = alter (push (cs ++ cs')) mp l.
Proof.
  rewrite list_alter_alter_eq.
  apply list_alter_ext; [|reflexivity]. intros e _. cbn. now rewrite push_app.
Qed.

Lemma told_tell G mp cs c :
  triple (told G mp cs) (tell mp c) (fun _ => told G mp (cs ++ [c])).
Proof.
  unfold tell. apply triple_modify. unfold told. intros w H.
  apply (agree_with_engines (fun l => alter (call c) mp l)) in H.
  eapply agree_trans; [exact H|].
  rewrite with_engines_twice.
  rewrite (with_engines_ext _ (fun l => alter (push (cs ++ [c])) mp l))
    by apply alter_push_call.
  apply agree_refl.
Qed.

Lemma told_warn G mp cs m : triple (told G mp cs) (warn m) (fun _ => told G mp cs).
Proof.
  unfold warn. apply triple_modify. unfold told. intros w H.
  now apply agree_with_log.
Qed.

(** A change of the world that leaves the players alone. *)
Lemma told_modify G mp cs (f : world -> world) :
  (forall w G, agree w G -> agree (f w) (f G)) ->
  (forall g G, f (with_engines g G) = with_engines g (f G)) ->
  triple (told G mp cs) (modify f) (fun _ => told (f G) mp cs).
Proof.
  intros Hag Hcomm. apply triple_modify. unfold told. intros w H.
  apply Hag in H. now rewrite Hcomm in H.
Qed.

Lemma told_seq {A} G mp cs (c : M world A) G' cs' (k : A -> M world unit) R :
  triple (told G mp cs) c (fun _ => told G' mp cs') ->
  (forall a, triple (told G' mp cs') (k a) R) ->
  triple (told G mp cs) (bind c k) R.
Proof. intros Hc Hk. eapply triple_bind; [exact Hc|exact Hk]. Qed.

Lemma told_fields G mp cs w :
  told G mp cs w ->
  engines w = alter (push cs) mp (engines G) /\
  store w = store G /\ hooks_ w = hooks_ G /\ blank w = blank G /\
  window_VTTCue w = window_VTTCue G /\
  tech_featuresNativeTextTracks w = tech_featuresNativeTextTracks G /\
  tech_triggerReady w = tech_triggerReady G.
Proof.
  unfold told. intros H. apply agree_fields in H.
  destruct G. cbn in H. intuition.
Qed.

Lemma told_more G mp cs cs' w : cs = cs' -> told G mp cs w -> told G mp cs' w.
Proof. now intros ->. Qed.

Lemma told_hasOwnProperty G mp cs name :
  triple (told G mp cs) (hasOwnProperty mp name)
    (fun b w => b = match engines G !! mp with
                    | Some e => existsb (String.eqb name) (own_properties e)
                    | None => false
                    end /\
                told G mp cs w).
Proof.
  unfold hasOwnProperty. apply triple_get. intros w0 H0.
  apply triple_ret. intros w ->. split; [|exact H0].
  destruct (told_fields _ _ _ _ H0) as (-> & _).
  rewrite list_lookup_alter_eq.
  destruct (engines G !! mp) as [e|]; cbn; [|reflexivity].
  now destruct (push_answers cs e) as (_ & _ & _ & ->).
Qed.




Lemma told_apply_dash_option G mp cs kv e :
  engines G !! mp = Some e ->
  triple (told G mp cs) (apply_dash_option mp kv)
    (fun _ w => told G mp (cs ++ option_list (option_call e (store G) kv)) w).
Proof.
  intros He. unfold apply_dash_option, option_call.
  destruct (String.eqb (fst kv) "useTTML").
  { apply triple_ret. intros w H. cbn. now rewrite app_nil_r. }
  eapply triple_bind; [apply told_hasOwnProperty|]. intros prefixed. cbv beta.
  apply triple_assume. rewrite He. intros ->.
  eapply triple_bind with
    (R := fun key w =>
            key = (if existsb (String.eqb (setter_name (fst kv))) (own_properties e)
                   then setter_name (fst kv) else fst kv) /\
            told G mp cs w).
  { destruct (existsb _ _).
    - eapply triple_bind; [apply told_warn|]. intros ?.
      apply triple_ret. now split.
    - apply triple_ret. now split. }
  intros key. apply triple_assume. intros ->. cbv zeta.
  eapply triple_bind; [apply told_hasOwnProperty|]. intros known. cbv beta.
  apply triple_assume. rewrite He. intros ->.
  destruct (existsb (String.eqb (if existsb _ _ then _ else _)) (own_properties e));
    cbn [negb option_list].
  - apply triple_get. intros w0 H0.
    destruct (told_fields _ _ _ _ H0) as (_ & -> & _).
    apply triple_pre with (P := told G mp cs); [now intros w ->|].
    apply told_tell.
  - eapply triple_post; [|apply told_warn].
    cbv beta. intros ? w H. now rewrite app_nil_r.
Qed.

Lemma told_dash_options G mp entries e :
  engines G !! mp = Some e ->
  forall cs,
  triple (told G mp cs) (forEach entries (apply_dash_option mp))
    (fun _ w => told G mp (cs ++ omap (option_call e (store G)) entries) w).
Proof.
  intros He.
  induction entries as [|kv entries IH]; intros cs; cbn [forEach].
  - apply triple_ret. intros w H. cbn. now rewrite app_nil_r.
  - eapply triple_bind; [apply (told_apply_dash_option G mp cs kv e He)|]. intros ?.
    cbv beta. eapply triple_post; [|apply IH].
    cbv beta. intros ? w H. cbn [omap list_omap].
    destruct (option_call e (store G) kv) as [c|]; cbn [option_list] in H |- *.
    + now rewrite <- app_assoc in H.
    + now rewrite app_nil_r in H.
Qed.

Lemma told_beforeinitialize G mp bs : forall cs,
  triple (told G mp cs)
    (forEach bs (fun f => tell mp (Hooked "beforeinitialize" (hook_id f))))
    (fun _ => told G mp (cs ++ map (fun f => Hooked "beforeinitialize" (hook_id f)) bs)).
Proof.
  induction bs as [|f bs IH]; intros cs; cbn [forEach map].
  - apply triple_ret. intros w H. now rewrite app_nil_r.
  - eapply triple_bind; [apply told_tell|]. intros ?.
    eapply triple_post; [|apply IH]. cbv beta. intros _ w H.
    now rewrite <- app_assoc in H.
Qed.

(** A deprecated static, when set: a warning and the call. *)
Lemma told_deprecated G mp cs (b : bool) m c :
  triple (told G mp cs) (if b then warn m ;; tell mp c else ret tt)
    (fun _ => told G mp (cs ++ if b then [c] else [])).
Proof.
  destruct b.
  - eapply triple_bind; [apply told_warn|]. intros ?. apply told_tell.
  - apply triple_ret. intros w H. now rewrite app_nil_r.
Qed.

Lemma with_window_VTTCue_engines c g G :
  with_window_VTTCue c (with_engines g G) = with_engines g (with_window_VTTCue c G).
Proof. now destruct G. Qed.

Lemma with_player_children_engines f g G :
  with_player_children f (with_engines g G) = with_engines g (with_player_children f G).
Proof. now destruct G. Qed.

Lemma with_player_dash_engines d g G :
  with_player_dash d (with_engines g G) = with_engines g (with_player_dash d G).
Proof. now destruct G. Qed.

Lemma with_hooks__engines f g G :
  with_hooks_ f (with_engines g G) = with_engines g (with_hooks_ f G).
Proof. now destruct G. Qed.

Lemma with_tech_engines b n g G :
  with_tech b n (with_engines g G) = with_engines g (with_tech b n G).
Proof. now destruct G. Qed.

Lemma with_window_VTTCue_same w : with_window_VTTCue (window_VTTCue w) w = w.
Proof. now destruct w. Qed.

Lemma with_player_children_same (f : list string -> list string) w :
  f (player_children w) = player_children w -> with_player_children f w = w.
Proof. destruct w. unfold with_player_children. cbn. now intros ->. Qed.

Lemma told_setupTextTracks G mp cs :
  triple (told G mp cs) (setupTextTracks mp)
    (fun _ =>
       told (with_window_VTTCue (match window_VTTCue G with
                                 | ShimVTTCue => NoVTTCue
                                 | c => c
                                 end) G) mp
            (cs ++ if tech_featuresNativeTextTracks G then []
                   else [On "TEXT_TRACKS_ADDED"; On "CAN_PLAY"])).
Proof.
  unfold setupTextTracks. apply triple_get. intros w0 H0.
  destruct (told_fields _ _ _ _ H0) as (_ & _ & _ & _ & -> & -> & _).
  apply triple_pre with (P := told G mp cs); [now intros w ->|].
  eapply triple_bind with
    (R := fun _ => told (with_window_VTTCue (match window_VTTCue G with
                                             | ShimVTTCue => NoVTTCue
                                             | c => c
                                             end) G) mp cs).
  { destruct (window_VTTCue G) eqn:Hcue.
    1,2: rewrite <- Hcue, with_window_VTTCue_same; apply triple_ret; now intros.
    apply told_modify.
    - intros w G'. apply agree_with_window_VTTCue.
    - intros g G'. apply with_window_VTTCue_engines. }
  intros ?. destruct (tech_featuresNativeTextTracks G).
  - eapply triple_post; [|apply told_warn]. cbv beta. intros ? w H.
    now rewrite app_nil_r.
  - eapply triple_bind; [apply told_tell|]. intros ?.
    eapply triple_post; [|apply told_tell]. cbv beta. intros ? w H.
    now rewrite <- app_assoc in H.
Qed.

Lemma told_triggerReady G mp cs :
  triple (told G mp cs)
    (modify (fun w => with_tech true (S (tech_triggerReady w)) w))
    (fun _ => told (with_tech true (S (tech_triggerReady G)) G) mp cs).
Proof.
  apply triple_modify. intros w H.
  destruct (told_fields _ _ _ _ H) as (_ & _ & _ & _ & _ & _ & ->).
  unfold told in *. apply (agree_with_tech true (S (tech_triggerReady G))) in H.
  now rewrite with_tech_engines in H.
Qed.

Lemma agree_on_store_read G base k :
  triple (fun w => agree w G) (on_store (read base k))
    (fun v w => get_prop (store G) base k = Normal v /\ agree w G).
Proof.
  intros w v w' H Hrun. rewrite on_store_read in Hrun.
  destruct (agree_fields _ _ H) as (<- & _).
  injection Hrun as -> <-. now split.
Qed.

Lemma agree_on_store {A} G (c : M heap A) :
  triple (fun w => agree w G) (on_store c)
    (fun a w => exists h', c (store G) = (Normal a, h') /\
                           agree w (with_store (fun _ => h') G)).
Proof.
  intros w a w' H Hrun. unfold on_store in Hrun.
  destruct (agree_fields _ _ H) as (<- & _).
  destruct (c (store w)) as [r h'] eqn:Hc. injection Hrun as -> <-.
  exists h'. split; [reflexivity|]. now apply agree_with_store.
Qed.

Lemma agree_create G :
  triple (fun w => agree w G) create
    (fun mp w => mp = length (engines G) /\
                 told (with_engines (fun l => l ++ [blank G]) G) mp [] w).
Proof.
  unfold create. apply triple_get. intros w0 H0.
  destruct (agree_fields _ _ H0) as (_ & _ & _ & _ & _ & -> & -> & _).
  eapply triple_bind with
    (R := fun _ w => agree w (with_engines (fun l => l ++ [blank G]) G)).
  - apply triple_modify. intros w ->. now apply agree_with_engines.
  - intros ?. apply triple_ret. intros w H. split; [reflexivity|].
    now apply told_start.
Qed.

Lemma told_on_hooks_ G mp cs type :
  inherited type = false ->
  triple (told G mp cs) (hooks_forEach type)
    (fun bs w =>
       bs = default [] (hooks_ G !! type) /\
       told (with_hooks_ (fun r => <[type := default [] (r !! type)]> r) G) mp cs w).
Proof.
  intros Htype w bs w' H Hrun. rewrite on_hooks_lookup in Hrun by exact Htype.
  destruct (told_fields _ _ _ _ H) as (_ & _ & Hhooks & _).
  injection Hrun as <- <-. rewrite Hhooks. split; [reflexivity|].
  unfold told in *.
  apply (agree_with_hooks_ (fun _ => <[type := default [] (hooks_ G !! type)]> (hooks_ G)))
    in H.
  rewrite with_hooks__engines in H.
  eapply agree_trans; [exact H|]. destruct G. apply agree_refl.
Qed.

Lemma told_options G mp cs options e :
  engines G !! mp = Some e ->
  triple (told G mp cs)
    (match dash options with
     | Some entries => forEach entries (apply_dash_option mp)
     | None => ret tt
     end)
    (fun _ w => told G mp (cs ++ option_calls e (store G) options) w).
Proof.
  intros He. unfold option_calls.
  destruct (dash options) as [entries|]; [now apply told_dash_options|].
  apply triple_ret. intros w H. cbn. now rewrite app_nil_r.
Qed.

Lemma with_player_named_engines f g G :
  with_player_named f (with_engines g G) = with_engines g (with_player_named f G).
Proof. now destruct G. Qed.

Lemma with_player_named_same (f : gset string -> gset string) w :
  f (player_named w) = player_named w -> with_player_named f w = w.
Proof. destruct w. unfold with_player_named. cbn. now intros ->. Qed.

Lemma told_ttml G mp cs (b : bool) :
  triple (told G mp cs)
    (if b then
       addChild "TTMLTextTrackDisplay" ;;
       tell mp (On "CAPTION_RENDERED") ;;
       tell mp AttachTTMLRenderingDiv
     else ret tt)
    (fun _ =>
       told (with_player_named
               (fun s => if b then {["TTMLTextTrackDisplay"]} ∪ s else s)
               (with_player_children
                  (fun l => l ++ if b then ["TTMLTextTrackDisplay"] else []) G)) mp
            (cs ++ if b then [On "CAPTION_RENDERED"; AttachTTMLRenderingDiv] else [])).
Proof.
  destruct b.
  - unfold addChild. eapply triple_bind.
    { eapply triple_bind.
      - apply told_modify.
        + intros w G'. apply agree_with_player_children.
        + intros g G'. apply with_player_children_engines.
      - intros ?. apply told_modify.
        + intros w G'. apply agree_with_player_named.
        + intros g G'. apply with_player_named_engines. }
    intros ?. eapply triple_bind; [apply told_tell|]. intros ?.
    eapply triple_post; [|apply told_tell]. cbv beta. intros ? w H.
    now rewrite <- app_assoc in H.
  - apply triple_ret. intros w H. rewrite app_nil_r.
    rewrite with_player_named_same by reflexivity.
    rewrite with_player_children_same; [exact H|apply app_nil_r].
Qed.

Lemma alter_last {A} (f : A -> A) (l : list A) (x : A) :
  alter f (length l) (l ++ [x]) = l ++ [f x].
Proof. induction l as [|y l IH]; cbn; [reflexivity|]. now f_equal. Qed.

Lemma start_session_triple options source G :
  triple (fun w => agree w G) (start_session options source)
    (fun this w =>
       exists manifestSource keySystemOptions h' opts,
         get_prop (store G) source "src" = Normal manifestSource /\
         get_prop (store G) source "keySystemOptions" = Normal keySystemOptions /\
         buildDashJSProtData keySystemOptions (store G)
         = (Normal (keySystemOptions_ this), h') /\
         session_started G options this opts manifestSource h' w).
Proof.
  unfold start_session. apply triple_get. intros w0 H0.
  destruct (agree_fields _ _ H0) as (_ & _ & _ & -> & -> & _).
  apply triple_pre with (P := fun w => agree w G); [now intros w ->|].
  eapply triple_bind; [apply agree_on_store_read|]. intros manifestSource. cbv beta.
  apply triple_assume. intros Hsrc.
  eapply triple_bind; [apply agree_on_store_read|]. intros keySystemOptions. cbv beta.
  apply triple_assume. intros Hkso.
  eapply triple_bind; [apply agree_on_store|]. intros protData. cbv beta.
  apply triple_exists. intros h'. apply triple_assume. intros Hprot.
  eapply triple_bind; [apply agree_create|]. intros mp. cbv beta.
  apply triple_assume. intros Hmp.
  eapply triple_bind.
  { apply told_modify.
    - intros w G'. apply agree_with_player_dash.
    - intros g G'. apply with_player_dash_engines. }
  intros ?. cbv beta.
  eapply triple_bind; [apply told_deprecated|]. intros ?. cbv beta.
  eapply triple_bind; [apply told_deprecated|]. intros ?. cbv beta.
  eapply triple_bind; [now apply told_on_hooks_|]. intros bs. cbv beta.
  apply triple_assume. intros Hbs.
  eapply triple_bind; [apply told_beforeinitialize|]. intros ?. cbv beta.
  eapply triple_bind; [apply told_tell|]. intros ?. cbv beta.
  eapply triple_bind; [apply told_tell|]. intros ?. cbv beta.
  eapply triple_bind; [apply told_tell|]. intros ?. cbv beta.
  eapply triple_bind.
  { apply (told_options _ mp _ options (blank G)). rewrite Hmp.
    cbn [engines with_store with_engines with_player_dash with_hooks_].
    now apply list_lookup_middle. }
  intros ?. cbv beta.
  eapply triple_bind; [apply told_tell|]. intros ?. cbv beta.
  eapply triple_bind; [apply told_ttml|]. intros ?. cbv beta.
  eapply triple_bind; [apply told_tell|]. intros ?. cbv beta.
  eapply triple_bind; [apply told_tell|]. intros ?. cbv beta.
  eapply triple_bind; [apply told_setupTextTracks|]. intros ?. cbv beta.
  eapply triple_bind; [apply told_tell|]. intros ?. cbv beta.
  eapply triple_bind; [apply told_tell|]. intros ?. cbv beta.
  eapply triple_bind; [apply told_triggerReady|]. intros ?. cbv beta.
  apply triple_ret. intros w H.
  cbn [engines with_store with_engines with_player_dash with_hooks_ hooks_] in Hmp, Hbs.
  exists manifestSource, keySystemOptions, h',
    (option_calls (blank G) h' options).
  split; [exact Hsrc|]. split; [exact Hkso|]. split; [exact Hprot|].
  unfold told in H. apply agree_fields in H.
  cbn [store hooks_ updateSourceData useVideoJSDebug beforeInitialize blank engines
       player_dash player_children player_named player_triggered tech_isReady_
       tech_triggerReady tech_featuresNativeTextTracks window_VTTCue
       with_store with_engines with_player_dash with_hooks_ with_player_children
       with_player_named with_window_VTTCue with_tech] in H.
  destruct H as (Hstore & Hhooks & _ & _ & _ & _ & Hengines & Hdash & Hchildren &
                 Htriggered & Hready & Hsignals & _ & Hcue & Hnamed).
  unfold session_started. cbn [keySystemOptions_]. subst mp.
  split; [reflexivity|]. split; [reflexivity|].
  split.
  { rewrite Hengines, alter_last. f_equal. f_equal. f_equal.
    unfold session_calls. rewrite Hbs. cbn [app]. rewrite <- !app_assoc. reflexivity. }
  split; [exact Hstore|]. split; [exact Hdash|]. split; [exact Hchildren|].
  split; [exact Hnamed|].
  split; [rewrite Hcue; now destruct (window_VTTCue G)|].
  split; [exact Hready|]. split; [exact Hsignals|]. split; [|exact Htriggered].
  intros type. rewrite Hhooks.
  destruct (decide (type = "beforeinitialize")) as [->|Hne].
  - now rewrite lookup_insert_eq.
  - now rewrite lookup_insert_ne by congruence.
Qed.

Lemma new_Html5DashJS_with_src source tech_options_ options w src :
  get_prop (store w) source "src" = Normal src -> truthy src = true ->
  new_Html5DashJS source tech_options_ options w
  = (do s <- updated_source source;
     start_session (default tech_options_ options) s) (at_hooks w).
Proof.
  intros Hsrc Ht.
  unfold new_Html5DashJS, at_hooks.
  unfold bind at 1. cbn [get_state].
  unfold bind at 1. cbn [modify]. unfold bind at 1.
  unfold on_store at 1, read. unfold bind at 1.
  cbn [get_state store with_player_dash].
  unfold lift_completion. rewrite Hsrc. cbn [with_store]. rewrite Ht. cbn [negb].
  unfold bind at 1. cbn [modify].
  destruct w; reflexivity.
Qed.

Lemma new_Html5DashJS_unreadable source tech_options_ options w e :
  get_prop (store w) source "src" = Throw e ->
  fst (new_Html5DashJS source tech_options_ options w) = Throw e.
Proof.
  intros Hsrc.
  unfold new_Html5DashJS.
  unfold bind at 1. cbn [get_state].
  unfold bind at 1. cbn [modify]. unfold bind at 1.
  unfold on_store at 1, read. unfold bind at 1.
  cbn [get_state store with_player_dash].
  unfold lift_completion. now rewrite Hsrc.
Qed.

(** The source hooks change the store and nothing else, but for the log
    and an empty entry for their lifecycle in the registry. *)
Lemma updated_source_frame source w r w1 :
  updated_source source w = (r, w1) ->
  agree w1 (with_hooks_ (fun _ => hooks_ w1) (with_store (fun _ => store w1) w)) /\
  forall type, default [] (hooks_ w1 !! type) = default [] (hooks_ w !! type).
Proof.
  assert (Hkeep : forall type,
             default [] (<["updatesource" := default [] (hooks_ w !! "updatesource")]>
                           (hooks_ w) !! type)
             = default [] (hooks_ w !! type)).
  { intros type. destruct (decide (type = "updatesource")) as [->|Hne].
    - now rewrite lookup_insert_eq.
    - now rewrite lookup_insert_ne by congruence. }
  unfold updated_source, bind, get_state.
  destruct (updateSourceData w) as [f|].
  - unfold warn, modify, on_store at 1. cbn [store with_log].
    destruct (hook_fn f source (store w)) as [[s|e] h1].
    + rewrite on_hooks_lookup by reflexivity. unfold on_store.
      cbn [hooks_ with_store with_log with_hooks_ store].
      destruct (run_hooks _ s h1) as [r2 h2]. intros [= <- <-].
      split; [|exact Hkeep]. unfold agree, unlogged. now destruct w.
    + intros [= <- <-]. split; [|reflexivity]. unfold agree, unlogged. now destruct w.
  - unfold ret. rewrite on_hooks_lookup by reflexivity. unfold on_store. cbn [store with_hooks_].
    destruct (run_hooks _ source (store w)) as [r2 h2]. intros [= <- <-].
    split; [|exact Hkeep]. unfold agree, unlogged. now destruct w.
Qed.

Lemma session_calls_same w1 w options opts protData manifestSource :
  useVideoJSDebug w1 = useVideoJSDebug w ->
  beforeInitialize w1 = beforeInitialize w ->
  tech_featuresNativeTextTracks w1 = tech_featuresNativeTextTracks w ->
  (forall type, default [] (hooks_ w1 !! type) = default [] (hooks_ w !! type)) ->
  session_calls w1 options opts protData manifestSource
  = session_calls w options opts protData manifestSource.
Proof. intros H1 H2 H3 H4. unfold session_calls. now rewrite H1, H2, H3, H4. Qed.

(** The constructor on a source whose [src] is truthy: what it has done
    when it returns. *)
Lemma new_Html5DashJS_session source tech_options_ options w this w' mp :
  new_Html5DashJS source tech_options_ options w = (Normal this, w') ->
  mediaPlayer_ this = Some mp ->
  exists s w1 manifestSource keySystemOptions h' opts,
    updated_source source (at_hooks w) = (Normal s, w1) /\
    get_prop (store w1) s "src" = Normal manifestSource /\
    get_prop (store w1) s "keySystemOptions" = Normal keySystemOptions /\
    buildDashJSProtData keySystemOptions (store w1)
    = (Normal (keySystemOptions_ this), h') /\
    session_started w (default tech_options_ options) this opts manifestSource h' w'.
Proof.
  intros Hnew Hmp.
  destruct (get_prop (store w) source "src") as [src|e] eqn:Hsrc.
  2:{ pose proof (new_Html5DashJS_unreadable source tech_options_ options w e Hsrc) as H.
      rewrite Hnew in H. discriminate H. }
  destruct (truthy src) eqn:Ht.
  2:{ destruct (new_Html5DashJS_without_src source tech_options_ options w src Hsrc Ht)
        as (w2 & H & _).
      rewrite Hnew in H. injection H as -> _. discriminate Hmp. }
  rewrite (new_Html5DashJS_with_src _ _ _ _ _ Hsrc Ht) in Hnew.
  unfold bind at 1 in Hnew.
  destruct (updated_source source (at_hooks w)) as [[s|e] w1] eqn:Hupd; [|discriminate].
  destruct (updated_source_frame _ _ _ _ Hupd) as [Hframe Hhooks].
  apply agree_fields in Hframe.
  cbn [store hooks_ updateSourceData useVideoJSDebug beforeInitialize blank engines
       player_dash player_children player_named player_triggered tech_isReady_
       tech_triggerReady tech_featuresNativeTextTracks window_VTTCue with_store
       with_hooks_ at_hooks with_tech with_player_dash] in Hframe.
  destruct Hframe as (_ & _ & _ & Hdebug & Hinit & Hblank & Hengines & _ & Hchildren &
                      Htriggered & _ & Hsignals & Hnative & Hcue & Hnamed).
  destruct (start_session_triple (default tech_options_ options) s w1 w1 this w'
              (agree_refl w1) Hnew)
    as (manifestSource & keySystemOptions & h' & opts & Hms & Hkso & Hprot & Hstarted).
  exists s, w1, manifestSource, keySystemOptions, h', opts.
  split; [reflexivity|]. split; [exact Hms|]. split; [exact Hkso|]. split; [exact Hprot|].
  unfold session_started in *.
  rewrite Hblank, Hengines, Hchildren, Htriggered, Hsignals, Hcue, Hnamed in Hstarted.
  rewrite (session_calls_same w1 w) in Hstarted by assumption.
  destruct Hstarted as (H1 & H2 & H3 & H4 & H5 & H6 & H7 & H8 & H9 & H10 & H11 & H12).
  repeat split; try assumption.
  intros type. now rewrite H11, Hhooks.
Qed.


(** What the constructor leaves on the side of video.js for a source with a
    truthy [src]: [player.dash.mediaPlayer] is the new player, the tech has
    been told once that it is ready and is marked so, the overlay for TTML
    captions is a child of the player exactly when the [useTTML] option is
    set, a [VTTCue] that is not the browser's own has been cleared, and the
    adapter starts without a finite duration. *)
Theorem session_host_effects source tech_options_ options w this w' mp :
  new_Html5DashJS source tech_options_ options w = (Normal this, w') ->
  mediaPlayer_ this = Some mp ->
  player_dash w' = Some (Some mp) /\
  tech_isReady_ w' = true /\
  tech_triggerReady w' = S (tech_triggerReady w) /\
  ttmlContainer_ this = useTTML (default tech_options_ options) /\
  player_children w'
  = player_children w ++ (if ttmlContainer_ this then ["TTMLTextTrackDisplay"] else []) /\
  window_VTTCue w' = match window_VTTCue w with ShimVTTCue => NoVTTCue | c => c end /\
  hasFiniteDuration_ this = false /\
  player_triggered w' = player_triggered w.
Proof.
  intros Hnew Hmp.
  destruct (new_Html5DashJS_session _ _ _ _ _ _ _ Hnew Hmp)
    as (s & w1 & manifestSource & keySystemOptions & h' & opts &
        _ & _ & _ & _ & Hthis & _ & _ & _ & Hdash & Hchildren & _ & Hcue & Hready &
        Hsignals & _ & Htriggered).
  assert (Hmp' : mp = length (engines w)).
  { rewrite Hthis in Hmp. cbn in Hmp. congruence. }
  assert (Httml : ttmlContainer_ this = useTTML (default tech_options_ options))
    by now rewrite Hthis.
  assert (Hfinite : hasFiniteDuration_ this = false) by now rewrite Hthis.
  rewrite Httml, Hmp'. repeat split; assumption.
Qed.

Lemma remove_last_snoc (x : string) (l : list string) :
  remove_last x (l ++ [x]) = l.
Proof.
  unfold remove_last. rewrite rev_app_distr. cbn. rewrite String.eqb_refl.
  apply rev_involutive.
Qed.

Lemma dispose_returns this w :
  exists w2,
    dispose this w = (Normal tt, w2) /\
    player_dash w2 = None /\
    engines w2
    = match mediaPlayer_ this with
      | Some mp => alter (push [Off "ERROR"; Off "MANIFEST_LOADED"; Reset]) mp (engines w)
      | None => engines w
      end /\
    player_children w2
    = (if ttmlContainer_ this
          && bool_decide ("TTMLTextTrackDisplay" ∈ player_named w)
          && existsb (String.eqb "TTMLTextTrackDisplay") (player_children w)
       then remove_last "TTMLTextTrackDisplay" (player_children w)
       else player_children w) /\
    player_named w2
    = (if ttmlContainer_ this
          && bool_decide ("TTMLTextTrackDisplay" ∈ player_named w)
          && existsb (String.eqb "TTMLTextTrackDisplay") (player_children w)
       then player_named w ∖ {["TTMLTextTrackDisplay"]}
       else player_named w).
Proof.
  unfold dispose, removeChild.
  destruct (mediaPlayer_ this) as [mp|], (player_dash w) as [d|] eqn:Hd,
           (ttmlContainer_ this);
    unfold bind, tell, modify, get_state, ret;
    cbn [player_dash player_named player_children with_engines with_player_dash
         with_player_children with_player_named andb];
    rewrite ?Hd;
    cbn [player_dash player_named player_children with_engines with_player_dash
         with_player_children with_player_named andb];
    try destruct (bool_decide ("TTMLTextTrackDisplay" ∈ player_named w)
                  && existsb (String.eqb "TTMLTextTrackDisplay") (player_children w));
    (eexists; split; [reflexivity|]);
    cbn [player_dash engines player_children player_named with_engines with_player_dash
         with_player_children with_player_named];
    rewrite ?Hd, ?list_alter_alter_eq; repeat split.
Qed.

Lemma existsb_snoc (x : string) (l : list string) :
  existsb (String.eqb x) (l ++ [x]) = true.
Proof. rewrite existsb_app. cbn. rewrite String.eqb_refl. apply orb_true_r. Qed.

(** [dispose()] on the adapter that the constructor returned undoes what
    the constructor did to the video.js player: [player.dash] is deleted and
    the children of the player are those it had before, the overlay for
    TTML captions having been removed (a child that the player had under the
    name of the overlay before is still among the children, and is not found
    under that name any longer).  The dash.js player of the adapter, if it
    has one, is unsubscribed from [ERROR] and [MANIFEST_LOADED] and then
    reset, and no other player receives a call. *)
Theorem construct_then_dispose source tech_options_ options w this w' :
  new_Html5DashJS source tech_options_ options w = (Normal this, w') ->
  exists w'',
    dispose this w' = (Normal tt, w'') /\
    player_dash w'' = None /\
    player_children w'' = player_children w /\
    player_named w''
    = (if ttmlContainer_ this then player_named w ∖ {["TTMLTextTrackDisplay"]}
       else player_named w) /\
    match mediaPlayer_ this with
    | Some mp =>
        exists e, engines w' = engines w ++ [e] /\
                  engines w''
                  = engines w ++ [push [Off "ERROR"; Off "MANIFEST_LOADED"; Reset] e]
    | None => engines w'' = engines w
    end.
Proof.
  intros Hnew.
  destruct (dispose_returns this w')
    as (w'' & Hrun & Hdash & Hengines & Hchildren & Hnamed).
  exists w''. split; [exact Hrun|]. split; [exact Hdash|].
  destruct (mediaPlayer_ this) as [mp|] eqn:Hmp.
  - destruct (new_Html5DashJS_session _ _ _ _ _ _ _ Hnew Hmp)
      as (s & w1 & manifestSource & keySystemOptions & h' & opts &
          _ & _ & _ & _ & Hthis & _ & He & _ & _ & Hch & Hnm & _).
    assert (Hmp' : mp = length (engines w)).
    { rewrite Hthis in Hmp. cbn in Hmp. congruence. }
    assert (Httml : ttmlContainer_ this = useTTML (default tech_options_ options))
      by now rewrite Hthis.
    rewrite Hchildren, Hnamed, Httml, Hch, Hnm.
    destruct (useTTML (default tech_options_ options)); cbn [andb].
    + rewrite bool_decide_eq_true_2 by (apply elem_of_union_l, elem_of_singleton; reflexivity).
      rewrite existsb_snoc. cbn [andb].
      split; [apply remove_last_snoc|].
      split.
      * apply set_eq. intros x. rewrite !elem_of_difference, elem_of_union. tauto.
      * eexists. split; [exact He|]. rewrite Hengines, He, Hmp'. apply alter_last.
    + split; [apply app_nil_r|]. split; [reflexivity|].
      eexists. split; [exact He|]. rewrite Hengines, He, Hmp'. apply alter_last.
  - destruct (get_prop (store w) source "src") as [src|e] eqn:Hsrc.
    2:{ pose proof (new_Html5DashJS_unreadable source tech_options_ options w e Hsrc) as H.
        rewrite Hnew in H. discriminate H. }
    destruct (truthy src) eqn:Ht.
    { rewrite (new_Html5DashJS_with_src _ _ _ _ _ Hsrc Ht) in Hnew.
      unfold bind at 1 in Hnew.
      destruct (updated_source source (at_hooks w)) as [[s|e] w1]; [|discriminate].
      destruct (start_session_triple _ _ w1 w1 this w' (agree_refl w1) Hnew)
        as (? & ? & ? & ? & _ & _ & _ & Hthis & _).
      rewrite Hthis in Hmp. discriminate Hmp. }
    destruct (new_Html5DashJS_without_src source tech_options_ options w src Hsrc Ht)
      as (w2 & H & He & Hch & Hnm).
    rewrite Hnew in H. injection H as -> <-.
    cbn [ttmlContainer_ andb] in Hchildren, Hnamed |- *.
    split; [congruence|]. split; congruence.
Qed.

(** ** Audio tracks for video.js *)

Lemma generateIdFromTrackIndex_inj i j :
  generateIdFromTrackIndex i = generateIdFromTrackIndex j -> i = j.
Proof. unfold generateIdFromTrackIndex. cbn. now intros [=]. Qed.

(** Among engine tracks with different indices, the track made for one of
    them is resolved to it. *)
Lemma findDashAudioTrack_created (D : list dash_track) x b :
  NoDup (map index D) -> In x D ->
  findDashAudioTrack D {| id := generateIdFromTrackIndex (index x); enabled := b |}
  = Some x.
Proof.
  unfold findDashAudioTrack. cbn [id].
  induction D as [|d D IH]; intros Hnodup Hin; [contradiction|].
  cbn [map] in Hnodup. apply NoDup_cons in Hnodup as [Hd Hnodup].
  cbn [array_find].
  destruct (String.eqb (generateIdFromTrackIndex (index d))
                       (generateIdFromTrackIndex (index x))) eqn:Heq.
  - apply String.eqb_eq, generateIdFromTrackIndex_inj in Heq.
    destruct Hin as [->|Hin]; [reflexivity|].
    exfalso. apply Hd. rewrite Heq. apply list_elem_of_In, in_map, Hin.
  - destruct Hin as [->|Hin]; [now rewrite String.eqb_refl in Heq|].
    now apply IH.
Qed.

Lemma filter_enabled_le_1 language current (ds : list DashAudio.t) :
  NoDup (map DashAudio.ref ds) ->
  (length (List.filter AudioTrack.enabled (map (new_AudioTrack language current) ds)) <= 1)%nat.
Proof.
  destruct current as [r|].
  2:{ intros _. induction ds as [|d ds IH]; cbn; [lia|exact IH]. }
  induction ds as [|d ds IH]; intros Hnodup; cbn [map List.filter]; [cbn; lia|].
  cbn [map] in Hnodup. apply NoDup_cons in Hnodup as [Hd Hnodup].
  cbn [new_AudioTrack AudioTrack.enabled].
  destruct (Nat.eqb (DashAudio.ref d) r) eqn:Hr; [|now apply IH].
  apply Nat.eqb_eq in Hr. subst r. cbn [length].
  assert (Hnone : List.filter AudioTrack.enabled
                    (map (new_AudioTrack language (Some (DashAudio.ref d))) ds) = []).
  { clear IH Hnodup. induction ds as [|d' ds IH]; [reflexivity|].
    cbn [map List.filter new_AudioTrack AudioTrack.enabled].
    destruct (Nat.eqb (DashAudio.ref d') (DashAudio.ref d)) eqn:Hr.
    - apply Nat.eqb_eq in Hr. exfalso. apply Hd. cbn [map]. rewrite Hr.
      apply list_elem_of_here.
    - apply IH. intros Hin. apply Hd. cbn [map]. now apply list_elem_of_further. }
  rewrite Hnone. cbn. lia.
Qed.

(** The bridge hands video.js one track for every audio track of dash.js,
    in the same order, under the id ["dash-audio-" + index] and with a kind
    that is never empty.  The track is enabled exactly when it was made of
    the object dash.js has current, so that of distinct objects at most one
    is enabled.  The tech is asked to clear the audio tracks exactly when
    the list of the player was not empty. *)
Theorem audio_tracks_created language ds current listed mp :
  let bridge := handlePlaybackMetadataLoaded language ds current listed mp in
  (forall k d,
      ds !! k = Some d ->
      exists t,
        addTrack bridge !! k = Some t /\
        AudioTrack.id t = "dash-audio-" +:+ index (DashAudio.track d) /\
        (AudioTrack.enabled t = true <-> current = Some (DashAudio.ref d)) /\
        AudioTrack.kind t <> EmptyString) /\
  length (addTrack bridge) = length ds /\
  (NoDup (map DashAudio.ref ds) ->
   (length (List.filter AudioTrack.enabled (addTrack bridge)) <= 1)%nat) /\
  (clearTracks bridge = true <-> listed <> 0%nat).
Proof.
  cbn zeta. unfold handlePlaybackMetadataLoaded. cbn [addTrack clearTracks].
  split; [|split; [|split]].
  - intros k d Hk. exists (new_AudioTrack language current d).
    split; [now rewrite list_lookup_fmap, Hk|]. split; [reflexivity|]. split.
    + cbn [new_AudioTrack AudioTrack.enabled]. destruct current as [r|].
      * rewrite Nat.eqb_eq. split; [now intros ->|now intros [= ->]].
      * split; discriminate.
    + cbn [new_AudioTrack AudioTrack.kind].
      destruct (DashAudio.kind d) as [kind|]; [|discriminate].
      destruct (String.eqb kind EmptyString) eqn:Hkind; [discriminate|].
      intros ->. discriminate Hkind.
  - apply length_map.
  - apply filter_enabled_le_1.
  - rewrite negb_true_iff, Nat.eqb_neq. reflexivity.
Qed.

Lemma chosen_tracks language current (D : list dash_track) :
  NoDup (map index D) ->
  forall (ds : list DashAudio.t) (flags : list bool),
    (forall d, In d ds -> In (DashAudio.track d) D) ->
    map (fun t => SetCurrentTrack (findDashAudioTrack D t))
        (List.filter enabled
           (zip_with listed_track (map (new_AudioTrack language current) ds) flags))
    = map (fun d => SetCurrentTrack (Some (DashAudio.track d)))
          (map snd (List.filter fst (zip flags ds))).
Proof.
  intros Hnodup. induction ds as [|d ds IH]; intros flags Hin.
  - destruct flags; reflexivity.
  - destruct flags as [|flag flags]; [reflexivity|].
    cbn [map zip_with List.filter listed_track enabled fst snd].
    specialize (IH flags (fun d' H => Hin d' (or_intror H))).
    destruct flag; cbn [map snd]; [|exact IH].
    f_equal; [|exact IH]. f_equal. cbn [new_AudioTrack AudioTrack.id].
    apply findDashAudioTrack_created; [exact Hnodup|]. apply Hin. now left.
Qed.

(** The listener that the bridge puts on the [change] event takes the
    tracks it has created back to the tracks of dash.js they were made of:
    when the indices of the dash.js tracks differ, the player of dash.js is
    told to make current, in order, the tracks whose video.js track is
    enabled, each once, and nothing else. *)
Theorem audio_change_round_trip language ds current listed mp flags mp' :
  NoDup (map (fun d => index (DashAudio.track d)) ds) ->
  let bridge := handlePlaybackMetadataLoaded language ds current listed mp in
  received (change bridge (zip_with listed_track (addTrack bridge) flags) mp')
  = received mp' ++
    map (fun d => SetCurrentTrack (Some (DashAudio.track d)))
        (map snd (List.filter fst (zip flags ds))).
Proof.
  intros Hnodup. cbn zeta. unfold handlePlaybackMetadataLoaded. cbn [change addTrack].
  rewrite audioTracksChangeHandler_received. f_equal.
  apply chosen_tracks.
  - now rewrite map_map.
  - intros d Hd. now apply in_map.
Qed.

(** ** Text tracks for video.js *)

Lemma indexOf_range tracks track :
  -1 <= indexOf tracks track < Z.of_nat (length tracks).
Proof.
  induction tracks as [|t tracks IH]; cbn [indexOf length]; [lia|].
  destruct (Nat.eqb (DashText.ref t) (DashText.ref track)); [lia|].
  destruct (indexOf tracks track) as [|p|p] eqn:Hi; try lia.
  destruct p; lia.
Qed.

Lemma indexOf_found tracks track :
  0 <= indexOf tracks track ->
  exists t, tracks !! Z.to_nat (indexOf tracks track) = Some t /\
            DashText.ref t = DashText.ref track.
Proof.
  induction tracks as [|t tracks IH]; cbn [indexOf]; [lia|].
  destruct (Nat.eqb (DashText.ref t) (DashText.ref track)) eqn:Hr.
  - intros _. exists t. split; [reflexivity|]. now apply Nat.eqb_eq.
  - pose proof (indexOf_range tracks track) as Hrange.
    destruct (indexOf tracks track) as [|p|p] eqn:Hi.
    + intros _. destruct IH as (t' & Ht' & Href); [lia|].
      exists t'. split; [exact Ht'|exact Href].
    + intros _. destruct IH as (t' & Ht' & Href); [lia|].
      exists t'. split; [|exact Href].
      replace (Z.to_nat (Z.pos p + 1)) with (S (Z.to_nat (Z.pos p))) by lia.
      exact Ht'.
    + destruct p; lia.
Qed.

Lemma indexOf_position tracks k track :
  NoDup (map DashText.ref tracks) ->
  tracks !! k = Some track ->
  indexOf tracks track = Z.of_nat k.
Proof.
  revert k. induction tracks as [|t tracks IH]; intros k Hnodup Hk; [discriminate|].
  cbn [map] in Hnodup. apply NoDup_cons in Hnodup as [Ht Hnodup].
  cbn [indexOf]. destruct k as [|k].
  - injection Hk as ->. now rewrite Nat.eqb_refl.
  - cbn in Hk. destruct (Nat.eqb (DashText.ref t) (DashText.ref track)) eqn:Hr.
    + apply Nat.eqb_eq in Hr. exfalso. apply Ht. rewrite Hr.
      apply list_elem_of_In, in_map. eapply list_elem_of_In, list_elem_of_lookup_2, Hk.
    + rewrite (IH k Hnodup Hk). destruct k; [reflexivity|].
      change (Z.of_nat (S k) + 1 = Z.of_nat (S (S k))). lia.
Qed.

Lemma activeTextTrackIndex_range tracks trackDictionary textTracks : forall a,
  -1 <= a < Z.of_nat (length tracks) ->
  -1 <= activeTextTrackIndex tracks trackDictionary textTracks a
     < Z.of_nat (length tracks).
Proof.
  induction textTracks as [|t textTracks IH]; intros a Ha; cbn [activeTextTrackIndex];
    [exact Ha|].
  apply IH. destruct (String.eqb (TextTrack.mode t) "showing"); [|exact Ha].
  destruct (find trackDictionary _); [|exact Ha].
  pose proof (indexOf_range tracks (Entry.dashTrack t0)). lia.
Qed.

(** Text tracks that are not showing leave the index as it is. *)
Lemma activeTextTrackIndex_hidden tracks trackDictionary textTracks a :
  Forall (fun t => TextTrack.mode t <> "showing") textTracks ->
  activeTextTrackIndex tracks trackDictionary textTracks a = a.
Proof.
  intros H. revert a. induction H as [|t textTracks Ht _ IH]; intros a;
    cbn [activeTextTrackIndex]; [reflexivity|].
  rewrite IH. apply String.eqb_neq in Ht. now rewrite Ht.
Qed.

(** Nor do text tracks that the dictionary does not know. *)
Lemma activeTextTrackIndex_unknown tracks trackDictionary textTracks a :
  Forall (fun t => find trackDictionary
                        (fun entry => Nat.eqb (Entry.textTrack entry) (TextTrack.id t))
                   = None) textTracks ->
  activeTextTrackIndex tracks trackDictionary textTracks a = a.
Proof.
  intros H. revert a. induction H as [|t textTracks Ht _ IH]; intros a;
    cbn [activeTextTrackIndex]; [reflexivity|].
  rewrite IH, Ht. now destruct (String.eqb (TextTrack.mode t) "showing").
Qed.

Lemma activeTextTrackIndex_app tracks trackDictionary l1 l2 a :
  activeTextTrackIndex tracks trackDictionary (l1 ++ l2) a
  = activeTextTrackIndex tracks trackDictionary l2
      (activeTextTrackIndex tracks trackDictionary l1 a).
Proof.
  revert a. induction l1 as [|t l1 IH]; intros a; cbn [activeTextTrackIndex app];
    [reflexivity|apply IH].
Qed.

Lemma updateActiveDashTextTrack_run tracks trackDictionary h :
  exists h',
    updateActiveDashTextTrack tracks trackDictionary h = (Normal tt, h') /\
    currentTextTrackIndex h'
    = activeTextTrackIndex tracks trackDictionary (textTracks h) (-1) /\
    setTextTrack_calls h'
    = setTextTrack_calls h ++
      (if Z.eqb (activeTextTrackIndex tracks trackDictionary (textTracks h) (-1))
                (currentTextTrackIndex h)
       then [] else [activeTextTrackIndex tracks trackDictionary (textTracks h) (-1)]) /\
    textTracks h' = textTracks h /\
    remoteTextTracks h' = remoteTextTracks h /\
    removedTextTracks h' = removedTextTracks h /\
    change_listeners h' = change_listeners h /\
    teardown_listeners h' = teardown_listeners h /\
    host_ttml h' = host_ttml h /\ host_language h' = host_language h.
Proof.
  unfold updateActiveDashTextTrack, bind, get_state.
  destruct (Z.eqb _ (currentTextTrackIndex h)) eqn:Heq.
  - exists h. apply Z.eqb_eq in Heq. rewrite app_nil_r. repeat split. now rewrite Heq.
  - eexists. split; [reflexivity|]. repeat split.
Qed.

(** [updateActiveDashTextTrack] returns, and then dash.js has current the
    index it has worked out, which is [-1] or the position of one of the
    dash.js tracks.  It calls [setTextTrack] once when that index is not the
    one dash.js had, and not at all when it is; run again on the text
    tracks as they are, it calls nothing. *)
Theorem updateActiveDashTextTrack_settles tracks trackDictionary h :
  exists h',
    updateActiveDashTextTrack tracks trackDictionary h = (Normal tt, h') /\
    -1 <= currentTextTrackIndex h' < Z.of_nat (length tracks) /\
    (currentTextTrackIndex h' = currentTextTrackIndex h /\
     setTextTrack_calls h' = setTextTrack_calls h \/
     currentTextTrackIndex h' <> currentTextTrackIndex h /\
     setTextTrack_calls h' = setTextTrack_calls h ++ [currentTextTrackIndex h']) /\
    updateActiveDashTextTrack tracks trackDictionary h' = (Normal tt, h').
Proof.
  destruct (updateActiveDashTextTrack_run tracks trackDictionary h)
    as (h' & Hrun & Hcurrent & Hcalls & Htracks & _).
  exists h'. split; [exact Hrun|]. split; [|split].
  - rewrite Hcurrent. apply activeTextTrackIndex_range. lia.
  - rewrite Hcalls, Hcurrent.
    destruct (Z.eqb _ (currentTextTrackIndex h)) eqn:Heq.
    + left. apply Z.eqb_eq in Heq. now rewrite app_nil_r.
    + right. apply Z.eqb_neq in Heq. now split.
  - unfold updateActiveDashTextTrack, bind, get_state.
    now rewrite Htracks, <- Hcurrent, Z.eqb_refl.
Qed.

(** The text track that decides is the last one showing that dash.js has
    provided: when it is followed by none that is showing, dash.js is given
    the position of its dash.js track; and when no text track is showing,
    dash.js is given [-1]. *)
Theorem updateActiveDashTextTrack_follows tracks trackDictionary h :
  (forall before t after entry k,
      NoDup (map DashText.ref tracks) ->
      textTracks h = before ++ t :: after ->
      TextTrack.mode t = "showing" ->
      Forall (fun t' => TextTrack.mode t' <> "showing") after ->
      find trackDictionary (fun entry => Nat.eqb (Entry.textTrack entry) (TextTrack.id t))
      = Some entry ->
      tracks !! k = Some (Entry.dashTrack entry) ->
      currentTextTrackIndex (snd (updateActiveDashTextTrack tracks trackDictionary h))
      = Z.of_nat k) /\
  (Forall (fun t => TextTrack.mode t <> "showing") (textTracks h) ->
   currentTextTrackIndex (snd (updateActiveDashTextTrack tracks trackDictionary h)) = -1).
Proof.
  destruct (updateActiveDashTextTrack_run tracks trackDictionary h)
    as (h' & Hrun & Hcurrent & _).
  rewrite Hrun. cbn [snd]. rewrite Hcurrent. split.
  - intros before t after entry k Hnodup Hsplit Hshowing Hafter Hentry Hk.
    rewrite Hsplit, activeTextTrackIndex_app. cbn [activeTextTrackIndex].
    rewrite activeTextTrackIndex_hidden by exact Hafter.
    rewrite Hshowing. cbn. unfold find in Hentry. unfold find. rewrite Hentry.
    now apply indexOf_position.
  - intros Hnone. now apply activeTextTrackIndex_hidden.
Qed.

Lemma unused_id_above tracks t :
  In t tracks -> (TextTrack.id t < unused_id tracks)%nat.
Proof.
  unfold unused_id. induction tracks as [|t' tracks IH]; [contradiction|].
  cbn [map fold_right]. intros [->|Hin]; [lia|]. specialize (IH Hin). lia.
Qed.

Lemma initial_mode_not_showing config : initial_mode config <> "showing".
Proof.
  unfold initial_mode. destruct (TrackConfig.kind config) as [k|]; [|discriminate].
  destruct (String.eqb k "metadata" || String.eqb k "chapters"); discriminate.
Qed.

(** The loop that adds the remote text tracks. *)
Lemma add_tracks_run tracks : forall h,
  exists attached trackDictionary new h',
    add_tracks tracks h = (Normal (attached, trackDictionary), h') /\
    map Entry.textTrack trackDictionary = attached /\
    map Entry.dashTrack trackDictionary
    = List.filter (fun t => negb (DashText.isTTML t && negb (host_ttml h))) tracks /\
    textTracks h' = textTracks h ++ new /\
    map TextTrack.id new = attached /\
    Forall (fun t => TextTrack.mode t <> "showing") new /\
    Forall (fun n => forall t, In t (textTracks h) -> (TextTrack.id t < n)%nat) attached /\
    remoteTextTracks h'
    = remoteTextTracks h ++
      map (fun e => (Entry.textTrack e, trackConfig (host_language h) (Entry.dashTrack e)))
          trackDictionary /\
    removedTextTracks h' = removedTextTracks h /\
    currentTextTrackIndex h' = currentTextTrackIndex h /\
    setTextTrack_calls h' = setTextTrack_calls h /\
    change_listeners h' = change_listeners h /\
    teardown_listeners h' = teardown_listeners h /\
    host_ttml h' = host_ttml h /\ host_language h' = host_language h.
Proof.
  induction tracks as [|dashTrack tracks IH]; intros h.
  - exists [], [], [], h. cbn. rewrite !app_nil_r. repeat split; constructor.
  - cbn [add_tracks]. unfold bind at 1. cbn [get_state List.filter].
    destruct (DashText.isTTML dashTrack && negb (host_ttml h)) eqn:Hskip; cbn [negb].
    + exact (IH h).
    + unfold bind at 1. unfold addRemoteTextTrack at 1. unfold bind at 1.
      match goal with |- context [add_tracks tracks ?h1] =>
        destruct (IH h1) as (attached & dict & new & h' & Hrun & Hd1 & Hd2 & Htracks &
                             Hids & Hmodes & Hfresh & Hremote & Hremoved & Hcurrent &
                             Hcalls & Hchange & Hteardown & Httml & Hlanguage) end.
      cbn [textTracks remoteTextTracks removedTextTracks currentTextTrackIndex
           setTextTrack_calls change_listeners teardown_listeners host_ttml host_language]
        in *.
      rewrite Hrun. unfold ret. cbn [fst snd].
      eexists _, _, (_ :: new), h'. split; [reflexivity|].
      cbn [map Entry.textTrack Entry.dashTrack TextTrack.id].
      split; [now rewrite Hd1|]. split; [now rewrite Hd2|].
      split; [now rewrite Htracks, <- app_assoc|].
      split; [now rewrite Hids|]. split.
      { constructor; [apply initial_mode_not_showing|exact Hmodes]. }
      split.
      { constructor.
        - intros t. apply unused_id_above.
        - eapply Forall_impl; [exact Hfresh|]. cbv beta. intros n Hn t Ht.
          apply Hn, in_or_app. now left. }
      split; [now rewrite Hremote, <- app_assoc|].
      repeat split; assumption.
Qed.

Lemma find_unknown (trackDictionary : list Entry.t) n :
  Forall (fun m => (n < m)%nat) (map Entry.textTrack trackDictionary) ->
  find trackDictionary (fun entry => Nat.eqb (Entry.textTrack entry) n) = None.
Proof.
  unfold find. induction trackDictionary as [|e dict IH]; cbn [map array_find];
    [reflexivity|].
  intros H. apply Forall_cons in H as [He H].
  destruct (Nat.eqb (Entry.textTrack e) n) eqn:Heq; [|now apply IH].
  apply Nat.eqb_eq in Heq. lia.
Qed.

Lemma attachDashTextTracksToVideojs_run tracks h :
  exists tracksAttached new h',
    attachDashTextTracksToVideojs tracks h = (Normal tracksAttached, h') /\
    length tracksAttached
    = length (List.filter (fun t => negb (DashText.isTTML t && negb (host_ttml h))) tracks) /\
    textTracks h' = textTracks h ++ new /\
    map TextTrack.id new = tracksAttached /\
    Forall (fun t => TextTrack.mode t <> "showing") new /\
    Forall (fun n => forall t, In t (textTracks h) -> (TextTrack.id t < n)%nat)
           tracksAttached /\
    removedTextTracks h' = removedTextTracks h /\
    currentTextTrackIndex h' = -1 /\
    setTextTrack_calls h'
    = setTextTrack_calls h ++ (if Z.eqb (currentTextTrackIndex h) (-1) then [] else [-1]) /\
    length (change_listeners h') = S (length (change_listeners h)).
Proof.
  unfold attachDashTextTracksToVideojs.
  destruct (add_tracks_run tracks h)
    as (attached & dict & new & h1 & Hrun & Hd1 & Hd2 & Htracks & Hids & Hmodes &
        Hfresh & _ & Hremoved & Hcurrent & Hcalls & Hchange & _).
  unfold bind at 1. rewrite Hrun. cbn [fst snd].
  unfold bind at 1, subscribe, modify. unfold bind at 1.
  match goal with |- context [updateActiveDashTextTrack tracks dict ?h2] =>
    destruct (updateActiveDashTextTrack_run tracks dict h2)
      as (h' & Hupd & Hcur' & Hcalls' & Htracks' & _ & Hremoved' & Hchange' & _) end.
  cbn [textTracks removedTextTracks setTextTrack_calls currentTextTrackIndex
       change_listeners] in *.
  rewrite Hupd. unfold ret.
  assert (Hoff : activeTextTrackIndex tracks dict (textTracks h1) (-1) = -1).
  { rewrite Htracks, activeTextTrackIndex_app.
    rewrite (activeTextTrackIndex_unknown tracks dict (textTracks h)).
    - now apply activeTextTrackIndex_hidden.
    - apply Forall_forall. intros t Ht. apply find_unknown. rewrite Hd1.
      eapply Forall_impl; [exact Hfresh|]. cbv beta. intros n Hn.
      apply Hn. now apply list_elem_of_In. }
  rewrite Hoff in Hcur', Hcalls'.
  exists attached, new, h'. split; [reflexivity|].
  split; [now rewrite <- Hd1, <- Hd2, !length_map|].
  split; [now rewrite Htracks'|]. split; [exact Hids|]. split; [exact Hmodes|].
  split; [exact Hfresh|]. split; [now rewrite Hremoved'|]. split; [exact Hcur'|].
  split.
  - rewrite Hcalls', Hcalls, Hcurrent.
    now rewrite (Z.eqb_sym (-1) (currentTextTrackIndex h)).
  - rewrite Hchange', length_app, Hchange. cbn. lia.
Qed.

(** [attachDashTextTracksToVideojs] adds one remote text track for every
    dash.js track, leaving out the TTML tracks when the player has no
    overlay for them, behind the text tracks the player had.  None of the
    new text tracks is showing (video.js gives them the mode [disabled] or
    [hidden]), and the text tracks that were there are not known to the
    dictionary, so that the first run of [updateActiveDashTextTrack] leaves
    dash.js without a current text track: it calls [setTextTrack(-1)]
    unless dash.js had none already.  No text track is removed. *)
Theorem attachDashTextTracksToVideojs_spec tracks h :
  exists tracksAttached new h',
    attachDashTextTracksToVideojs tracks h = (Normal tracksAttached, h') /\
    length tracksAttached
    = length (List.filter (fun t => negb (DashText.isTTML t && negb (host_ttml h))) tracks) /\
    textTracks h' = textTracks h ++ new /\
    map TextTrack.id new = tracksAttached /\
    Forall (fun t => TextTrack.mode t <> "showing") new /\
    removedTextTracks h' = removedTextTracks h /\
    currentTextTrackIndex h' = -1 /\
    setTextTrack_calls h'
    = setTextTrack_calls h ++ (if Z.eqb (currentTextTrackIndex h) (-1) then [] else [-1]).
Proof.
  destruct (attachDashTextTracksToVideojs_run tracks h)
    as (tracksAttached & new & h' & H1 & H2 & H3 & H4 & H5 & _ & H6 & H7 & H8 & _).
  exists tracksAttached, new, h'. repeat split; assumption.
Qed.

Lemma dispatch_deaf events : forall st,
  listening st = false -> fold_left dispatch events st = st.
Proof.
  induction events as [|ev events IH]; intros st Hdeaf; [reflexivity|].
  cbn [fold_left]. destruct ev as [tracks|]; cbn [dispatch].
  - rewrite Hdeaf. now apply IH.
  - rewrite IH by reflexivity. destruct st. cbn in Hdeaf. now subst.
Qed.

(** Of the events of a session only the first can attach text tracks: a
    [TEXT_TRACKS_ADDED] with tracks, when no [CAN_PLAY] and no
    [TEXT_TRACKS_ADDED] has come before it.  Every later event leaves the
    player as it is, and at no time does the bridge remove a text track. *)
Theorem text_tracks_attached_once events h :
  let st := fold_left dispatch events (text_setup_of h) in
  host st
  = match events with
    | TEXT_TRACKS_ADDED (track :: tracks) :: _ =>
        snd (attachDashTextTracksToVideojs (track :: tracks) h)
    | _ => h
    end /\
  removedTextTracks (host st) = removedTextTracks h.
Proof.
  cbn zeta. destruct events as [|[[|track tracks]|] events]; cbn [fold_left dispatch].
  - now split.
  - unfold text_setup_of. cbn [listening handleTextTracksAdded].
    rewrite dispatch_deaf by reflexivity. now split.
  - unfold text_setup_of. cbn [listening].
    unfold handleTextTracksAdded, clearDashTracks.
    cbn [host dashTracksAttachedToVideoJs listening forEach ret snd].
    destruct (attachDashTextTracksToVideojs_run (track :: tracks) h)
      as (tracksAttached & new & h' & Hrun & _ & _ & _ & _ & _ & Hremoved & _).
    rewrite Hrun. rewrite dispatch_deaf by reflexivity. cbn [host snd]. now split.
  - rewrite dispatch_deaf by reflexivity. now split.
Qed.

(** ** Sources and key systems that cannot be read *)

Lemma fails_forEach {S A} (f : A -> M S unit) l x :
  In x l -> fails (f x) -> fails (forEach l f).
Proof.
  intros Hin Hx. induction l as [|y l IH]; [contradiction|]. cbn [forEach].
  destruct Hin as [->|Hin].
  - now apply fails_bind_l.
  - apply fails_bind_r. intros _. now apply IH.
Qed.

Lemma fails_add_key_system output keySystem :
  keySystem = VNull \/ keySystem = VUndefined ->
  fails (add_key_system output keySystem).
Proof.
  intros Hk. unfold add_key_system. apply fails_bind_r. intros empty.
  apply fails_bind_l.
  intros h. unfold read, bind, get_state, lift_completion.
  destruct Hk as [->| ->]; cbn; eauto.
Qed.

(** A list of key systems with [null] or [undefined] among its entries
    makes [buildDashJSProtData] throw: it reads the [options] of every
    entry. *)
Theorem buildDashJSProtData_broken_entry (h : heap) la elems :
  h !! la = Some (OArray elems) ->
  In VNull elems \/ In VUndefined elems ->
  exists e h', buildDashJSProtData (VRef la) h = (Throw e, h').
Proof.
  intros Hla Hbroken. unfold buildDashJSProtData.
  unfold bind at 1, alloc at 1. unfold bind at 1. cbn [get_state].
  assert (Hfresh : fresh (dom h) <> la).
  { intros Heq. apply (is_fresh (dom h)). rewrite Heq. apply elem_of_dom. eauto. }
  assert (Hla' : <[fresh (dom h) := OPlain ∅]> h !! la = Some (OArray elems))
    by now rewrite lookup_insert_ne.
  cbn [truthy negb orb isArray array_elems]. rewrite Hla'. cbn [negb].
  apply fails_bind_l.
  destruct Hbroken as [Hin|Hin];
    (eapply fails_forEach; [exact Hin|apply fails_add_key_system; auto]).
Qed.

Lemma all_normal_throw {A} (l : list (completion A)) e :
  all_normal l = Throw e -> In (Throw e) l.
Proof.
  induction l as [|[a|e'] l IH]; cbn [all_normal]; [discriminate| |].
  - destruct (all_normal l); [discriminate|]. intros [= ->]. right. now apply IH.
  - intros [= ->]. now left.
Qed.

Lemma all_normal_In_throw {A} (l : list (completion A)) e :
  In (Throw e) l -> exists e', all_normal l = Throw e'.
Proof.
  induction l as [|[a|e'] l IH]; cbn [all_normal]; [contradiction| |eauto].
  intros [Hin|Hin]; [discriminate|]. destruct (IH Hin) as [e' ->]. eauto.
Qed.

(** [JSON.stringify] throws nothing but the error for circular
    structures. *)
Lemma stringify_throws_circular fuel h : forall v e,
  stringify fuel h v = Throw e ->
  e = TypeError "Converting circular structure to JSON".
Proof.
  induction fuel as [|d IH]; intros v e; destruct v as [| | | | |l]; cbn [stringify];
    try discriminate; [now intros [= <-]|].
  destruct (h !! l) as [[fields|elems|proto fields]|]; [| | |discriminate].
  1,3: destruct (all_normal _) as [members|e'] eqn:Hall; [discriminate|];
    intros [= ->]; apply all_normal_throw, in_map_iff in Hall as ([k x] & Hx & _);
    cbn [fst snd] in Hx; destruct (stringify d h x) as [j|e'] eqn:Hs; [discriminate|];
    injection Hx as ->; now apply (IH x).
  - destruct (all_normal _) as [items|e'] eqn:Hall; [discriminate|].
    intros [= ->]. apply all_normal_throw, in_map_iff in Hall as (x & Hx & _).
    now apply (IH x).
Qed.

Lemma stringify_looped (h : heap) C :
  looped h C ->
  forall fuel l, l ∈ C ->
    stringify fuel h (VRef l) = Throw (TypeError "Converting circular structure to JSON").
Proof.
  intros Hloop. induction fuel as [|d IH]; intros l Hl; [reflexivity|].
  destruct (Hloop l Hl) as (o & l' & Ho & Hholds & Hl').
  assert (Hthrows : exists e, stringify (S d) h (VRef l) = Throw e).
  { cbn [stringify]. rewrite Ho.
    destruct o as [fields|elems|proto fields]; cbn [holds] in Hholds.
    1,3: destruct Hholds as [k Hk];
      destruct (all_normal_In_throw
                  (map (fun kv : string * value =>
                          match stringify d h (snd kv) with
                          | Normal j => Normal (fst kv, j)
                          | Throw e => Throw e
                          end) (map_to_list fields))
                  (TypeError "Converting circular structure to JSON")) as [e' ->];
        [|eauto];
      apply in_map_iff; exists (k, VRef l'); cbn [fst snd]; rewrite (IH l' Hl');
      (split; [reflexivity|]); now apply list_elem_of_In, elem_of_map_to_list.
    - destruct (all_normal_In_throw (map (stringify d h) elems)
                  (TypeError "Converting circular structure to JSON")) as [e' ->];
        [|eauto].
      apply in_map_iff. exists (VRef l'). split; [now apply IH|exact Hholds]. }
  destruct Hthrows as [e He]. rewrite He. f_equal.
  now apply (stringify_throws_circular _ _ _ _ He).
Qed.

(** The probe throws on a source object that contains itself, directly or
    through the objects it holds: the copy it starts by making cannot be
    written as JSON.  The world is left as it was. *)
Theorem canHandleSource_circular env source w C :
  looped (store w) C -> source ∈ C ->
  canHandleSource env (VRef source) w
  = (Throw (TypeError "Converting circular structure to JSON"), w).
Proof.
  intros Hloop Hsource.
  unfold canHandleSource, canHandleKeySystems. unfold bind at 1. unfold bind at 1.
  assert (Hcopy : json_copy (VRef source) (store w)
                  = (Throw (TypeError "Converting circular structure to JSON"), store w)).
  { unfold json_copy, bind, get_state.
    now rewrite (stringify_looped _ _ Hloop _ _ Hsource). }
  rewrite (on_store_run _ _ _ _ Hcopy). now rewrite with_store_same.
Qed.

(** ** The probe on a source without hooks *)









(** ** The caption style overlay: the font size *)


Lemma kept_ret {A} key (X : option string) (a : A) :
  triple (fun d : page => styles d !! key = X) (ret a) (fun _ d => styles d !! key = X).
Proof. intros d a' d' H [= <- <-]. exact H. Qed.

Lemma kept_lift {A} key (X : option string) (c : completion A) :
  triple (fun d : page => styles d !! key = X) (lift_completion c)
         (fun _ d => styles d !! key = X).
Proof. intros d a' d' H [= _ <-]. exact H. Qed.

Lemma kept_assign rt key (X : option string) n p v :
  (n, p) <> key ->
  triple (fun d : page => styles d !! key = X) (assign rt n p v)
         (fun _ d => styles d !! key = X).
Proof.
  intros Hne d a d' H. unfold assign. destruct (rejects rt n p v); [discriminate|].
  intros [= _ <-]. cbn [styles]. now rewrite lookup_insert_ne.
Qed.

Lemma kept_tryUpdateStyle rt key (X : option string) n p v :
  (n, p) <> key ->
  triple (fun d : page => styles d !! key = X) (tryUpdateStyle rt n p v)
         (fun _ d => styles d !! key = X).
Proof.
  intros Hne d a d' H. unfold tryUpdateStyle, assign. destruct (rejects rt n p v).
  - intros [= _ <-]. exact H.
  - intros [= _ <-]. cbn [styles]. now rewrite lookup_insert_ne.
Qed.

Lemma kept_style_of key (X : option string) n p :
  triple (fun d : page => styles d !! key = X) (style_of n p)
         (fun _ d => styles d !! key = X).
Proof. intros d a d' H [= _ <-]. exact H. Qed.

Lemma kept_when key (X : option string) b (c : M page unit) :
  triple (fun d : page => styles d !! key = X) c (fun _ d => styles d !! key = X) ->
  triple (fun d : page => styles d !! key = X) (when b c) (fun _ d => styles d !! key = X).
Proof. intros H. destruct b; [exact H|apply kept_ret]. Qed.

Lemma kept_forEach {A} key (X : option string) (f : A -> M page unit) l :
  (forall x, In x l ->
     triple (fun d : page => styles d !! key = X) (f x) (fun _ d => styles d !! key = X)) ->
  triple (fun d : page => styles d !! key = X) (forEach l f)
         (fun _ d => styles d !! key = X).
Proof.
  induction l as [|x l IH]; intros Hf; cbn [forEach]; [apply kept_ret|].
  eapply triple_bind; [apply Hf; now left|]. intros ?.
  apply IH. intros y Hy. apply Hf. now right.
Qed.

Lemma kept_removeStyle rt span (X : option string) el :
  triple (fun d : page => styles d !! (span, "fontSize") = X) (removeStyle rt el)
         (fun _ d => styles d !! (span, "fontSize") = X).
Proof.
  induction el as [n t children IH] using element_nested_ind. cbn [removeStyle].
  eapply triple_bind; [apply kept_assign; intros [=]|]. intros ?.
  eapply triple_bind; [apply kept_assign; intros [=]|]. intros ?.
  induction IH as [|c rest Hc _ IHrest]; [apply kept_ret|].
  eapply triple_bind; [exact Hc|]. intros ?. exact IHrest.
Qed.

Ltac kept_steps :=
  repeat first
    [ eapply triple_bind; [|intros ?]
    | apply kept_when
    | apply kept_assign; intros [=]; congruence
    | apply kept_tryUpdateStyle; intros [=]; congruence
    | apply kept_lift
    | apply kept_style_of
    | apply kept_ret
    | match goal with |- triple _ (throw _) _ => intros ? ? ? ? [=] end
    | match goal with |- triple _ (if ?b then _ else _) _ => destruct b end
    | match goal with |- triple _ (match ?x with _ => _ end) _ => destruct x end ].

(** The styles of another span leave the font size of [span] alone. *)
Lemma kept_style_span rt o span (X : option string) other parentNode :
  other <> span ->
  triple (fun d : page => styles d !! (span, "fontSize") = X)
         (style_span rt o other parentNode)
         (fun _ d => styles d !! (span, "fontSize") = X).
Proof. intros Hne. unfold style_span. kept_steps. Qed.

(** The styles of [span] multiply its font size. *)
Lemma scaled_style_span rt o span (X : option string) parentNode percent :
  fontPercent o = Some percent ->
  truthy (VNum percent) = true ->
  percent <> "1" ->
  triple (fun d : page => styles d !! (span, "fontSize") = X)
         (style_span rt o span parentNode)
         (fun _ d => styles d !! (span, "fontSize")
                     = Some (times (default EmptyString X) percent +:+ "px")).
Proof.
  intros Hpercent Htruthy Hone. unfold style_span. rewrite Hpercent.
  cbn [set_number default from_option]. unfold Datatypes.id. rewrite Htruthy.
  apply String.eqb_neq in Hone. rewrite Hone. cbn [negb andb].
  change (when true) with (fun c : M page unit => c). cbv beta.
  eapply triple_bind; [apply kept_assign; intros [=]|]. intros ?.
  eapply triple_bind; [kept_steps|]. intros ?.
  eapply triple_bind; [kept_steps|]. intros ?.
  eapply triple_bind; [kept_steps|]. intros ?.
  eapply triple_bind; [kept_steps|]. intros ?.
  eapply triple_bind; [kept_steps|]. intros ?.
  eapply triple_bind; [kept_steps|]. intros ?.
  eapply triple_bind.
  { eapply triple_bind with
      (R := fun fontSize d => fontSize = default EmptyString X /\
                              styles d !! (span, "fontSize") = X).
    - intros page0 size0 page1 H0 [= <- <-]. split; [now rewrite H0|exact H0].
    - intros fontSize. apply triple_assume. intros ->.
      eapply triple_bind with
        (R := fun _ d => styles d !! (span, "fontSize")
                         = Some (times (default EmptyString X) percent +:+ "px")).
      + intros page0 done0 page1 H0. unfold assign.
        destruct (rejects rt _ _ _); [discriminate|].
        intros [= _ <-]. cbn [styles]. now rewrite lookup_insert_eq.
      + intros ?. kept_steps. }
  intros ?. kept_steps.
Qed.

Lemma scaled_spans rt o span parentNode percent (X : option string) spans :
  fontPercent o = Some percent ->
  truthy (VNum percent) = true ->
  percent <> "1" ->
  NoDup (map fst spans) ->
  In (span, parentNode) spans ->
  triple (fun d : page => styles d !! (span, "fontSize") = X)
         (forEach spans (fun sp => style_span rt o (fst sp) (snd sp)))
         (fun _ d => styles d !! (span, "fontSize")
                     = Some (times (default EmptyString X) percent +:+ "px")).
Proof.
  intros Hpercent Htruthy Hone.
  induction spans as [|[s p] spans IH]; intros Hnodup Hin; [contradiction|].
  cbn [map fst] in Hnodup. apply NoDup_cons in Hnodup as [Hs Hnodup].
  cbn [forEach fst snd]. destruct Hin as [[= -> ->]|Hin].
  - eapply triple_bind; [now apply (scaled_style_span rt o span X parentNode percent)|].
    intros ?. apply kept_forEach. intros [s' p'] Hin'. cbn [fst snd].
    apply kept_style_span. intros ->. apply Hs.
    apply list_elem_of_In. now apply (in_map fst) in Hin'.
  - eapply triple_bind; [|intros ?; now apply IH].
    apply kept_style_span. intros ->. apply Hs.
    apply list_elem_of_In. now apply (in_map fst) in Hin.
Qed.

(** In a browser that takes every assignment, [updateStyle] with a font
    percentage other than 1 sets the font size of every span of the caption
    to the product of the number that [parseFloat] reads off the size the
    span has at that moment and the percentage, followed by [px]: run again
    on the same caption, as on every change of the settings, it multiplies
    once more.  (A span without a font size, or with one that does not begin
    with a number, gets [NaNpx].) *)
Theorem updateStyle_scales_font rt player_ el o percent span parentNode d :
  textTrackSettings player_ = Some o ->
  styleable o = true ->
  fontPercent o = Some percent ->
  truthy (VNum percent) = true ->
  percent <> "1" ->
  NoDup (map fst (spans_below el)) ->
  In (span, parentNode) (spans_below el) ->
  exists d',
    updateStyle (permissive rt) player_ (Some el) d = (Normal tt, d') /\
    styles d' !! (span, "fontSize")
    = Some (Number_toString
              (multiply (parseFloat (default EmptyString (styles d !! (span, "fontSize"))))
                        (number_of percent))
            +:+ "px").
Proof.
  intros Hs Hok Hpercent Htruthy Hone Hnodup Hin.
  assert (Hreturns : succeeds (removeStyle (permissive rt) el ;;
                               forEach (spans_below el)
                                 (fun sp => style_span (permissive rt) o (fst sp) (snd sp)))).
  { apply succeeds_bind; [apply succeeds_removeStyle|]. intros _.
    apply succeeds_forEach. intros sp. now apply succeeds_style_span. }
  destruct (Hreturns d) as ([] & d' & Hrun).
  exists d'. split.
  - unfold updateStyle. rewrite Hs. exact Hrun.
  - assert (Hscale :
      triple (fun d0 : page => styles d0 !! (span, "fontSize")
                               = styles d !! (span, "fontSize"))
        (removeStyle (permissive rt) el ;;
         forEach (spans_below el)
           (fun sp => style_span (permissive rt) o (fst sp) (snd sp)))
        (fun _ d' => styles d' !! (span, "fontSize")
                     = Some (times (default EmptyString (styles d !! (span, "fontSize")))
                                   percent +:+ "px"))).
    { eapply triple_bind; [apply kept_removeStyle|]. intros ?.
      exact (scaled_spans (permissive rt) o span parentNode percent _ _
               Hpercent Htruthy Hone Hnodup Hin). }
    exact (Hscale d tt d' eq_refl Hrun).
Qed.
(** * Instances on concrete inputs *)

Lemma constructColor_spec_witness :
  constructColor "#f0e" "0.5" = Normal (rgba 255 0 238 "0.5") /\
  constructColor "#f604e2" "1" = Normal (rgba 246 4 226 "1").
Proof.
  destruct constructColor_spec as (Hshort & Hlong & _).
  split.
  - apply (Hshort "f"%char "0"%char "e"%char 15 0 14 "0.5"); reflexivity.
  - apply (Hlong "f"%char "6"%char "0"%char "4"%char "e"%char "2"%char
                   15 6 0 4 14 2 "1"); reflexivity.
Defined.

Lemma retriggerError_taxonomy_witness :
  retriggerError_ {| error := "mediasource"; event := DText "MEDIA_ERR_NETWORK" |}
  = Normal [PlayerError 2 (DText "MEDIA_ERR_NETWORK"); ResetAfter 10] /\
  (exists fx,
     retriggerError_ {| error := "download"; event := DUndefined |} = Normal fx /\
     reported_code fx = Some 2).
Proof.
  destruct retriggerError_taxonomy as (Hall & _ & Hnet).
  split.
  - apply (Hnet "MEDIA_ERR_NETWORK"); reflexivity.
  - destruct (Hall {| error := "download"; event := DUndefined |}) as (fx & Hfx & Hcode & _).
    + split; cbn; intros [=].
    + exists fx. split; [exact Hfx | exact Hcode].
Defined.

Lemma audioTracksChangeHandler_spec_witness :
  findDashAudioTrack [english] {| id := "dash-audio-0"; enabled := true |} = Some english /\
  "dash-audio-" +:+ index english = "dash-audio-0".
Proof.
  split; [reflexivity|].
  destruct (audioTracksChangeHandler_spec [english]
              [{| id := "dash-audio-0"; enabled := true |}] blank_player)
    as (_ & _ & Hfound & _).
  exact (proj1 (Hfound {| id := "dash-audio-0"; enabled := true |} english eq_refl)).
Defined.

Lemma duration_reporting_witness :
  Forall readable [on_demand; live] /\
  player_triggered (snd (deliver [on_demand; live] idle (quiet_world ∅)))
  = ["durationchange"; "durationchange"].
Proof.
  assert (Hr : Forall readable [on_demand; live]).
  { constructor; [left; reflexivity|]. constructor; [|constructor].
    right. exists [], {| Period.duration := VUndefined |}. reflexivity. }
  split; [exact Hr|].
  destruct duration_reporting as (_ & _ & Hseq).
  exact (proj2 (Hseq [on_demand; live] idle (quiet_world ∅) Hr)).
Defined.

Lemma updatesource_hooks_in_order_witness :
  get_prop (store marked_world) (VRef 1%positive) "src" = Normal (VStr "movie.mpd") /\
  store (snd (new_Html5DashJS (VRef 1%positive) no_options None marked_world))
    !! 1%positive
  = Some (OPlain {[ "src" := VStr "movie.mpd"; "type" := VStr "application/dash+xml";
                    "a" := VBool true; "b" := VBool true; "order" := VStr "ab" ]}).
Proof.
  split; [reflexivity|].
  destruct updatesource_hooks_in_order as (_ & _ & _ & Hnew).
  rewrite (Hnew marked_world (VRef 1%positive) no_options None (VStr "movie.mpd") eq_refl eq_refl).
  vm_compute. reflexivity.
Defined.

Lemma construction_without_src_witness :
  get_prop empty_store (VRef 1%positive) "src" = Normal VUndefined /\
  exists this w',
    new_Html5DashJS (VRef 1%positive) no_options None (quiet_world empty_store)
    = (Normal this, w') /\
    mediaPlayer_ this = None /\ engines w' = [] /\
    exists w'', dispose this w' = (Normal tt, w'') /\ player_dash w'' = None.
Proof.
  split; [reflexivity|].
  destruct (construction_without_src (VRef 1%positive) no_options None
              (quiet_world empty_store) VUndefined eq_refl eq_refl)
    as (this & w' & Hnew & Hmp & Heng & _ & w'' & Hdis & _ & Hdash).
  exists this, w'. split; [exact Hnew|]. split; [exact Hmp|]. split; [exact Heng|].
  exists w''. split; [exact Hdis|exact Hdash].
Defined.

Lemma buildDashJSProtData_spec_witness :
  Forall (tame_entry license_store) [VRef 2%positive] /\
  exists out h',
    buildDashJSProtData (VRef 1%positive) license_store = (Normal (VRef out), h') /\
    license_store !! out = None /\
    protection_data license_store (dom license_store) h'
                    [("com.widevine.alpha", license_options)] out /\
    h' !! 3%positive = Some (OPlain license_options).
Proof.
  destruct (tame_entry_literal license_store 2%positive
              {[ "name" := VStr "com.widevine.alpha"; "options" := VRef 3%positive ]}
              "com.widevine.alpha" 3%positive license_options) as [Ht Hk];
    try reflexivity.
  { intros k x Hx. unfold license_options in Hx.
    apply lookup_singleton_Some in Hx as [_ <-].
    apply tame_primitive. discriminate. }
  assert (Hall : Forall (tame_entry license_store) [VRef 2%positive])
    by (constructor; [exact Ht|constructor]).
  split; [exact Hall|].
  destruct buildDashJSProtData_spec as (_ & Hframe & Hmap).
  destruct (Hmap license_store 1%positive _ eq_refl Hall)
    as (out & h' & Hrun & Hfresh & Hdata).
  exists out, h'. split; [exact Hrun|]. split; [exact Hfresh|]. split.
  - cbn [map] in Hdata. rewrite Hk in Hdata. exact Hdata.
  - apply (Hframe _ _ _ _ Hrun). reflexivity.
Defined.

Lemma updateStyle_tolerance_witness :
  plain_colour (color pink_half) = true /\
  fst (updateStyle no_rgba {| textTrackSettings := Some pink_half;
                              display_firstChild := Some None |}
                   (Some two_spans) blank_page) = Normal tt.
Proof.
  split; [reflexivity|].
  destruct updateStyle_tolerance as (_ & _ & Htol).
  destruct (Htol no_rgba {| textTrackSettings := Some pink_half;
                            display_firstChild := Some None |}
                 (Some two_spans) pink_half blank_page) as [Hend _];
    [intros e p v H; exact H | reflexivity | reflexivity | reflexivity |].
  rewrite Hend. vm_compute. reflexivity.
Defined.


Lemma probe_preserves_source_witness :
  Forall (fun f => confined (hook_fn f))
         (source_hooks (with_updatesource [stamp] (quiet_world movie_store))) /\
  fst (canHandleKeySystems no_eme (VRef 1%positive)
         (with_updatesource [stamp] (quiet_world movie_store)))
  = fst (probe_key_systems no_eme [stamp] (VRef 1%positive) movie_store) /\
  store (snd (canHandleSource no_eme (VRef 1%positive)
                (with_updatesource [stamp] (quiet_world movie_store)))) !! 1%positive
  = movie_store !! 1%positive.
Proof.
  assert (Hc : Forall (fun f => confined (hook_fn f))
                 (source_hooks (with_updatesource [stamp] (quiet_world movie_store))))
    by (constructor; [exact stamp_confined|constructor]).
  split; [exact Hc|].
  destruct probe_preserves_source as (Hprobe & _ & Hkeep).
  split.
  - exact (f_equal fst (Hprobe no_eme (VRef 1%positive)
                          (with_updatesource [stamp] (quiet_world movie_store)))).
  - destruct (Hkeep no_eme (VRef 1%positive)
                (with_updatesource [stamp] (quiet_world movie_store)) Hc) as [_ Hsource].
    apply (Hsource _ _ (surjective_pairing _)). reflexivity.
Defined.

Lemma removeHook_spec_witness :
  removeHook "updatesource" inject_drm two_hooks
  = (Normal true, <["updatesource" := [stamp]]> two_hooks) /\
  (exists msg, removeHook "toString" inject_drm two_hooks = (Throw (TypeError msg), two_hooks)).
Proof.
  destruct (removeHook_spec "updatesource" inject_drm two_hooks) as (_ & Hhit & _).
  destruct (removeHook_spec "toString" inject_drm two_hooks) as (_ & _ & Hmember).
  split.
  - apply (Hhit [stamp] inject_drm []).
    + reflexivity.
    + reflexivity.
    + constructor; [discriminate|constructor].
  - apply (Hmember eq_refl eq_refl).
Defined.

Lemma hook_then_removeHook_witness :
  (hook "updatesource" (Some (OneHook stamp)) ;; removeHook "updatesource" stamp) ∅
  = (Normal true, <["updatesource" := []]> ∅).
Proof.
  refine (hook_then_removeHook "updatesource" stamp ∅ (or_introl eq_refl) _). constructor.
Defined.

Lemma hook_array_in_sequence_witness :
  hook "updatesource" (Some (ManyHooks [stamp; inject_drm])) ∅
  = (Normal tt, <["updatesource" := [stamp; inject_drm]]> ∅).
Proof.
  rewrite (hook_array_in_sequence "updatesource" [stamp; inject_drm] ∅ (or_introl eq_refl)).
  cbn [fold_left]. rewrite hooks_lookup by reflexivity. cbn [snd].
  rewrite !hook_register by reflexivity.
  rewrite !lookup_insert_eq, !insert_insert_eq, lookup_empty. reflexivity.
Defined.

Lemma duration_without_player_witness :
  exists this w' msg,
    new_Html5DashJS (VRef 1%positive) no_options None (quiet_world empty_store)
    = (Normal this, w') /\
    duration this w' = (Throw (TypeError msg), w').
Proof.
  apply (duration_without_player (VRef 1%positive) no_options None
           (quiet_world empty_store) VUndefined); reflexivity.
Defined.

Lemma getDuration_throws_iff_witness :
  exists e, getDuration_ no_periods idle (quiet_world ∅) = (Throw e, quiet_world ∅).
Proof.
  apply (proj2 (getDuration_throws_iff no_periods idle (quiet_world ∅))).
  intros [H|(periods & p & H)]; [discriminate H|].
  destruct periods; discriminate H.
Defined.

Lemma canPlayType_case_and_parameters_witness :
  canPlayType ∅ (VStr ("application/dash+xml" +:+ "; codecs=avc1")) = "probably".
Proof.
  apply (proj2 (canPlayType_case_and_parameters ∅ "application/dash+xml" "; codecs=avc1")).
  reflexivity.
Defined.

Lemma removeStyle_resets_witness :
  exists d',
    removeStyle no_rgba two_spans blank_page = (Normal tt, d') /\
    styles d' !! (2%nat, "width") = Some "100%".
Proof.
  destruct (removeStyle_resets no_rgba two_spans blank_page) as (d' & Hrun & Hstyles & _).
  - intros n _. split; reflexivity.
  - exists d'. split; [exact Hrun|]. rewrite Hstyles. reflexivity.
Defined.

Lemma updateStyle_within_caption_witness :
  styles (snd (updateStyle no_rgba {| textTrackSettings := Some pink_half;
                                      display_firstChild := Some None |}
                           (Some two_spans) blank_page)) !! (7%nat, "color") = None.
Proof.
  destruct (updateStyle no_rgba {| textTrackSettings := Some pink_half;
                                   display_firstChild := Some None |}
                        (Some two_spans) blank_page) as [r d'] eqn:Hrun.
  destruct (updateStyle_within_caption _ _ _ two_spans _ _ _ (or_introl eq_refl) Hrun)
    as [_ Houtside].
  cbn [snd]. rewrite Houtside; [reflexivity|].
  cbn. intros [H|[H|[H|[]]]]; discriminate H.
Defined.

Lemma updateStyle_unstyleable_witness :
  exists e d',
    updateStyle no_rgba {| textTrackSettings := Some window_only;
                           display_firstChild := Some None |}
                (Some two_spans) blank_page = (Throw e, d').
Proof.
  apply (updateStyle_unstyleable no_rgba _ _ two_spans window_only blank_page).
  - left. reflexivity.
  - reflexivity.
  - reflexivity.
  - discriminate.
Defined.

Lemma updateStyle_completes_witness :
  exists d',
    updateStyle no_rgba {| textTrackSettings := Some pink_half;
                           display_firstChild := Some None |}
                (Some two_spans) blank_page = (Normal tt, d').
Proof.
  apply (updateStyle_completes no_rgba _ _ pink_half blank_page).
  - intros e p v H. exact H.
  - reflexivity.
  - reflexivity.
  - reflexivity.
  - reflexivity.
  - discriminate.
Defined.

Lemma updateStyle_scales_font_witness :
  exists d',
    updateStyle (permissive scaling_browser)
                {| textTrackSettings := Some larger_font;
                   display_firstChild := Some None |}
                (Some two_spans) sized_page = (Normal tt, d') /\
    styles d' !! (1%nat, "fontSize") = Some "15px".
Proof.
  apply (updateStyle_scales_font scaling_browser _ two_spans larger_font "1.5"
           1%nat 0%nat sized_page).
  - reflexivity.
  - reflexivity.
  - reflexivity.
  - reflexivity.
  - discriminate.
  - apply (bool_decide_unpack _). vm_compute. reflexivity.
  - left. reflexivity.
Defined.


Lemma session_host_effects_witness :
  tech_triggerReady (snd (new_Html5DashJS (VRef 1%positive) no_options None
                            (quiet_world movie_store))) = 1%nat /\
  player_dash (snd (new_Html5DashJS (VRef 1%positive) no_options None
                      (quiet_world movie_store))) = Some (Some 0%nat).
Proof.
  destruct (new_Html5DashJS (VRef 1%positive) no_options None (quiet_world movie_store))
    as [r w'] eqn:Hnew.
  assert (Hr : fst (new_Html5DashJS (VRef 1%positive) no_options None
                      (quiet_world movie_store))
               = Normal {| hasFiniteDuration_ := false; mediaPlayer_ := Some 0%nat;
                           keySystemOptions_ := VNull; ttmlContainer_ := false |})
    by (vm_compute; reflexivity).
  rewrite Hnew in Hr. cbn [fst] in Hr. subst r.
  destruct (session_host_effects _ _ _ _ _ _ 0%nat Hnew eq_refl)
    as (Hdash & _ & Hsignals & _).
  split; [exact Hsignals|exact Hdash].
Defined.

Lemma construct_then_dispose_witness :
  exists this w' w'',
    new_Html5DashJS (VRef 1%positive) no_options (Some ttml_options) crowded_world
    = (Normal this, w') /\
    player_children w'
    = ["TTMLTextTrackDisplay"; "ControlBar"; "TTMLTextTrackDisplay"] /\
    dispose this w' = (Normal tt, w'') /\
    player_dash w'' = None /\
    player_children w'' = ["TTMLTextTrackDisplay"; "ControlBar"].
Proof.
  destruct (new_Html5DashJS (VRef 1%positive) no_options (Some ttml_options) crowded_world)
    as [r w'] eqn:Hnew.
  assert (Hr : fst (new_Html5DashJS (VRef 1%positive) no_options (Some ttml_options)
                      crowded_world)
               = Normal {| hasFiniteDuration_ := false; mediaPlayer_ := Some 0%nat;
                           keySystemOptions_ := VNull; ttmlContainer_ := true |})
    by (vm_compute; reflexivity).
  assert (Hc : player_children (snd (new_Html5DashJS (VRef 1%positive) no_options
                                       (Some ttml_options) crowded_world))
               = ["TTMLTextTrackDisplay"; "ControlBar"; "TTMLTextTrackDisplay"])
    by (vm_compute; reflexivity).
  rewrite Hnew in Hr, Hc. cbn [fst snd] in Hr, Hc. subst r.
  destruct (construct_then_dispose _ _ _ _ _ _ Hnew) as (w'' & Hrun & Hdash & Hchildren & _).
  eexists _, w', w''. split; [reflexivity|]. split; [exact Hc|]. split; [exact Hrun|].
  split; [exact Hdash|exact Hchildren].
Defined.

Lemma audio_tracks_created_witness :
  (length (List.filter AudioTrack.enabled
             (addTrack (handlePlaybackMetadataLoaded "fr" [english_audio; french_audio]
                          (Some 1%nat) 0 blank_player))) <= 1)%nat.
Proof.
  apply (audio_tracks_created "fr" [english_audio; french_audio] (Some 1%nat) 0%nat
           blank_player).
  apply (bool_decide_unpack _). vm_compute. reflexivity.
Defined.

Lemma audio_change_round_trip_witness :
  received
    (change (handlePlaybackMetadataLoaded "fr" [english_audio; french_audio]
               (Some 0%nat) 0 blank_player)
       (zip_with listed_track
          (addTrack (handlePlaybackMetadataLoaded "fr" [english_audio; french_audio]
                       (Some 0%nat) 0 blank_player))
          [false; true])
       blank_player)
  = [SetCurrentTrack (Some french)].
Proof.
  apply (audio_change_round_trip "fr" [english_audio; french_audio] (Some 0%nat) 0%nat
           blank_player [false; true] blank_player).
  apply (bool_decide_unpack _). vm_compute. reflexivity.
Defined.

Lemma updateActiveDashTextTrack_follows_witness :
  currentTextTrackIndex
    (snd (updateActiveDashTextTrack [english_text]
            [{| Entry.textTrack := 5%nat; Entry.dashTrack := english_text |}]
            subtitled_host)) = 0.
Proof.
  apply (proj1 (updateActiveDashTextTrack_follows [english_text]
                  [{| Entry.textTrack := 5%nat; Entry.dashTrack := english_text |}]
                  subtitled_host)
           [] {| TextTrack.id := 5; TextTrack.mode := "showing" |} []
           {| Entry.textTrack := 5%nat; Entry.dashTrack := english_text |} 0%nat).
  - apply (bool_decide_unpack _). vm_compute. reflexivity.
  - reflexivity.
  - reflexivity.
  - constructor.
  - reflexivity.
  - reflexivity.
Defined.

Lemma buildDashJSProtData_broken_entry_witness :
  exists e h', buildDashJSProtData (VRef 1%positive) null_entry_store = (Throw e, h').
Proof.
  apply (buildDashJSProtData_broken_entry null_entry_store 1%positive [VNull]).
  - reflexivity.
  - left. left. reflexivity.
Defined.

Lemma canHandleSource_circular_witness :
  canHandleSource no_eme (VRef 1%positive) (quiet_world loop_store)
  = (Throw (TypeError "Converting circular structure to JSON"), quiet_world loop_store).
Proof.
  apply (canHandleSource_circular no_eme 1%positive (quiet_world loop_store) {[1%positive]}).
  - intros l Hl. apply elem_of_singleton in Hl. subst l.
    exists (OPlain {[ "self" := VRef 1%positive ]}), 1%positive.
    split; [reflexivity|]. split; [exists "self"; reflexivity|].
    now apply elem_of_singleton.
  - now apply elem_of_singleton.
Defined.

